(** * mqns: proactive multiplexing core and link layer

    A shallow embedding of
    - [mqns/network/proactive/mux_statistical.py] (dynamic / statistical mux),
    - [mqns/network/proactive/select.py] (swap-candidate selection),
    - [mqns/network/protocol/link_layer.py] (reservation protocol),
    together with the part of the quantum memory that these use.

    Python objects that are shared and mutated in place are kept in explicit
    stores: memory qubits live in the memory's slot list and are named by
    their address, entanglement records live in a store of their own and are
    named by a reference, because one record is held by both endpoints.
    A Python exception is an outcome [Raised] that still carries the state
    reached when it was thrown. *)

From stdpp Require Import gmap strings list fin_maps.
From Stdlib Require Import ZArith.

Local Open Scope Z_scope.

(** ** Exceptions and outcomes *)

Inductive exn : Type :=
  | AssertionError
  | ValueError
  | KeyError
  | IndexError
  | Exception (msg : string).

Inductive outcome (S A : Type) : Type :=
  | Done (a : A) (s : S)
  | Raised (e : exn) (s : S).
Arguments Done {S A} a s.
Arguments Raised {S A} e s.

Definition M (S A : Type) : Type := S -> outcome S A.

Definition ret {S A} (a : A) : M S A := fun s => Done a s.
Definition bind {S A B} (m : M S A) (k : A -> M S B) : M S B :=
  fun s => match m s with
           | Done a s' => k a s'
           | Raised e s' => Raised e s'
           end.
Definition raise {S A} (e : exn) : M S A := fun s => Raised e s.
Definition get_state {S} : M S S := fun s => Done s s.
Definition put_state {S} (s : S) : M S unit := fun _ => Done tt s.
Definition modify {S} (f : S -> S) : M S unit := fun s => Done tt (f s).
(** Python's [assert b]. *)
Definition assert {S} (b : bool) : M S unit :=
  if b then ret tt else raise AssertionError.

#[global] Instance M_ret {S} : MRet (M S) := fun A a => ret a.
#[global] Instance M_bind {S} : MBind (M S) := fun A B k m => bind m k.

Definition is_done {S A} (o : outcome S A) : bool :=
  match o with Done _ _ => true | Raised _ _ => false end.

Definition final_state {S A} (o : outcome S A) : S :=
  match o with Done _ s => s | Raised _ s => s end.

(** ** Data model *)

Definition Time := Z.
Definition PathId := Z.
(** Nodes and channels are unique by name; the embedding names them by it. *)
Definition NodeName := string.
Definition ChannelName := string.
(** Reference to an entanglement record in the store. *)
Definition EprRef := nat.

Inductive QubitState : Type :=
  | RAW | ACTIVE | RESERVED | ENTANGLED0 | PURIF | ELIGIBLE | RELEASE.

#[global] Instance QubitState_eq_dec : EqDecision QubitState.
Proof. solve_decision. Defined.

Record MemoryQubit : Type := mkQubit {
  mq_addr : nat;
  mq_state : QubitState;
  mq_qchannel : option ChannelName;
  mq_path_id : option PathId;
  mq_active : option string
}.

#[global] Instance MemoryQubit_eq_dec : EqDecision MemoryQubit.
Proof. solve_decision. Defined.

Definition set_state (st : QubitState) (q : MemoryQubit) : MemoryQubit :=
  mkQubit (mq_addr q) st (mq_qchannel q) (mq_path_id q) (mq_active q).
Definition set_active (k : option string) (q : MemoryQubit) : MemoryQubit :=
  mkQubit (mq_addr q) (mq_state q) (mq_qchannel q) (mq_path_id q) k.

(** [WernerStateEntanglement], with the fields the modelled code reads or
    writes (the fidelity, a float, is not among them). *)
Record WernerStateEntanglement : Type := mkEpr {
  epr_name : string;
  epr_src : option NodeName;
  epr_dst : option NodeName;
  epr_key : option string;
  epr_attempts : Z;
  epr_creation_time : Time;
  epr_decoherence_time : option Time;
  tmp_path_ids : option (gset PathId)
}.

Definition set_tmp_path_ids (s : option (gset PathId))
    (e : WernerStateEntanglement) : WernerStateEntanglement :=
  mkEpr (epr_name e) (epr_src e) (epr_dst e) (epr_key e) (epr_attempts e)
        (epr_creation_time e) (epr_decoherence_time e) s.

(** The store of entanglement records. *)
Abbreviation EprStore := (gmap EprRef WernerStateEntanglement).

(** A memory slot: [_storage[addr] = (qubit, data)]. *)
Definition Slot : Type := MemoryQubit * option EprRef.

(** Python truthiness of an optional string: [None] and [""] are falsy. *)
Definition truthy (k : option string) : bool :=
  match k with
  | None => false
  | Some s => negb (String.eqb s EmptyString)
  end.

(** ** Quantum memory (mqns/entity/memory.py) *)

Module Memory.

(** Modelled from the spec: the class [QuantumMemory], whose source file
    [mqns/entity/memory.py] is not part of the sources at hand. A memory is
    a slot array of fixed capacity with a usage count (section 4.1 and the
    unit tests in [tests/entity/test_memory.py]). Decoherence scheduling on
    a write is outside this model. *)
Record QuantumMemory : Type := mkMemory {
  capacity : nat;
  _storage : list Slot;
  _usage : nat
}.



(** Modelled from the spec: the property [count] of the missing
    [QuantumMemory], the number of occupied slots. *)
Definition count (m : QuantumMemory) : nat := _usage m.

(** Modelled from the spec: [find(predicate, has_epr=False)] of the missing
    [QuantumMemory] yields, in slot order, the slots that satisfy the
    predicate; with [has_epr] only occupied slots are considered. *)
Definition find (predicate : MemoryQubit -> option EprRef -> bool)
    (has_epr : bool) (m : QuantumMemory) : list Slot :=
  List.filter (fun s : Slot =>
                 (if has_epr then bool_decide (is_Some (s.2)) else true)
                 && predicate (s.1) (s.2))
              (_storage m).

(** Python's [next(iterator, default)]. *)
Definition next {A} (it : list A) : option A := head it.

(** Modelled from the spec: [get(addr, must)] of the missing
    [QuantumMemory], the non-destructive lookup of an occupied slot by
    address; an absent entry is [None], or an error when [must] is set. *)
Definition get (addr : nat) (must : bool) (m : QuantumMemory)
    : exn + option (MemoryQubit * EprRef) :=
  match _storage m !! addr with
  | Some (q, Some r) => inr (Some (q, r))
  | _ => if must then inl ValueError else inr None
  end.

(** Modelled from the spec: the slot test of [write(content, path_id, key)]
    of the missing [QuantumMemory]: a free slot that matches the path id and
    the reservation key when these are given. *)
Definition write_matches (path_id : option PathId) (key : option string)
    (s : Slot) : bool :=
  bool_decide (s.2 = None)
  && match path_id with
     | None => true
     | Some _ => bool_decide (mq_path_id (s.1) = path_id)
     end
  && match key with
     | None => true
     | Some _ => bool_decide (mq_active (s.1) = key)
     end.

(** Modelled from the spec: [write(content, path_id?, key?)] of the missing
    [QuantumMemory] stores the content in the first matching free slot and
    returns its qubit, or returns [None] and changes nothing. *)
Definition write (content : EprRef) (path_id : option PathId)
    (key : option string) (m : QuantumMemory)
    : option MemoryQubit * QuantumMemory :=
  match list_find (fun s => write_matches path_id key s = true) (_storage m) with
  | Some (i, (q, _)) =>
      (Some q, mkMemory (capacity m) (<[i := (q, Some content)]> (_storage m))
                        (S (_usage m)))
  | None => (None, m)
  end.

(** Modelled from the spec: [clear()] of the missing [QuantumMemory] frees
    every slot; the link layer relies on the qubits being [RAW] and without
    reservation key afterwards ([run_active_channel]). *)
Definition clear (m : QuantumMemory) : QuantumMemory :=
  mkMemory (capacity m)
    (map (fun s : Slot => (set_active None (set_state RAW (s.1)), None))
         (_storage m)) 0.

(** In-place update of the qubit object at [addr]. *)
Definition update_qubit (addr : nat) (f : MemoryQubit -> MemoryQubit)
    (m : QuantumMemory) : QuantumMemory :=
  mkMemory (capacity m) (alter (fun s : Slot => (f (s.1), s.2)) addr (_storage m))
           (_usage m).

Definition qubit_at (addr : nat) (m : QuantumMemory) : option MemoryQubit :=
  fst <$> _storage m !! addr.

(** Modelled from the spec: [get_channel_qubits(ch_name)] of the missing
    [QuantumMemory] returns, in slot order, the slots whose qubit is
    assigned to the channel of that name, each with its content. *)
Definition get_channel_qubits (ch_name : ChannelName) (m : QuantumMemory)
    : list Slot :=
  List.filter (fun s : Slot => bool_decide (mq_qchannel (s.1) = Some ch_name))
              (_storage m).

End Memory.

(** ** Statistical multiplexing scheme (mux_statistical.py) *)

Module Mux.

(** [has_intersect_tmp_path_ids(epr0, epr1)], the second argument being any
    iterable of path ids. *)
Definition has_intersect_tmp_path_ids
    (epr0 : option (gset PathId)) (epr1 : option (list PathId)) : bool :=
  match epr0, epr1 with
  | Some s0, Some l1 => negb (forallb (fun p => bool_decide (p ∉ s0)) l1)
  | _, _ => false
  end.

(** [intersect_tmp_path_ids(epr0, epr1)]: the two asserts, the intersection,
    and the exception on an empty result. *)
Definition intersect_tmp_path_ids
    (epr0 epr1 : WernerStateEntanglement) : exn + gset PathId :=
  match tmp_path_ids epr0 with
  | None => inl AssertionError
  | Some s0 =>
    match tmp_path_ids epr1 with
    | None => inl AssertionError
    | Some s1 =>
      let path_ids := s0 ∩ s1 in
      if decide (path_ids = ∅)
      then inl (Exception "Cannot select path ID")
      else inr path_ids
    end
  end.

(** Dereferencing an entanglement record that the caller passes in. *)
Definition deref (r : EprRef) : M EprStore WernerStateEntanglement :=
  fun h => match h !! r with
           | Some e => Done e h
           | None => Raised KeyError h
           end.

Definition lift_sum {S A} (x : exn + A) : M S A :=
  match x with inl e => raise e | inr a => ret a end.

(** [swapping_succeeded(prev_epr, next_epr, new_epr)] *)
Definition swapping_succeeded (prev_epr next_epr new_epr : EprRef)
    : M EprStore unit :=
  p ← deref prev_epr;
  n ← deref next_epr;
  _ ← deref new_epr;
  ids ← lift_sum (intersect_tmp_path_ids p n);
  modify (alter (set_tmp_path_ids (Some ids)) new_epr).

(** [su_parallel_succeeded(merged_epr, new_epr, other_epr)] *)
Definition su_parallel_succeeded (merged_epr new_epr other_epr : EprRef)
    : M EprStore unit :=
  n ← deref new_epr;
  o ← deref other_epr;
  _ ← deref merged_epr;
  ids ← lift_sum (intersect_tmp_path_ids n o);
  modify (alter (set_tmp_path_ids (Some ids)) merged_epr).

(** [su_parallel_has_conflict(my_new_epr, su_path_id)]; the scheme's
    [coordinated_decisions] flag is the first argument. *)
Definition su_parallel_has_conflict (coordinated_decisions : bool)
    (my_new_epr : WernerStateEntanglement) (su_path_id : PathId)
    : exn + bool :=
  match tmp_path_ids my_new_epr with
  | None => inl AssertionError
  | Some s =>
    if decide (su_path_id ∉ s)
    then if negb coordinated_decisions then inr true else inl AssertionError
    else inr false
  end.

(** [MuxSchemeDynamicBase.qchannel_paths_map]: a [defaultdict] from channel
    name to the list of path ids, default the empty list. *)
Abbreviation PathsMap := (gmap ChannelName (list PathId)).

(** [self.qchannel_paths_map[name]] on a [defaultdict]: a missing key is
    inserted with the default before it is returned. *)
Definition defaultdict_getitem (name : ChannelName) (m : PathsMap)
    : list PathId * PathsMap :=
  match m !! name with
  | Some l => (l, m)
  | None => ([], <[name := []]> m)
  end.

(** [list.remove(x)]: drop the first occurrence, [ValueError] if absent. *)
Fixpoint list_remove (x : PathId) (l : list PathId) : option (list PathId) :=
  match l with
  | [] => None
  | y :: l' => if decide (y = x) then Some l'
               else cons y <$> list_remove x l'
  end.

(** [install_path_neighbor(instructions, fib_entry, direction, neighbor,
    qchannel)]: only the channel's name and the entry's path id are used. *)
Definition install_path_neighbor (fib_path_id : PathId)
    (qchannel : ChannelName) : M PathsMap unit :=
  fun m =>
    let '(paths, m1) := defaultdict_getitem qchannel m in
    Done tt (<[qchannel := paths ++ [fib_path_id]]> m1).

(** [uninstall_path_neighbor(fib_entry, direction, neighbor, qchannel)] *)
Definition uninstall_path_neighbor (fib_path_id : PathId)
    (qchannel : ChannelName) : M PathsMap unit :=
  fun m =>
    let '(paths, m1) := defaultdict_getitem qchannel m in
    match list_remove fib_path_id paths with
    | None => Raised ValueError m1
    | Some paths' =>
      let m2 := <[qchannel := paths']> m1 in
      if decide (length paths' = 0%nat)
      then Done tt (delete qchannel m2)
      else Done tt m2
    end.

(** Modelled from the spec: a FIB entry of the missing
    [mqns/network/proactive/fib.py] (section 3): the path id, the ordered
    node names of the path, the swap sequence with one rank per node, and
    this node's own swap rank. *)
Record FibEntry : Type := mkFibEntry {
  fe_path_id : PathId;
  fe_route : list NodeName;
  fe_swap : list Z;
  own_swap_rank : Z
}.

(** Modelled from the spec: [Fib.get(path_id)] of the missing FIB returns
    the entry of that path and fails if the path is unknown. *)
Definition fib_get (fib : list FibEntry) (path_id : PathId) : exn + FibEntry :=
  match list_find (fun e => fe_path_id e = path_id) fib with
  | Some (_, e) => inr e
  | None => inl IndexError
  end.

(** Modelled from the spec: [FibEntry.find_index_and_swap_rank(node_name)]
    of the missing FIB locates the node on the route and returns its index
    and its swap rank; it fails for a node that is not on the route. *)
Definition find_index_and_swap_rank (e : FibEntry) (node_name : NodeName)
    : exn + (nat * Z) :=
  match list_find (fun n => n = node_name) (fe_route e) with
  | Some (i, _) =>
      match fe_swap e !! i with
      | Some r => inr (i, r)
      | None => inl IndexError
      end
  | None => inl ValueError
  end.

(** Calls that the scheme makes on the forwarder ([self.fw]), whose source
    is not at hand: they are recorded in the order they are made. *)
Inductive FwCall : Type :=
  | FwReleaseQubit (addr : nat) (read : bool)
  | FwQubitIsEligible (addr : nat).

(** A [SelectSwapQubit] strategy is [None] or a function of the qubit, its
    entanglement, the optional FIB entry and the list of candidates. *)
Definition Candidate : Type := MemoryQubit * EprRef.
Definition SelectSwapQubit : Type :=
  option (MemoryQubit -> EprRef -> option FibEntry -> list Candidate -> Candidate).

(** What a [MuxSchemeStatistical] instance reaches: its own two fields, the
    node's memory and FIB, the entanglement records and the forwarder. *)
Record MuxState : Type := mkMux {
  qchannel_paths_map : PathsMap;
  coordinated_decisions : bool;
  memory : Memory.QuantumMemory;
  eprs : EprStore;
  fib : list FibEntry;
  fw_select_swap_qubit : SelectSwapQubit;
  fw_calls : list FwCall
}.

Definition with_memory (f : Memory.QuantumMemory -> Memory.QuantumMemory)
    (s : MuxState) : MuxState :=
  mkMux (qchannel_paths_map s) (coordinated_decisions s) (f (memory s))
        (eprs s) (fib s) (fw_select_swap_qubit s) (fw_calls s).
Definition with_eprs (f : EprStore -> EprStore) (s : MuxState) : MuxState :=
  mkMux (qchannel_paths_map s) (coordinated_decisions s) (memory s)
        (f (eprs s)) (fib s) (fw_select_swap_qubit s) (fw_calls s).
Definition fw_call (c : FwCall) : M MuxState unit :=
  modify (fun s =>
    mkMux (qchannel_paths_map s) (coordinated_decisions s) (memory s)
          (eprs s) (fib s) (fw_select_swap_qubit s) (fw_calls s ++ [c])).

(** The qubit object at an address of the node's memory. *)
Definition the_qubit (addr : nat) : M MuxState MemoryQubit :=
  fun s => match Memory.qubit_at addr (memory s) with
           | Some q => Done q s
           | None => Raised IndexError s
           end.
Definition the_epr (r : EprRef) : M MuxState WernerStateEntanglement :=
  fun s => match eprs s !! r with
           | Some e => Done e s
           | None => Raised KeyError s
           end.

(** [MuxSchemeDynamicBase._qubit_is_entangled_0(qubit)] *)
Definition _qubit_is_entangled_0 (addr : nat) : M MuxState (list PathId) :=
  qubit ← the_qubit addr;
  _ ← assert (bool_decide (mq_path_id qubit = None));
  match mq_qchannel qubit with
  | None => raise AssertionError
  | Some ch =>
    s ← get_state;
    let possible_path_ids := default [] (qchannel_paths_map s !! ch) in
    _ ← (if bool_decide (possible_path_ids = [])
         then fw_call (FwReleaseQubit addr true) else ret tt);
    ret possible_path_ids
  end.

(** Monadic list comprehension, left to right. *)
Fixpoint for_each {S A B} (f : A -> M S B) (l : list A) : M S (list B) :=
  match l with
  | [] => ret []
  | a :: l' => b ← f a; bs ← for_each f l'; ret (b :: bs)
  end.

(** [min(l)] and [max(l)], which raise [ValueError] on an empty list. *)
Definition py_min (l : list Z) : exn + Z :=
  match l with [] => inl ValueError | x :: l' => inr (foldr Z.min x l') end.
Definition py_max (l : list Z) : exn + Z :=
  match l with [] => inl ValueError | x :: l' => inr (foldr Z.max x l') end.

(** The inner function [calc_rank_diff(path_id)] of [_can_enter_purif]. *)
Definition calc_rank_diff (neighbor : NodeName) (path_id : PathId)
    : M MuxState Z :=
  s ← get_state;
  fib_entry ← lift_sum (fib_get (fib s) path_id);
  ir ← lift_sum (find_index_and_swap_rank fib_entry neighbor);
  ret (own_swap_rank fib_entry - ir.2).

(** [MuxSchemeStatistical._can_enter_purif(epr, neighbor)] *)
Definition _can_enter_purif (epr : EprRef) (neighbor : NodeName)
    : M MuxState bool :=
  e ← the_epr epr;
  match tmp_path_ids e with
  | None => raise AssertionError
  | Some ids =>
    rank_diff ← for_each (calc_rank_diff neighbor) (elements ids);
    lo ← lift_sum (py_min rank_diff);
    hi ← lift_sum (py_max rank_diff);
    _ ← assert (bool_decide (lo = hi));
    match rank_diff with
    | [] => raise IndexError
    | d :: _ => ret (bool_decide (d ≤ 0))
    end
  end.

(** [MuxSchemeStatistical.qubit_is_entangled(qubit, neighbor)] *)
Definition qubit_is_entangled (addr : nat) (neighbor : NodeName)
    : M MuxState unit :=
  l ← _qubit_is_entangled_0 addr;
  let possible_path_ids : gset PathId := list_to_set l in
  if decide (possible_path_ids = ∅) then ret tt
  else
    s ← get_state;
    qe ← lift_sum (Memory.get addr true (memory s));
    match qe with
    | None => raise ValueError
    | Some (_, epr) =>
      e ← the_epr epr;
      _ ← match tmp_path_ids e with
          | None =>
              modify (with_eprs (alter (set_tmp_path_ids (Some possible_path_ids)) epr))
          | Some ids =>
              if coordinated_decisions s
              then assert (bool_decide (ids ⊆ possible_path_ids))
              else assert (bool_decide (ids = possible_path_ids))
          end;
      ok ← _can_enter_purif epr neighbor;
      match ok with
      | true =>
        _ ← modify (with_memory (Memory.update_qubit addr (set_state PURIF)));
        _ ← modify (with_memory (Memory.update_qubit addr (set_state ELIGIBLE)));
        fw_call (FwQubitIsEligible addr)
      | false => ret tt
      end
    end.

(** [random.choice(seq)]: the draw is the argument [rnd]; an empty sequence
    raises [IndexError]. *)
Definition random_choice {A} (rnd : nat) (l : list A) : exn + A :=
  match l !! (rnd `mod` length l)%nat with
  | Some a => inr a
  | None => inl IndexError
  end.

(** [select_swap_qubit(fn, qubit, epr, fib_entry, candidates)] (select.py) *)
Definition select_swap_qubit (fn : SelectSwapQubit) (qubit : MemoryQubit)
    (epr : EprRef) (fib_entry : option FibEntry) (candidates : list Candidate)
    : option Candidate :=
  match fn with
  | None => Memory.next candidates
  | Some f =>
    let l := candidates in
    if bool_decide (length l = 0%nat) then None
    else Some (f qubit epr fib_entry l)
  end.

(** [select_swap_qubit_random(qubit, epr, fib_entry, candidates)] (select.py)
    for the draw [rnd]; it is only ever called on a non-empty list. *)
Definition select_swap_qubit_random (rnd : nat) (qubit : MemoryQubit)
    (epr : EprRef) (fib_entry : option FibEntry) (candidates : list Candidate)
    : Candidate :=
  nth (rnd `mod` length candidates)%nat candidates (qubit, epr).

(** The set comprehension [matched_channels] of [find_swap_candidate]. *)
Definition matched_channels (own_channel : ChannelName)
    (ids : option (gset PathId)) (m : PathsMap) : gset ChannelName :=
  dom (filter (fun kv : ChannelName * list PathId =>
                 kv.1 ≠ own_channel ∧
                 has_intersect_tmp_path_ids ids (Some (kv.2)) = true) m).

(** The [lambda q, v] that [find_swap_candidate] passes to [memory.find]. *)
Definition swap_candidate_test (matched : gset ChannelName)
    (ids : option (gset PathId)) (h : EprStore)
    (q : MemoryQubit) (v : option EprRef) : bool :=
  bool_decide (mq_state q = ELIGIBLE)
  && match mq_qchannel q with
     | Some n => bool_decide (n ∈ matched)
     | None => false
     end
  && has_intersect_tmp_path_ids ids
       (e1 ← (r ← v; h !! r); elements <$> tmp_path_ids e1).

Definition as_candidates (slots : list Slot) : list Candidate :=
  omap (fun s : Slot => r ← s.2; Some (s.1, r)) slots.

(** [MuxSchemeStatistical.find_swap_candidate(qubit, epr, fib_entry)]; [rnd]
    is the draw of [random.choice]. *)
Definition find_swap_candidate (rnd : nat) (addr : nat) (epr : EprRef)
    (fib_entry : option FibEntry)
    : M MuxState (option (MemoryQubit * FibEntry)) :=
  qubit ← the_qubit addr;
  match mq_qchannel qubit with
  | None => raise AssertionError
  | Some ch =>
    e ← the_epr epr;
    s ← get_state;
    let matched := matched_channels ch (tmp_path_ids e) (qchannel_paths_map s) in
    let found :=
      select_swap_qubit (fw_select_swap_qubit s) qubit epr fib_entry
        (as_candidates
           (Memory.find (swap_candidate_test matched (tmp_path_ids e) (eprs s))
                        true (memory s))) in
    match found with
    | None => ret None
    | Some (mq1, epr1) =>
      e1 ← the_epr epr1;
      ids ← lift_sum (intersect_tmp_path_ids e e1);
      chosen_path_id ← lift_sum (random_choice rnd (elements ids));
      _ ← (if coordinated_decisions s
           then modify (with_eprs (fun h =>
                  alter (set_tmp_path_ids (Some {[chosen_path_id]})) epr1
                    (alter (set_tmp_path_ids (Some {[chosen_path_id]})) epr h)))
           else ret tt);
      fe ← lift_sum (fib_get (fib s) chosen_path_id);
      ret (Some (mq1, fe))
    end
  end.

(** A [SelectPurifQubit] strategy: [None] or a function of the qubit, the
    FIB entry, the partner node and the list of candidates (select.py). *)
Definition SelectPurifQubit : Type :=
  option (MemoryQubit -> FibEntry -> NodeName -> list Candidate -> Candidate).

(** [select_purif_qubit(fn, qubit, fib_entry, partner, candidates)]
    (select.py) *)
Definition select_purif_qubit (fn : SelectPurifQubit) (qubit : MemoryQubit)
    (fib_entry : FibEntry) (partner : NodeName) (candidates : list Candidate)
    : option Candidate :=
  match fn with
  | None => Memory.next candidates
  | Some f =>
    let l := candidates in
    if bool_decide (length l = 0%nat) then None
    else Some (f qubit fib_entry partner l)
  end.

(** [select_path_random(fibs)] (select.py), with the draw [rnd]. *)
Definition select_path_random (rnd : nat) (fibs : list FibEntry)
    : exn + FibEntry :=
  random_choice rnd fibs.

(** The entries of [PathInstructions] that the dynamic schemes look at:
    the swap sequence, the values of the purification scheme, and whether
    the optional entry ["m_v"] is there. *)
Record PathInstructions : Type := mkInstructions {
  pi_swap : list Z;
  pi_purif : list Z;
  pi_has_m_v : bool
}.

(** The unpacking [s0, *s1, s2 = l], which raises [ValueError] on fewer
    than two elements. *)
Definition unpack_ends (l : list Z) : exn + (Z * list Z * Z) :=
  match l with
  | s0 :: rest =>
    match last rest with
    | Some s2 => inr (s0, removelast rest, s2)
    | None => inl ValueError
    end
  | [] => inl ValueError
  end.

(** Sequencing of computations that may raise and have no state. *)
Definition and_then {A B} (x : exn + A) (k : A -> exn + B) : exn + B :=
  match x with inl e => inl e | inr a => k a end.

Definition assert_pure (b : bool) : exn + unit :=
  if b then inr tt else inl AssertionError.

(** [MuxSchemeStatistical.validate_path_instructions(instructions)]. The
    function [validate_path_instructions] of the missing
    [mqns/network/proactive/message.py], which the base class calls first,
    is the parameter [validate_base]. *)
Definition validate_path_instructions
    (validate_base : PathInstructions -> exn + unit)
    (instructions : PathInstructions) : exn + unit :=
  and_then (validate_base instructions) (fun _ =>
  and_then (assert_pure (negb (pi_has_m_v instructions))) (fun _ =>
  and_then (unpack_ends (pi_swap instructions)) (fun '(s0, s1, s2) =>
  and_then (assert_pure (bool_decide (s0 = 1) && bool_decide (1 = s2))) (fun _ =>
  and_then (assert_pure (forallb (fun s => bool_decide (s = 0)) s1)) (fun _ =>
  assert_pure (forallb (fun r => bool_decide (r = 0)) (pi_purif instructions))))))).

End Mux.

(** ** Link layer (link_layer.py) *)

Module LinkLayer.

Import Memory.

Inductive Cmd : Type := RESERVE_QUBIT | RESERVE_QUBIT_OK.

Record ReserveMsg : Type := mkMsg {
  cmd : Cmd;
  msg_path_id : option PathId;
  msg_key : string
}.

Definition CChannelName := string.

Record ReservationRequest : Type := mkReq {
  req_key : string;
  req_path_id : option PathId;
  req_cchannel : CChannelName;
  req_from_node : NodeName;
  req_qchannel : ChannelName
}.

(** [cchannel.send(ClassicPacket(msg, src, dest), next_hop)], as recorded on
    the classical channel. *)
Record Sent : Type := mkSent {
  via : CChannelName;
  packet : ReserveMsg;
  pkt_src : NodeName;
  pkt_dest : NodeName;
  next_hop_of : NodeName
}.

(** The events the link layer puts on the simulator's queue. *)
Inductive Event : Type :=
  | LinkArchSuccessEvent (node : NodeName) (epr : EprRef) (t : Time)
  | QubitEntangledEvent (node neighbor : NodeName) (qubit : nat) (t : Time).

(** What a handler sees of its surroundings and never changes: the node and
    its channels, the timing mode (from the missing [network/timing.py],
    taken as the two queries the link layer makes), the clock and the link
    architecture's [delays] for the attempt number. *)
Record Env : Type := mkEnv {
  own : NodeName;
  is_async : bool;
  is_external : option Time -> bool;
  tc : Time;
  get_cchannel : NodeName -> option CChannelName;
  get_qchannel : NodeName -> option ChannelName;
  find_peer : CChannelName -> option NodeName;
  link_delays : ChannelName -> Z -> Time * Time * Time
}.

(** The fields of a [LinkLayer] instance. *)
Record LinkLayer : Type := mkLL {
  active_channels : gmap (ChannelName * option PathId) (NodeName * nat);
  pending_init_reservation : gmap string (ChannelName * NodeName * nat);
  fifo_reservation_req : list ReservationRequest;
  etg_count : nat;
  decoh_count : nat
}.

(** A link layer with the objects it works on: the node's memory, the
    entanglement records, the simulator's queue and the packets sent. *)
Record World : Type := mkWorld {
  ll : LinkLayer;
  memory : QuantumMemory;
  eprs : EprStore;
  events : list Event;
  sent : list Sent
}.

Definition with_ll (f : LinkLayer -> LinkLayer) (w : World) : World :=
  mkWorld (f (ll w)) (memory w) (eprs w) (events w) (sent w).
Definition with_memory (f : QuantumMemory -> QuantumMemory) (w : World) : World :=
  mkWorld (ll w) (f (memory w)) (eprs w) (events w) (sent w).
Definition with_eprs (f : EprStore -> EprStore) (w : World) : World :=
  mkWorld (ll w) (memory w) (f (eprs w)) (events w) (sent w).
Definition add_event (e : Event) : M World unit :=
  modify (fun w => mkWorld (ll w) (memory w) (eprs w) (events w ++ [e]) (sent w)).
Definition send (p : Sent) : M World unit :=
  modify (fun w => mkWorld (ll w) (memory w) (eprs w) (events w) (sent w ++ [p])).

Definition set_pending (f : gmap string (ChannelName * NodeName * nat) ->
                            gmap string (ChannelName * NodeName * nat))
    (l : LinkLayer) : LinkLayer :=
  mkLL (active_channels l) (f (pending_init_reservation l))
       (fifo_reservation_req l) (etg_count l) (decoh_count l).
Definition set_fifo (f : list ReservationRequest -> list ReservationRequest)
    (l : LinkLayer) : LinkLayer :=
  mkLL (active_channels l) (pending_init_reservation l)
       (f (fifo_reservation_req l)) (etg_count l) (decoh_count l).
Definition incr_etg_count (l : LinkLayer) : LinkLayer :=
  mkLL (active_channels l) (pending_init_reservation l)
       (fifo_reservation_req l) (S (etg_count l)) (decoh_count l).
Definition incr_decoh_count (l : LinkLayer) : LinkLayer :=
  mkLL (active_channels l) (pending_init_reservation l)
       (fifo_reservation_req l) (etg_count l) (S (decoh_count l)).

Definition the_qubit (addr : nat) : M World MemoryQubit :=
  fun w => match qubit_at addr (memory w) with
           | Some q => Done q w
           | None => Raised IndexError w
           end.
Definition the_epr (r : EprRef) : M World WernerStateEntanglement :=
  fun w => match eprs w !! r with
           | Some e => Done e w
           | None => Raised KeyError w
           end.
Definition or_raise {A} (e : exn) (o : option A) : M World A :=
  match o with Some a => ret a | None => raise e end.

Section handlers.
Variable env : Env.

(** [start_reservation(next_hop, qchannel, qubit)]; [key] is the value of
    [uuid.uuid4().hex]. *)
Definition start_reservation (key : string) (next_hop : NodeName)
    (qchannel : ChannelName) (addr : nat) : M World unit :=
  w ← get_state;
  _ ← assert (bool_decide (pending_init_reservation (ll w) !! key = None));
  _ ← modify (with_memory
         (update_qubit addr (fun q => set_active (Some key) (set_state ACTIVE q))));
  _ ← modify (with_ll (set_pending (<[key := (qchannel, next_hop, addr)]>)));
  qubit ← the_qubit addr;
  let msg := mkMsg RESERVE_QUBIT (mq_path_id qubit) key in
  cchannel ← or_raise (Exception "No such classic channel")
                      (get_cchannel env next_hop);
  send (mkSent cchannel msg (own env) next_hop next_hop).

(** The [lambda q, v] that [try_accept_reservation] passes to [memory.find]. *)
Definition reservable (req : ReservationRequest)
    (q : MemoryQubit) (v : option EprRef) : bool :=
  bool_decide (v = None)
  && negb (truthy (mq_active q))
  && bool_decide (mq_qchannel q = Some (req_qchannel req))
  && bool_decide (mq_path_id q = req_path_id req).

(** [try_accept_reservation(req)] *)
Definition try_accept_reservation (req : ReservationRequest) : M World bool :=
  w ← get_state;
  match next (find (reservable req) false (memory w)) with
  | None => ret false
  | Some (qubit, _) =>
    _ ← modify (with_memory (update_qubit (mq_addr qubit) (set_state ACTIVE)));
    _ ← modify (with_memory
           (update_qubit (mq_addr qubit)
              (fun q => set_active (Some (req_key req)) (set_state RESERVED q))));
    let msg := mkMsg RESERVE_QUBIT_OK (req_path_id req) (req_key req) in
    _ ← send (mkSent (req_cchannel req) msg (own env) (req_from_node req)
                     (req_from_node req));
    ret true
  end.

(** [handle_reserve_req(msg, cchannel)] *)
Definition handle_reserve_req (msg : ReserveMsg) (cchannel : CChannelName)
    : M World unit :=
  from_node ← or_raise AssertionError (find_peer env cchannel);
  qchannel ← or_raise (Exception "No such quantum channel")
                      (get_qchannel env from_node);
  let req := mkReq (msg_key msg) (msg_path_id msg) cchannel from_node qchannel in
  ok ← try_accept_reservation req;
  match ok with
  | true => ret tt
  | false => modify (with_ll (set_fifo (fun q => q ++ [req])))
  end.

(** [generate_entanglement(qchannel, next_hop, qubit)]; [k] is the value of
    [np.random.geometric(p)] and [name] that of [uuid.uuid4().hex]. *)
Definition generate_entanglement (k : Z) (name : string)
    (qchannel : ChannelName) (next_hop : NodeName) (addr : nat)
    : M World unit :=
  qubit ← the_qubit addr;
  let '(d_epr_creation, d_notify_a, d_notify_b) := link_delays env qchannel k in
  let t_epr_creation := tc env + d_epr_creation in
  let t_notify_a := tc env + (d_epr_creation + d_notify_a) in
  let t_notify_b := tc env + (d_epr_creation + d_notify_b) in
  w ← get_state;
  let epr : EprRef := fresh (dom (eprs w)) in
  _ ← modify (with_eprs
         (<[epr := mkEpr name (Some (own env)) (Some next_hop) (mq_active qubit)
                         k t_epr_creation None None]>));
  if negb (is_external env (Some (Z.max t_notify_a t_notify_b)))
  then ret tt
  else
    _ ← add_event (LinkArchSuccessEvent (own env) epr t_notify_a);
    add_event (LinkArchSuccessEvent next_hop epr t_notify_b).

(** [handle_reserve_res(msg)], with the draws of [generate_entanglement]. *)
Definition handle_reserve_res (k : Z) (name : string) (msg : ReserveMsg)
    : M World unit :=
  let key := msg_key msg in
  w ← get_state;
  '(qchannel, next_hop, addr) ←
     or_raise KeyError (pending_init_reservation (ll w) !! key);
  _ ← modify (with_ll (set_pending (delete key)));
  qubit ← the_qubit addr;
  _ ← assert (bool_decide (mq_active qubit = Some key));
  _ ← modify (with_memory (update_qubit addr (set_state RESERVED)));
  generate_entanglement k name qchannel next_hop addr.

(** [memory.write(epr, key=...)] on the world's memory. *)
Definition memory_write (content : EprRef) (path_id : option PathId)
    (key : option string) : M World (option MemoryQubit) :=
  fun w => let '(q, m') := write content path_id key (memory w) in
           Done q (with_memory (fun _ => m') w).

(** [handle_success_entangle(event)], the event carrying [epr]. *)
Definition handle_success_entangle (epr_ref : EprRef) : M World unit :=
  _ ← assert (is_external env None);
  epr ← the_epr epr_ref;
  let '(neighbor, is_primary) :=
    if decide (epr_src epr = Some (own env))
    then (epr_dst epr, true) else (epr_src epr, false) in
  neighbor ← or_raise AssertionError neighbor;
  _ ← (if is_primary : bool then modify (with_ll incr_etg_count) else ret tt);
  _ ← assert (match epr_decoherence_time epr with
              | None => true
              | Some d => bool_decide (tc env < d)
              end);
  qubit ← memory_write epr_ref None (epr_key epr);
  match qubit with
  | None => raise (Exception "Failed to store EPR")
  | Some q =>
    _ ← modify (with_memory (update_qubit (mq_addr q) (set_state ENTANGLED0)));
    add_event (QubitEntangledEvent (own env) neighbor (mq_addr q) (tc env))
  end.

(** [handle_decoh_rel(event)]: [is_decoh] tells a [QubitDecoheredEvent] from
    a [QubitReleasedEvent], [addr] is the event's qubit, and [key] is the
    value that [uuid.uuid4().hex] takes if a reservation is started. *)
Definition handle_decoh_rel (key : string) (is_decoh : bool) (addr : nat)
    : M World bool :=
  _ ← the_qubit addr;
  _ ← (if is_decoh then modify (with_ll incr_decoh_count) else ret tt);
  _ ← modify (with_memory
         (update_qubit addr (fun q => set_active None (set_state RAW q))));
  qubit ← the_qubit addr;
  match mq_qchannel qubit with
  | None => raise AssertionError
  | Some qchannel =>
    w ← get_state;
    _ ← match active_channels (ll w) !! (qchannel, mq_path_id qubit) with
        | None =>
          match fifo_reservation_req (ll w) with
          | [] => ret tt
          | req :: _ =>
            ok ← try_accept_reservation req;
            match ok with
            | true => modify (with_ll (set_fifo (drop 1)))
            | false => ret tt
            end
          end
        | Some (next_hop, _) =>
          if is_async env
          then start_reservation key next_hop qchannel addr
          else if is_decoh
               then raise (Exception "UNEXPECTED -> (t_ext + t_int) too short")
               else ret tt
        end;
    ret true
  end.

(** [run_active_channel(qchannel, path_id, next_hop)]; [key_for addr] is the
    value of [uuid.uuid4().hex] in the reservation started for the qubit at
    [addr]. The list of channel qubits is taken once, before the loop; the
    qubit objects in it are read as they are when their turn comes. *)
Definition run_active_channel (key_for : nat -> string)
    (qchannel : ChannelName) (path_id : option PathId) (next_hop : NodeName)
    : M World unit :=
  w ← get_state;
  let qubits := get_channel_qubits qchannel (memory w) in
  _ ← Mux.for_each
        (fun s : Slot =>
           qb ← the_qubit (mq_addr (s.1));
           if negb (bool_decide (mq_path_id qb = path_id))
              || negb (bool_decide (mq_state qb = RAW))
           then ret tt
           else
             _ ← assert (bool_decide (mq_active qb = None));
             _ ← assert (bool_decide (s.2 = None));
             start_reservation (key_for (mq_addr qb)) next_hop qchannel
                               (mq_addr qb))
        qubits;
  ret tt.

(** [add_active_channel(qchannel, path_id, neighbor)]. The insertion count
    is a natural number: the code stores 1 or a successor here, and
    [remove_active_channel] never stores 0. *)
Definition add_active_channel (key_for : nat -> string)
    (qchannel : ChannelName) (path_id : option PathId) (neighbor : NodeName)
    : M World unit :=
  let key := (qchannel, path_id) in
  w ← get_state;
  let n := (default (neighbor, 0%nat) (active_channels (ll w) !! key)).2 in
  let n := S n in
  _ ← modify (with_ll (fun l =>
         mkLL (<[key := (neighbor, n)]> (active_channels l))
              (pending_init_reservation l) (fifo_reservation_req l)
              (etg_count l) (decoh_count l)));
  if bool_decide (1 < n)%nat
  then assert (bool_decide (path_id = None))
  else if is_async env
       then run_active_channel key_for qchannel path_id neighbor
       else ret tt.

(** [remove_active_channel(qchannel, path_id, neighbor)]; a stored count is
    at least 1, so that [n -= 1] stays a natural number. *)
Definition remove_active_channel (qchannel : ChannelName)
    (path_id : option PathId) (neighbor : NodeName) : M World unit :=
  let key := (qchannel, path_id) in
  w ← get_state;
  entry ← or_raise KeyError (active_channels (ll w) !! key);
  let n := Nat.pred (entry.2) in
  modify (with_ll (fun l =>
    mkLL (if bool_decide (n = 0%nat)
          then delete key (active_channels l)
          else <[key := (neighbor, n)]> (active_channels l))
         (pending_init_reservation l) (fifo_reservation_req l)
         (etg_count l) (decoh_count l))).

(** [handle_manage_active_channels(event)], the event carrying [start],
    the channel, the path id and the neighbour. *)
Definition handle_manage_active_channels (key_for : nat -> string)
    (start : bool) (qchannel : ChannelName) (path_id : option PathId)
    (neighbor : NodeName) : M World bool :=
  _ ← (if start
       then add_active_channel key_for qchannel path_id neighbor
       else remove_active_channel qchannel path_id neighbor);
  ret true.

(** The payload of a classic packet as [RecvClassicPacketHandler] looks at
    it: something that is not a dict with a ["cmd"] entry, or such a dict
    with its command tag, path id and key. *)
Inductive Payload : Type :=
  | NoCommand
  | Command (tag : string) (path_id : option PathId) (key : string).

(** [RecvClassicPacketHandler(event)], with the draws that
    [handle_reserve_res] passes on to [generate_entanglement]. *)
Definition RecvClassicPacketHandler (k : Z) (name : string)
    (payload : Payload) (cchannel : CChannelName) : M World bool :=
  match payload with
  | NoCommand => ret false
  | Command tag path_id key =>
    if String.eqb tag "RESERVE_QUBIT"
    then _ ← handle_reserve_req (mkMsg RESERVE_QUBIT path_id key) cchannel;
         ret true
    else if String.eqb tag "RESERVE_QUBIT_OK"
    then _ ← handle_reserve_res k name (mkMsg RESERVE_QUBIT_OK path_id key);
         ret true
    else ret false
  end.

End handlers.

End LinkLayer.

(** * Vocabulary of the statements *)

(** ** Memory: occupancy and write sequences *)

Section memory_capacity_vocabulary.
Import Memory.

(** The slot holds something. *)
Definition is_occupied (s : Slot) : bool := bool_decide (is_Some (s.2)).

(** Number of occupied slots. *)
Definition occupied (st : list Slot) : nat := length (List.filter is_occupied st).

(** The usage count is the number of occupied slots, of which there are
    [capacity] in all. *)
Definition consistent (m : QuantumMemory) : Prop :=
  length (_storage m) = capacity m ∧ _usage m = occupied (_storage m).

(** A write request: content, optional path id, optional key. *)
Definition WriteArgs : Type := EprRef * option PathId * option string.

(** Successive writes, all of which must succeed. *)
Fixpoint write_all (reqs : list WriteArgs) (m : QuantumMemory)
    : option QuantumMemory :=
  match reqs with
  | [] => Some m
  | (content, path_id, key) :: rest =>
    match write content path_id key m with
    | (Some _, m') => write_all rest m'
    | (None, _) => None
    end
  end.

End memory_capacity_vocabulary.

(** ** Link layer: results of the handlers, and scenarios *)

Section link_layer_vocabulary.
Import Memory LinkLayer.

(** The entanglement record that [generate_entanglement] creates. *)
Definition new_epr (env : Env) (k : Z) (name : string) (next_hop : NodeName)
    (qubit : MemoryQubit) (t_epr_creation : Time) : WernerStateEntanglement :=
  mkEpr name (Some (own env)) (Some next_hop) (mq_active qubit) k
        t_epr_creation None None.

(** Node "A" with one reserved qubit on channel "qc". *)
Definition demo_qubit : MemoryQubit :=
  mkQubit 0 RESERVED (Some "qc") None (Some "k1").

Definition demo_world : World :=
  mkWorld (mkLL ∅ ∅ [] 0 0) (mkMemory 1 [(demo_qubit, None)] 0) ∅ [] [].

(** A synchronous-mode environment whose external phase ends at time 10. *)
Definition demo_env_sync : Env :=
  mkEnv "A" false
        (fun t => match t with None => true | Some t => bool_decide (t < 10) end)
        3
        (fun _ => Some "cc") (fun _ => Some "qc") (fun _ => Some "B")
        (fun _ k => (k, 1, 2)).

(** The first steps of [handle_decoh_rel]: count a decoherence, then put the
    qubit back to [RAW] without reservation key. *)
Definition reset_qubit (is_decoh : bool) (addr : nat) (w : World) : World :=
  with_memory (update_qubit addr (fun q => set_active None (set_state RAW q)))
    (if is_decoh then with_ll incr_decoh_count w else w).

(** Node "A", initiator on channel "qc" towards "B", with one entangled
    qubit of that channel. *)
Definition sync_world : World :=
  mkWorld (mkLL {[ ("qc", None) := ("B", 1%nat) ]} ∅ [] 0 0)
          (mkMemory 1 [(mkQubit 0 ENTANGLED0 (Some "qc") None (Some "k1"), None)] 0)
          ∅ [] [].

(** Node "A" in asynchronous mode. *)
Definition async_env : Env :=
  mkEnv "A" true (fun _ => true) 3
        (fun _ => Some "cc") (fun _ => Some "qc") (fun _ => Some "B")
        (fun _ k => (k, 1, 2)).

(** Every qubit sits in the slot that its address names. *)
Definition well_addressed (m : QuantumMemory) : Prop :=
  ∀ i s, _storage m !! i = Some s -> mq_addr (s.1) = i.

(** The reply [RESERVE_QUBIT_OK(path_id, key)] to a request. *)
Definition reserve_ok_reply (env : Env) (req : ReservationRequest) : Sent :=
  mkSent (req_cchannel req)
         (mkMsg RESERVE_QUBIT_OK (req_path_id req) (req_key req))
         (own env) (req_from_node req) (req_from_node req).

(** The qubit as [try_accept_reservation] leaves it. *)
Definition reserved_for (req : ReservationRequest) (q : MemoryQubit)
    : MemoryQubit :=
  set_active (Some (req_key req)) (set_state RESERVED q).

(** The first slot that a request can reserve. *)
Definition first_reservable (req : ReservationRequest) (m : QuantumMemory)
    : option (nat * Slot) :=
  list_find (fun s : Slot => reservable req (s.1) (s.2) = true) (_storage m).

(** The world after a request has been accepted on slot [i]. *)
Definition accepted (env : Env) (req : ReservationRequest) (i : nat)
    (q : MemoryQubit) (w : World) : World :=
  mkWorld (ll w)
    (mkMemory (capacity (memory w))
              (<[i := (reserved_for req q, None)]> (_storage (memory w)))
              (_usage (memory w)))
    (eprs w) (events w) (sent w ++ [reserve_ok_reply env req]).

(** A responder whose first slot is occupied and whose second slot is free
    on channel "qc". *)
Definition responder_world : World :=
  mkWorld (mkLL ∅ ∅ [] 0 0)
          (mkMemory 2 [(mkQubit 0 ENTANGLED0 (Some "qc") None (Some "k0"), Some 7%nat);
                       (mkQubit 1 RAW (Some "qc") None None, None)] 1)
          ∅ [] [].

(** The first slot that [memory.write(epr, key=key)] can take. *)
Definition first_writable (key : option string) (m : QuantumMemory)
    : option (nat * Slot) :=
  list_find (fun s : Slot => write_matches None key s = true) (_storage m).

(** The other end of an entanglement record, seen from this node. *)
Definition neighbor_of (env : Env) (epr : WernerStateEntanglement)
    : option NodeName :=
  if decide (epr_src epr = Some (own env)) then epr_dst epr else epr_src epr.

(** [is_primary] of [handle_success_entangle]. *)
Definition is_primary (env : Env) (epr : WernerStateEntanglement) : bool :=
  bool_decide (epr_src epr = Some (own env)).

(** An elementary pair generated by "A" (source) with "B" (destination). *)
Definition pair_epr : WernerStateEntanglement :=
  mkEpr "e" (Some "A") (Some "B") (Some "k1") 1 2 None None.

(** Node "B" at time 3, with the slot reserved under the pair's key; the
    notification of "A" is still queued for time 5. *)
Definition env_B : Env :=
  mkEnv "B" true (fun _ => true) 3
        (fun _ => Some "cc") (fun _ => Some "qc") (fun _ => Some "A")
        (fun _ k => (k, 3, 1)).

Definition world_B : World :=
  mkWorld (mkLL ∅ ∅ [] 0 0)
          (mkMemory 1 [(mkQubit 0 RESERVED (Some "qc") None (Some "k1"), None)] 0)
          {[ 0%nat := pair_epr ]}
          [LinkArchSuccessEvent "A" 0%nat 5] [].

(** Node "A" with the slot reserved under the pair's key. *)
Definition world_A : World :=
  mkWorld (mkLL ∅ ∅ [] 0 0)
          (mkMemory 1 [(mkQubit 0 RESERVED (Some "qc") None (Some "k1"), None)] 0)
          {[ 0%nat := pair_epr ]} [] [].

End link_layer_vocabulary.

(** ** Statistical mux: rank differences and promotion *)

Section promotion_vocabulary.
Import Mux.

(** The rank difference of [calc_rank_diff] as a partial function of the
    FIB: own swap rank minus the neighbour's swap rank on the path. *)
Definition rank_diff_of (fib : list FibEntry) (neighbor : NodeName)
    (path_id : PathId) : option Z :=
  match fib_get fib path_id with
  | inr fib_entry =>
    match find_index_and_swap_rank fib_entry neighbor with
    | inr ir => Some (own_swap_rank fib_entry - ir.2)
    | inl _ => None
    end
  | inl _ => None
  end.

(** The candidate set of the qubit's entanglement once the scheme has
    looked at it: the paths registered on the channel, unless the other
    endpoint has set it already. *)
Definition candidate_ids (l : list PathId) (e : WernerStateEntanglement)
    : gset PathId :=
  match tmp_path_ids e with
  | None => list_to_set l
  | Some ids => ids
  end.

(** The check that [qubit_is_entangled] makes on a set that is already
    there. *)
Definition tmp_consistent (coordinated : bool) (l : list PathId)
    (e : WernerStateEntanglement) : Prop :=
  match tmp_path_ids e with
  | None => True
  | Some ids => if coordinated then ids ⊆ list_to_set l else ids = list_to_set l
  end.

(** The qubit is [ELIGIBLE] and the forwarder has been told so. *)
Definition promoted (addr : nat) (s s' : MuxState) : Prop :=
  mq_state <$> Memory.qubit_at addr (memory s') = Some ELIGIBLE ∧
  fw_calls s' = fw_calls s ++ [FwQubitIsEligible addr].

(** The state in which [_can_enter_purif] is asked: the candidate set has
    been written into the entanglement record if it had none. *)
Definition with_candidates (l : list PathId) (epr : EprRef)
    (e : WernerStateEntanglement) (s : MuxState) : MuxState :=
  match tmp_path_ids e with
  | None => with_eprs (alter (set_tmp_path_ids (Some (list_to_set l))) epr) s
  | Some _ => s
  end.

(** The last steps of [qubit_is_entangled]. *)
Definition promote_if (addr : nat) (ok : bool) : M MuxState unit :=
  match ok with
  | true =>
    _ ← modify (with_memory (Memory.update_qubit addr (set_state PURIF)));
    _ ← modify (with_memory (Memory.update_qubit addr (set_state ELIGIBLE)));
    fw_call (FwQubitIsEligible addr)
  | false => mret tt
  end.

End promotion_vocabulary.

(** ** Statistical mux: selection strategies *)

Section swap_candidate_vocabulary.
Import Mux.

(** A selection strategy selects among the candidates it is given. *)
Definition selects_among (fn : SelectSwapQubit) : Prop :=
  match fn with
  | None => True
  | Some f => ∀ qubit epr fib_entry l, l ≠ [] -> f qubit epr fib_entry l ∈ l
  end.

End swap_candidate_vocabulary.

(** ** Scenarios of the mux *)

(** An entanglement record with the given candidate set. *)
Definition epr_with (ids : option (gset PathId)) : WernerStateEntanglement :=
  mkEpr "epr" None None None 1 0 None ids.

(** Two half-pairs with candidate sets [a] and [b], and a merged pair. *)
Definition store3 (a b : gset PathId) : EprStore :=
  <[0%nat := epr_with (Some a)]>
    (<[1%nat := epr_with (Some b)]> {[ 2%nat := epr_with None ]}).

(** [install_path_neighbor] followed by [uninstall_path_neighbor]. *)
Definition install_then_uninstall (path_id : PathId) (qchannel : ChannelName)
    : M Mux.PathsMap unit :=
  _ ← Mux.install_path_neighbor path_id qchannel;
  Mux.uninstall_path_neighbor path_id qchannel.

(** Two paths through "B", which swaps first (rank 0) on both. *)
Definition demo_fib : list Mux.FibEntry :=
  [Mux.mkFibEntry 1 ["A"; "B"; "C"] [1; 0; 1] 0;
   Mux.mkFibEntry 2 ["A"; "B"; "D"] [1; 0; 1] 0].

(** Node "B" with one entangled qubit towards "A" whose record has no
    candidate set yet. *)
Definition fresh_mux : Mux.MuxState :=
  Mux.mkMux {[ "qAB" := [1; 2] ]} false
    (Memory.mkMemory 1
       [(mkQubit 0 ENTANGLED0 (Some "qAB") None (Some "k"), Some 0%nat)] 1)
    {[ 0%nat := epr_with None ]} demo_fib None [].

(** Node "B" as in [fresh_mux], with a record whose candidate set was
    fixed to path 1 before the qubit is looked at. *)
Definition preset_mux : Mux.MuxState :=
  Mux.mkMux {[ "qAB" := [1; 2] ]} false
    (Memory.mkMemory 1
       [(mkQubit 0 ENTANGLED0 (Some "qAB") None (Some "k"), Some 0%nat)] 1)
    {[ 0%nat := epr_with (Some {[1]}) ]} demo_fib None [].

(** Node "B" holding an eligible qubit towards "A" (candidate paths 1 and
    2) and one towards "C" (candidate path 1). *)
Definition qubit_AB : MemoryQubit := mkQubit 0 ELIGIBLE (Some "qAB") None (Some "k").

Definition qubit_BC : MemoryQubit := mkQubit 1 ELIGIBLE (Some "qBC") None (Some "j").

Definition swap_mux (coordinated : bool) : Mux.MuxState :=
  Mux.mkMux (<[ "qAB" := [1; 2] ]> {[ "qBC" := [1] ]}) coordinated
    (Memory.mkMemory 2 [(qubit_AB, Some 0%nat); (qubit_BC, Some 1%nat)] 2)
    (<[ 0%nat := epr_with (Some {[1; 2]}) ]> {[ 1%nat := epr_with (Some {[1]}) ]})
    demo_fib None [].

(** * Vocabulary of further properties *)

(** No channel is mapped to an empty list of paths. *)
Definition no_empty_lists (m : Mux.PathsMap) : Prop :=
  ∀ ch, m !! ch ≠ Some [].

(** The paths registered on a channel, as [qchannel_paths_map.get(ch, [])]. *)
Definition paths_on (ch : ChannelName) (m : Mux.PathsMap) : list PathId :=
  default [] (m !! ch).


(** The scheme's state after one more call on the forwarder. *)
Definition with_fw_call (c : Mux.FwCall) (s : Mux.MuxState) : Mux.MuxState :=
  Mux.mkMux (Mux.qchannel_paths_map s) (Mux.coordinated_decisions s)
            (Mux.memory s) (Mux.eprs s) (Mux.fib s)
            (Mux.fw_select_swap_qubit s) (Mux.fw_calls s ++ [c]).

(** The candidate set of the record at a reference, if there is one. *)
Definition candidates_at (r : EprRef) (h : EprStore) : option (gset PathId) :=
  e ← h !! r; tmp_path_ids e.


(** The candidates that [find_swap_candidate] hands to the selection, for a
    qubit on channel [ch] whose record has the candidate set [ids]. *)
Definition swap_candidates (ch : ChannelName) (ids : option (gset PathId))
    (s : Mux.MuxState) : list Mux.Candidate :=
  Mux.as_candidates
    (Memory.find
       (Mux.swap_candidate_test
          (Mux.matched_channels ch ids (Mux.qchannel_paths_map s)) ids (Mux.eprs s))
       true (Mux.memory s)).

(** The entanglement store after a coordinated decision for a path. *)
Definition committed (chosen : PathId) (epr epr1 : EprRef) (s : Mux.MuxState)
    : Mux.MuxState :=
  if Mux.coordinated_decisions s
  then Mux.with_eprs (fun h =>
         alter (set_tmp_path_ids (Some {[chosen]})) epr1
           (alter (set_tmp_path_ids (Some {[chosen]})) epr h)) s
  else s.

(** A swap sequence of the form [1, 0, ..., 0, 1]. *)
Definition swap_at_ends_only (swap : list Z) : Prop :=
  ∃ n, swap = 1 :: replicate n 0 ++ [1].


Section more_link_layer_vocabulary.
Import Memory LinkLayer.

(** Every insertion count in the active-channel table is at least 1. *)
Definition positive_counts (l : LinkLayer) : Prop :=
  ∀ key neighbor n, active_channels l !! key = Some (neighbor, n) -> (0 < n)%nat.

(** The world with another active-channel table. *)
Definition with_channels
    (f : gmap (ChannelName * option PathId) (NodeName * nat) ->
         gmap (ChannelName * option PathId) (NodeName * nat))
    (w : World) : World :=
  with_ll (fun l => mkLL (f (active_channels l)) (pending_init_reservation l)
                         (fifo_reservation_req l) (etg_count l) (decoh_count l)) w.

(** A start event followed by the stop event for the same channel, path and
    neighbour. *)
Definition start_then_stop (env : Env) (key_for : nat -> string)
    (qchannel : ChannelName) (path_id : option PathId) (neighbor : NodeName)
    : M World bool :=
  _ ← handle_manage_active_channels env key_for true qchannel path_id neighbor;
  handle_manage_active_channels env key_for false qchannel path_id neighbor.

(** The request [RESERVE_QUBIT(path_id, key)] that [start_reservation]
    sends for a qubit. *)
Definition reserve_request (env : Env) (cchannel : CChannelName)
    (next_hop : NodeName) (qubit : MemoryQubit) (key : string) : Sent :=
  mkSent cchannel (mkMsg RESERVE_QUBIT (mq_path_id qubit) key)
         (own env) next_hop next_hop.

End more_link_layer_vocabulary.


Section reservation_vocabulary.
Import Memory LinkLayer.

(** The world after [start_reservation] has sent its request on [cchannel]
    for the qubit [qubit] at [addr]. *)
Definition reserving (env : Env) (key : string) (next_hop : NodeName)
    (qchannel : ChannelName) (addr : nat) (cchannel : CChannelName)
    (qubit : MemoryQubit) (w : World) : World :=
  mkWorld (set_pending (<[key := (qchannel, next_hop, addr)]>) (ll w))
          (update_qubit addr
             (fun q => set_active (Some key) (set_state ACTIVE q)) (memory w))
          (eprs w) (events w)
          (sent w ++ [reserve_request env cchannel next_hop qubit key]).

(** No slot other than [addr] carries the reservation key. *)
Definition key_only_at (key : string) (addr : nat) (m : QuantumMemory) : Prop :=
  ∀ j s, _storage m !! j = Some s -> mq_active (s.1) = Some key -> j = addr.

(** The environment at a later time. *)
Definition at_time (t : Time) (env : Env) : Env :=
  mkEnv (own env) (is_async env) (is_external env) t (get_cchannel env)
        (get_qchannel env) (find_peer env) (link_delays env).

End reservation_vocabulary.


Section delivery_vocabulary.
Import Memory LinkLayer.

(** The world after [handle_success_entangle] has stored the record [r] in
    slot [i], which held the qubit [q]. *)
Definition stored (env : Env) (r : EprRef) (epr : WernerStateEntanglement)
    (neighbor : NodeName) (i : nat) (q : MemoryQubit) (w : World) : World :=
  mkWorld (if is_primary env epr then incr_etg_count (ll w) else ll w)
          (mkMemory (capacity (memory w))
                    (<[i := (set_state ENTANGLED0 q, Some r)]> (_storage (memory w)))
                    (S (_usage (memory w))))
          (eprs w)
          (events w ++ [QubitEntangledEvent (own env) neighbor (mq_addr q) (tc env)])
          (sent w).

End delivery_vocabulary.


Section activation_vocabulary.
Import Memory LinkLayer.

(** The test of [run_active_channel] on a channel qubit: allocated to the
    path id and [RAW]. *)
Definition is_target (path_id : option PathId) (q : MemoryQubit) : bool :=
  bool_decide (mq_path_id q = path_id) && bool_decide (mq_state q = RAW).

(** The slots for which [run_active_channel] starts a reservation. *)
Definition channel_targets (qchannel : ChannelName) (path_id : option PathId)
    (m : QuantumMemory) : list Slot :=
  List.filter (fun s : Slot => is_target path_id (s.1))
              (get_channel_qubits qchannel m).

(** The request sent for a slot, under the key drawn for its address. *)
Definition request_for (env : Env) (cchannel : CChannelName)
    (next_hop : NodeName) (key_for : nat -> string) (s : Slot) : Sent :=
  reserve_request env cchannel next_hop (s.1) (key_for (mq_addr (s.1))).

(** The loop body of [run_active_channel]. *)
Definition run_active_channel_body (env : Env) (key_for : nat -> string)
    (qchannel : ChannelName) (path_id : option PathId) (next_hop : NodeName)
    (s : Slot) : M World unit :=
  qb ← the_qubit (mq_addr (s.1));
  if negb (bool_decide (mq_path_id qb = path_id))
     || negb (bool_decide (mq_state qb = RAW))
  then ret tt
  else
    _ ← assert (bool_decide (mq_active qb = None));
    _ ← assert (bool_decide (s.2 = None));
    start_reservation env (key_for (mq_addr qb)) next_hop qchannel (mq_addr qb).

End activation_vocabulary.


Section activation_scenario.
Import Memory LinkLayer.

(** Node "A" with three free qubits: two on channel "qc", one on "qd". *)
Definition idle_world : World :=
  mkWorld (mkLL ∅ ∅ [] 0 0)
          (mkMemory 3 [(mkQubit 0 RAW (Some "qc") None None, None);
                       (mkQubit 1 RAW (Some "qd") None None, None);
                       (mkQubit 2 RAW (Some "qc") None None, None)] 0)
          ∅ [] [].

(** One reservation key per qubit address. *)
Definition demo_key_for (addr : nat) : string :=
  match addr with
  | 0%nat => "r0"
  | 1%nat => "r1"
  | _ => "r2"
  end.

End activation_scenario.


(** ** Further scenarios *)

(** Node "B" as in [fresh_mux], with no path installed on any channel. *)
Definition stray_mux : Mux.MuxState :=
  Mux.mkMux ∅ false
    (Memory.mkMemory 1
       [(mkQubit 0 ENTANGLED0 (Some "qAB") None (Some "k"), Some 0%nat)] 1)
    {[ 0%nat := epr_with None ]} demo_fib None [].

(** [swap_mux] with a third record, for the pair that a swap creates. *)
Definition merge_mux : Mux.MuxState :=
  Mux.with_eprs (insert 2%nat (epr_with None)) (swap_mux false).

(** A responder whose only qubit has just been released, with one queued
    request for the qubit's channel. *)
Definition queued_world : LinkLayer.World :=
  LinkLayer.mkWorld
    (LinkLayer.mkLL ∅ ∅ [LinkLayer.mkReq "k9" None "cc" "A" "qc"] 0 0)
    (Memory.mkMemory 1 [(mkQubit 0 RELEASE (Some "qc") None (Some "k1"), None)] 0)
    ∅ [] [].


Section handshake_vocabulary.
Import Memory LinkLayer.

(** The payload of a sent packet, as the receiving handler reads it. *)
Definition payload_of (p : Sent) : Payload :=
  Command (match cmd (packet p) with
           | RESERVE_QUBIT => "RESERVE_QUBIT"
           | RESERVE_QUBIT_OK => "RESERVE_QUBIT_OK"
           end)
          (msg_path_id (packet p)) (msg_key (packet p)).

(** The qubit at [addr] is in the given state under the given key. *)
Definition held (addr : nat) (state : QubitState) (key : string)
    (m : QuantumMemory) : Prop :=
  ∃ q, qubit_at addr m = Some q ∧ mq_state q = state ∧ mq_active q = Some key.

End handshake_vocabulary.

(** * Properties *)
(** ** Generic facts about outcomes and lists *)

Lemma bind_Done {S A B} (m : M S A) (k : A -> M S B) s a s' :
  m s = Done a s' -> (m ≫= k) s = k a s'.
Proof. intros H. unfold mbind, M_bind, bind. by rewrite H. Qed.

Lemma bind_Raised {S A B} (m : M S A) (k : A -> M S B) s e s' :
  m s = Raised e s' -> (m ≫= k) s = Raised e s'.
Proof. intros H. unfold mbind, M_bind, bind. by rewrite H. Qed.

Lemma list_remove_app_fresh x l :
  x ∉ l -> Mux.list_remove x (l ++ [x]) = Some l.
Proof.
  induction l as [|y l IH]; intros Hx; simpl.
  - by rewrite decide_True.
  - apply not_elem_of_cons in Hx as [Hxy Hl].
    rewrite decide_False by congruence.
    by rewrite IH.
Qed.

(** ** The path-candidate sets of merged pairs *)

Section intersection.
Import Mux.

Lemma intersect_tmp_path_ids_spec e0 e1 (a b : gset PathId) :
  tmp_path_ids e0 = Some a -> tmp_path_ids e1 = Some b ->
  (a ∩ b ≠ ∅ -> intersect_tmp_path_ids e0 e1 = inr (a ∩ b)) ∧
  (a ∩ b = ∅ -> ∃ msg, intersect_tmp_path_ids e0 e1 = inl (Exception msg)).
Proof.
  intros Ha Hb. unfold intersect_tmp_path_ids. rewrite Ha, Hb.
  split; intros H.
  - by rewrite decide_False.
  - rewrite decide_True by done. eauto.
Qed.

(** C1. When two half-pairs with candidate sets [a] and [b] are merged, both
    [swapping_succeeded] and [su_parallel_succeeded] leave the merged pair
    with the candidate set [a ∩ b] if that is non-empty, and raise an
    exception, storing nothing, if it is empty. *)
Theorem merged_candidates_are_intersection
    (h : EprStore) (x y z : EprRef) (ex ey ez : WernerStateEntanglement)
    (a b : gset PathId) :
  h !! x = Some ex -> h !! y = Some ey -> h !! z = Some ez ->
  tmp_path_ids ex = Some a -> tmp_path_ids ey = Some b ->
  (a ∩ b ≠ ∅ ->
     (∃ h', swapping_succeeded x y z h = Done tt h' ∧
            tmp_path_ids <$> h' !! z = Some (Some (a ∩ b))) ∧
     (∃ h', su_parallel_succeeded z x y h = Done tt h' ∧
            tmp_path_ids <$> h' !! z = Some (Some (a ∩ b)))) ∧
  (a ∩ b = ∅ ->
     (∃ msg, swapping_succeeded x y z h = Raised (Exception msg) h) ∧
     (∃ msg, su_parallel_succeeded z x y h = Raised (Exception msg) h)).
Proof.
  intros Hx Hy Hz Ha Hb.
  destruct (intersect_tmp_path_ids_spec ex ey a b Ha Hb) as [Hne Hem].
  assert (Hdx : deref x h = Done ex h) by (unfold deref; by rewrite Hx).
  assert (Hdy : deref y h = Done ey h) by (unfold deref; by rewrite Hy).
  assert (Hdz : deref z h = Done ez h) by (unfold deref; by rewrite Hz).
  split; intros H.
  - specialize (Hne H).
    split; eexists; (split; [|shelve]).
    + unfold swapping_succeeded.
      rewrite (bind_Done _ _ _ _ _ Hdx), (bind_Done _ _ _ _ _ Hdy),
              (bind_Done _ _ _ _ _ Hdz), Hne. reflexivity.
    + unfold su_parallel_succeeded.
      rewrite (bind_Done _ _ _ _ _ Hdx), (bind_Done _ _ _ _ _ Hdy),
              (bind_Done _ _ _ _ _ Hdz), Hne. reflexivity.
    Unshelve.
    all: by rewrite lookup_alter_eq, Hz.
  - destruct (Hem H) as [msg Hmsg].
    split; exists msg.
    + unfold swapping_succeeded.
      rewrite (bind_Done _ _ _ _ _ Hdx), (bind_Done _ _ _ _ _ Hdy),
              (bind_Done _ _ _ _ _ Hdz), Hmsg. reflexivity.
    + unfold su_parallel_succeeded.
      rewrite (bind_Done _ _ _ _ _ Hdx), (bind_Done _ _ _ _ _ Hdy),
              (bind_Done _ _ _ _ _ Hdz), Hmsg. reflexivity.
Qed.

End intersection.

Lemma merged_candidates_witness :
  ∃ h', Mux.swapping_succeeded 0%nat 1%nat 2%nat (store3 {[1; 2]} {[2; 3]}) = Done tt h' ∧
        tmp_path_ids <$> h' !! 2%nat = Some (Some ({[1; 2]} ∩ {[2; 3]})).
Proof.
  refine (proj1 (proj1 (merged_candidates_are_intersection
            (store3 {[1; 2]} {[2; 3]}) 0%nat 1%nat 2%nat
            (epr_with (Some {[1; 2]})) (epr_with (Some {[2; 3]})) (epr_with None)
            {[1; 2]} {[2; 3]} _ _ _ _ _) _)).
  - reflexivity.
  - reflexivity.
  - reflexivity.
  - reflexivity.
  - reflexivity.
  - intros H. assert (Hin : (2 : Z) ∈ ({[1; 2]} ∩ {[2; 3]} : gset PathId))
      by set_solver. rewrite H in Hin. set_solver.
Defined.

(** ** Conflicts of parallel swaps *)

(** With [coordinated_decisions] set, a path id outside the candidate set
    does not make [su_parallel_has_conflict] return [True]: the assertion
    fails. *)
Lemma su_parallel_conflict_coordinated_raises :
  (tmp_path_ids (epr_with (Some {[1]})) = Some {[1]}) ∧
  ((2 : Z) ∉ ({[1]} : gset PathId)) ∧
  (Mux.su_parallel_has_conflict true (epr_with (Some {[1]})) 2
    = inl AssertionError).
Proof. split; [done|]. split; [set_solver|]. reflexivity. Qed.

(** C2 (amended). For a merged pair with candidate set [s]:
    a path id in [s] is no conflict ([False]) in either mode; a path id
    outside [s] is a conflict that is reported by returning [True], without
    an exception, when [coordinated_decisions] is off; with
    [coordinated_decisions] on it is an assertion failure. *)
Theorem su_parallel_has_conflict_spec
    (coordinated : bool) (e : WernerStateEntanglement)
    (s : gset PathId) (su_path_id : PathId) :
  tmp_path_ids e = Some s ->
  (su_path_id ∈ s ->
     Mux.su_parallel_has_conflict coordinated e su_path_id = inr false) ∧
  (su_path_id ∉ s -> coordinated = false ->
     Mux.su_parallel_has_conflict coordinated e su_path_id = inr true) ∧
  (su_path_id ∉ s -> coordinated = true ->
     Mux.su_parallel_has_conflict coordinated e su_path_id = inl AssertionError) ∧
  (coordinated = false ->
     Mux.su_parallel_has_conflict coordinated e su_path_id
       = inr (bool_decide (su_path_id ∉ s))).
Proof.
  intros Hs. unfold Mux.su_parallel_has_conflict. rewrite Hs.
  repeat split.
  - intros Hin. by rewrite decide_False by (intros Hn; by apply Hn).
  - intros Hn ->. by rewrite decide_True.
  - intros Hn ->. by rewrite decide_True.
  - intros ->. destruct (decide (su_path_id ∉ s)) as [Hn|Hn]; simpl.
    + by rewrite bool_decide_eq_true_2.
    + by rewrite bool_decide_eq_false_2.
Qed.

Lemma su_parallel_has_conflict_witness :
  Mux.su_parallel_has_conflict false (epr_with (Some {[1]})) 2 = inr true.
Proof.
  refine (proj1 (proj2 (su_parallel_has_conflict_spec false
            (epr_with (Some {[1]})) {[1]} 2 _)) _ _).
  - reflexivity.
  - set_solver.
  - reflexivity.
Defined.

(** ** Installing and uninstalling a path on a channel *)

(** A path id that is already registered on the channel, ahead of another
    one: the round trip reorders the channel's list. *)
Lemma install_uninstall_reorders :
  install_then_uninstall 5 "qc" {[ "qc" := [5; 7] ]}
    = Done tt {[ "qc" := [7; 5] ]} ∧
  ({[ "qc" := [7; 5] ]} : Mux.PathsMap) ≠ {[ "qc" := [5; 7] ]}.
Proof.
  split.
  - unfold install_then_uninstall, Mux.install_path_neighbor,
      Mux.uninstall_path_neighbor, Mux.defaultdict_getitem,
      mbind, M_bind, bind.
    rewrite lookup_singleton_eq. simpl.
    rewrite lookup_insert_eq. simpl.
    by rewrite !insert_insert_eq, insert_singleton_eq.
  - intros H. apply (f_equal (lookup "qc")) in H.
    rewrite !lookup_singleton_eq in H. discriminate.
Qed.

(** C10 (amended). On a map in which the channel is not mapped to an empty
    list and on which the path id is not yet registered for the channel,
    install followed by uninstall of the same path on the same channel
    gives back the map as it was; and uninstalling the only path of a
    channel removes the channel's key. *)
Theorem install_uninstall_restores
    (m : Mux.PathsMap) (qchannel : ChannelName) (path_id : PathId) :
  m !! qchannel ≠ Some [] ->
  path_id ∉ default [] (m !! qchannel) ->
  install_then_uninstall path_id qchannel m = Done tt m ∧
  (∀ m1 : Mux.PathsMap, m1 !! qchannel = Some [path_id] ->
     Mux.uninstall_path_neighbor path_id qchannel m1
       = Done tt (delete qchannel m1) ∧
     delete qchannel m1 !! qchannel = None).
Proof.
  intros Hne Hfresh. split.
  - unfold install_then_uninstall, Mux.install_path_neighbor,
      Mux.uninstall_path_neighbor, Mux.defaultdict_getitem,
      mbind, M_bind, bind.
    destruct (m !! qchannel) as [l|] eqn:Hl; simpl in *.
    + rewrite lookup_insert_eq. simpl.
      rewrite list_remove_app_fresh by done.
      rewrite insert_insert_eq.
      destruct l as [|y l]; [done|].
      rewrite decide_False by done.
      by rewrite insert_id.
    + rewrite insert_insert_eq, lookup_insert_eq. simpl.
      rewrite decide_True by done. simpl.
      rewrite insert_insert_eq, delete_insert_eq.
      by rewrite delete_id.
  - intros m1 H1. split; [|apply lookup_delete_eq].
    unfold Mux.uninstall_path_neighbor, Mux.defaultdict_getitem.
    rewrite H1. simpl. rewrite decide_True by done. simpl.
    by rewrite delete_insert_eq.
Qed.

Lemma install_uninstall_restores_witness :
  install_then_uninstall 9 "qc" {[ "qc" := [5; 7] ]}
    = Done tt {[ "qc" := [5; 7] ]}.
Proof.
  refine (proj1 (install_uninstall_restores {[ "qc" := [5; 7] ]} "qc" 9 _ _)).
  - rewrite lookup_singleton_eq. discriminate.
  - rewrite lookup_singleton_eq. simpl.
    intros H. apply elem_of_cons in H as [H|H]; [discriminate|].
    apply elem_of_cons in H as [H|H]; [discriminate|].
    by apply elem_of_nil in H.
Defined.

(** ** Capacity of the quantum memory *)

Section memory_capacity.
Import Memory.

Lemma occupied_app st1 st2 : occupied (st1 ++ st2) = (occupied st1 + occupied st2)%nat.
Proof. unfold occupied. by rewrite List.filter_app, length_app. Qed.




Lemma write_matches_free path_id key s :
  write_matches path_id key s = true -> is_occupied s = false.
Proof.
  unfold write_matches, is_occupied. intros H.
  apply andb_true_iff in H as [H _]. apply andb_true_iff in H as [H _].
  apply bool_decide_eq_true in H. rewrite H.
  apply bool_decide_eq_false. by intros [? ?].
Qed.

Lemma write_success content path_id key m q m' :
  consistent m -> write content path_id key m = (Some q, m') ->
  consistent m' ∧ _usage m' = S (_usage m) ∧ capacity m' = capacity m.
Proof.
  intros [Hlen Huse]. unfold write.
  destruct (list_find _ _) as [[i [q0 d]]|] eqn:Hfind; [|discriminate].
  intros [= <- <-]. simpl. split; [|done].
  apply list_find_Some in Hfind as (Hi & Hm & _).
  pose proof (lookup_lt_Some _ _ _ Hi) as Hlt.
  split; simpl.
  - by rewrite length_insert.
  - rewrite Huse.
    rewrite insert_take_drop by done.
    rewrite <- (take_drop_middle _ _ _ Hi) at 1.
    rewrite !occupied_app.
    change (occupied ((q0, d) :: ?l)) with
      (length (List.filter is_occupied ((q0, d) :: l))).
    change (occupied ((q0, Some content) :: ?l)) with
      (length (List.filter is_occupied ((q0, Some content) :: l))).
    simpl. rewrite (write_matches_free _ _ _ Hm). simpl.
    change (List.filter (fun s : Slot => bool_decide (is_Some (s.2))))
      with (List.filter is_occupied).
    by rewrite Nat.add_succ_r.
Qed.



(** Unconstrained writes into an empty memory succeed as long as there is
    room. *)
Lemma write_all_unconstrained_succeeds (contents : list EprRef) : ∀ m,
  consistent m -> (_usage m + length contents ≤ capacity m)%nat ->
  is_Some (write_all (map (fun c => (c, None, None)) contents) m).
Proof.
  induction contents as [|c cs IH]; intros m Hc Hroom; simpl; [eauto|].
  destruct (write c None None m) as [[q|] m1] eqn:Hw.
  - destruct (write_success _ _ _ _ _ _ Hc Hw) as (Hc1 & Hu1 & Hcap1).
    apply IH; [done|]. simpl in Hroom. lia.
  - exfalso. unfold write in Hw.
    destruct (list_find _ _) as [[i [q0 d]]|] eqn:Hfind; [discriminate|].
    clear Hw. destruct Hc as [Hlen Huse]. simpl in Hroom.
    assert (∃ s, s ∈ _storage m ∧ is_occupied s = false) as (s & Hin & Hs).
    { assert (occupied (_storage m) < length (_storage m))%nat as Hlt by lia.
      clear -Hlt. induction (_storage m) as [|x st IHst]; simpl in *; [lia|].
      destruct (is_occupied x) eqn:Hx.
      - unfold occupied in Hlt; simpl in Hlt. rewrite Hx in Hlt. simpl in Hlt.
        destruct IHst as (s & Hin & Hs); [unfold occupied; lia|].
        exists s. split; [by right|done].
      - exists x. split; [by left|done]. }
    apply list_elem_of_lookup in Hin as [j Hj].
    apply (list_find_None (fun s => write_matches None None s = true)) in Hfind.
    rewrite Forall_forall in Hfind. apply (Hfind s).
    + by apply list_elem_of_lookup_2 in Hj.
    + unfold write_matches. unfold is_occupied in Hs.
      apply bool_decide_eq_false in Hs.
      destruct (s.2) eqn:Hd; [exfalso; apply Hs; eauto|].
      by rewrite bool_decide_eq_true_2.
Qed.




End memory_capacity.

(** ** Link layer *)

Section link_layer.
Import Memory LinkLayer.

Ltac run :=
  unfold mbind, M_bind, bind, mret, M_ret, ret, modify, get_state, assert,
    raise, or_raise, add_event, send; simpl.

Lemma qubit_at_update_eq addr f m :
  qubit_at addr (update_qubit addr f m) = f <$> qubit_at addr m.
Proof.
  unfold qubit_at, update_qubit; simpl.
  rewrite list_lookup_alter_eq.
  by rewrite <- !option_fmap_compose.
Qed.

Lemma qubit_at_update_ne addr addr' f m :
  addr ≠ addr' ->
  qubit_at addr' (update_qubit addr f m) = qubit_at addr' m.
Proof.
  intros Hne. unfold qubit_at, update_qubit; simpl.
  by rewrite list_lookup_alter_ne.
Qed.

(** C3. [generate_entanglement] never changes the link layer's tables,
    queue and counters, the memory or the packets sent. If the later of the
    two notification times is not within the external phase, no event is
    added; otherwise exactly two [LinkArchSuccessEvent]s are added, for this
    node at [t_notify_a] and for the next hop at [t_notify_b], both carrying
    the new entanglement record. *)
Theorem generate_entanglement_spec
    (env : Env) (k : Z) (name : string) (qchannel : ChannelName)
    (next_hop : NodeName) (addr : nat) (w : World) (qubit : MemoryQubit)
    (d_epr_creation d_notify_a d_notify_b : Time) :
  qubit_at addr (memory w) = Some qubit ->
  link_delays env qchannel k = (d_epr_creation, d_notify_a, d_notify_b) ->
  let t_notify_a := tc env + (d_epr_creation + d_notify_a) in
  let t_notify_b := tc env + (d_epr_creation + d_notify_b) in
  let epr := fresh (dom (eprs w)) in
  ∃ w', generate_entanglement env k name qchannel next_hop addr w = Done tt w' ∧
        ll w' = ll w ∧ memory w' = memory w ∧ sent w' = sent w ∧
        eprs w' = <[epr := new_epr env k name next_hop qubit
                                   (tc env + d_epr_creation)]> (eprs w) ∧
        (is_external env (Some (Z.max t_notify_a t_notify_b)) = false ->
           events w' = events w) ∧
        (is_external env (Some (Z.max t_notify_a t_notify_b)) = true ->
           events w' = events w ++
             [LinkArchSuccessEvent (own env) epr t_notify_a;
              LinkArchSuccessEvent next_hop epr t_notify_b]).
Proof.
  intros Hq Hd t_a t_b epr.
  unfold generate_entanglement, the_qubit. run. rewrite Hq, Hd. simpl.
  fold t_a t_b epr.
  destruct (is_external env (Some (Z.max t_a t_b))) eqn:Hext; simpl.
  - eexists. split; [reflexivity|]. simpl.
    repeat split; try done. intros _. by rewrite <- app_assoc.
  - eexists. split; [reflexivity|]. simpl. repeat split; done.
Qed.

Lemma generate_entanglement_witness :
  ∃ w', generate_entanglement demo_env_sync 4 "e" "qc" "B" 0 demo_world
          = Done tt w' ∧
        events w' = [LinkArchSuccessEvent "A" (fresh (dom (eprs demo_world))) 8;
                     LinkArchSuccessEvent "B" (fresh (dom (eprs demo_world))) 9].
Proof.
  destruct (generate_entanglement_spec demo_env_sync 4 "e" "qc" "B" 0
              demo_world demo_qubit 4 1 2 eq_refl eq_refl)
    as (w' & Hrun & _ & _ & _ & _ & _ & Hev).
  exists w'. split; [exact Hrun|]. apply Hev. reflexivity.
Defined.

(** A qubit released in synchronous mode on the initiator side: the handler
    returns normally, with the qubit reset and no reservation started. *)
Lemma release_in_sync_mode_returns :
  is_async demo_env_sync = false ∧
  active_channels (ll sync_world) !! ("qc", None) = Some ("B", 1%nat) ∧
  handle_decoh_rel demo_env_sync "k2" false 0 sync_world
    = Done true (reset_qubit false 0 sync_world).
Proof. split; [reflexivity|]. split; reflexivity. Qed.

(** C7 (amended). A qubit decohered or released on the initiator side (its
    channel and path id are in the active-channel table) is first put back
    to [RAW] with its key cleared. Then, in asynchronous mode, a reservation
    towards the recorded neighbour is started from that state; in
    synchronous mode a decoherence raises the fatal error, while a release
    returns normally and starts nothing. *)
Theorem handle_decoh_rel_initiator
    (env : Env) (key : string) (is_decoh : bool) (addr : nat) (w : World)
    (q : MemoryQubit) (qchannel : ChannelName) (next_hop : NodeName) (n : nat) :
  qubit_at addr (memory w) = Some q ->
  mq_qchannel q = Some qchannel ->
  active_channels (ll w) !! (qchannel, mq_path_id q) = Some (next_hop, n) ->
  let w0 := reset_qubit is_decoh addr w in
  qubit_at addr (memory w0) = Some (set_active None (set_state RAW q)) ∧
  (is_async env = true ->
     handle_decoh_rel env key is_decoh addr w
       = (start_reservation env key next_hop qchannel addr ≫= fun _ => mret true) w0 ∧
     (∀ cchannel,
        pending_init_reservation (ll w) !! key = None ->
        get_cchannel env next_hop = Some cchannel ->
        ∃ w', handle_decoh_rel env key is_decoh addr w = Done true w' ∧
              qubit_at addr (memory w')
                = Some (set_active (Some key) (set_state ACTIVE q)) ∧
              pending_init_reservation (ll w')
                = <[key := (qchannel, next_hop, addr)]>
                    (pending_init_reservation (ll w)) ∧
              sent w' = sent w ++
                [mkSent cchannel (mkMsg RESERVE_QUBIT (mq_path_id q) key)
                        (own env) next_hop next_hop])) ∧
  (is_async env = false -> is_decoh = true ->
     ∃ msg, handle_decoh_rel env key is_decoh addr w = Raised (Exception msg) w0) ∧
  (is_async env = false -> is_decoh = false ->
     handle_decoh_rel env key is_decoh addr w = Done true w0).
Proof.
  intros Hq Hch Hac w0.
  assert (Hq0 : qubit_at addr (memory w0)
                = Some (set_active None (set_state RAW q))).
  { unfold w0, reset_qubit. destruct is_decoh; simpl;
      by rewrite qubit_at_update_eq, Hq. }
  assert (Hll0 : active_channels (ll w0) = active_channels (ll w)
                 ∧ pending_init_reservation (ll w0) = pending_init_reservation (ll w)
                 ∧ sent w0 = sent w).
  { unfold w0, reset_qubit. by destruct is_decoh. }
  destruct Hll0 as (Hac0 & Hpe0 & Hse0).
  assert (Hrun : handle_decoh_rel env key is_decoh addr w =
    ((if is_async env
      then start_reservation env key next_hop qchannel addr
      else if is_decoh
           then raise (Exception "UNEXPECTED -> (t_ext + t_int) too short")
           else mret tt) ≫= fun _ => mret true) w0).
  { unfold w0, reset_qubit in *. unfold handle_decoh_rel, the_qubit. run.
    rewrite Hq.
    destruct is_decoh; simpl in *; rewrite Hq0; simpl; rewrite Hch; simpl;
      rewrite Hac; reflexivity. }
  clearbody w0.
  split; [exact Hq0|]. split; [|split].
  - intros Hasync. rewrite Hrun, Hasync. split; [reflexivity|].
    intros cchannel Hfresh Hcc.
    unfold start_reservation, the_qubit. run.
    rewrite Hpe0, Hfresh. rewrite bool_decide_eq_true_2 by done. simpl.
    rewrite !qubit_at_update_eq, Hq0. simpl. rewrite Hcc. simpl.
    eexists. split; [reflexivity|]. simpl.
    rewrite !qubit_at_update_eq, Hq0, Hpe0, Hse0. done.
  - intros Hasync ->. rewrite Hrun, Hasync. eexists. reflexivity.
  - intros Hasync ->. rewrite Hrun, Hasync. reflexivity.
Qed.

Lemma handle_decoh_rel_initiator_witness :
  handle_decoh_rel demo_env_sync "k2" false 0 sync_world
    = Done true (reset_qubit false 0 sync_world) ∧
  ∃ msg, handle_decoh_rel demo_env_sync "k2" true 0 sync_world
           = Raised (Exception msg) (reset_qubit true 0 sync_world).
Proof.
  split.
  - exact (proj2 (proj2 (proj2 (handle_decoh_rel_initiator demo_env_sync "k2"
             false 0 sync_world _ "qc" "B" 1 eq_refl eq_refl eq_refl)))
             eq_refl eq_refl).
  - exact (proj1 (proj2 (proj2 (handle_decoh_rel_initiator demo_env_sync "k2"
             true 0 sync_world _ "qc" "B" 1 eq_refl eq_refl eq_refl)))
             eq_refl eq_refl).
Defined.

Lemma head_filter_list_find (p : Slot -> bool) (l : list Slot) :
  head (List.filter p l) = snd <$> list_find (fun s => p s = true) l.
Proof.
  induction l as [|x l IH]; simpl; [done|].
  destruct (p x) eqn:Hx; simpl; [done|].
  rewrite IH. by destruct (list_find _ l) as [[? ?]|].
Qed.

Lemma list_alter_lookup_insert {A} (f : A -> A) (l : list A) i x :
  l !! i = Some x -> alter f i l = <[i := f x]> l.
Proof.
  intros Hi. apply list_eq. intros j.
  destruct (decide (i = j)) as [<-|Hne].
  - rewrite list_lookup_alter_eq, Hi.
    by rewrite list_lookup_insert_eq by (by eapply lookup_lt_Some).
  - by rewrite list_lookup_alter_ne, list_lookup_insert_ne.
Qed.

Lemma update_qubit_well_addressed addr f m :
  (∀ q, mq_addr (f q) = mq_addr q) ->
  well_addressed m -> well_addressed (update_qubit addr f m).
Proof.
  intros Hf Hwa i s. unfold update_qubit; simpl.
  destruct (decide (addr = i)) as [<-|Hne].
  - rewrite list_lookup_alter_eq.
    intros H. apply fmap_Some in H as (s0 & Hs & ->).
    simpl. rewrite Hf. by apply Hwa.
  - rewrite list_lookup_alter_ne by done. apply Hwa.
Qed.

Lemma try_accept_reservation_spec env req w :
  well_addressed (memory w) ->
  match first_reservable req (memory w) with
  | Some (i, (q, _)) =>
      try_accept_reservation env req w = Done true (accepted env req i q w)
  | None => try_accept_reservation env req w = Done false w
  end.
Proof.
  intros Hwa. unfold try_accept_reservation, first_reservable. run.
  unfold next, find. simpl.
  rewrite (head_filter_list_find (fun s => reservable req (s.1) (s.2))).
  destruct (list_find _ _) as [[i [q v]]|] eqn:Hfind; simpl; [|done].
  apply list_find_Some in Hfind as (Hi & Hp & _). simpl in Hp.
  assert (v = None) as ->.
  { unfold reservable in Hp. rewrite !andb_true_iff in Hp.
    destruct Hp as [[[Hv _] _] _]. by apply bool_decide_eq_true in Hv. }
  pose proof (Hwa _ _ Hi) as Haddr. simpl in Haddr. rewrite Haddr.
  unfold accepted, with_memory, update_qubit; simpl.
  rewrite list_alter_alter_eq.
  rewrite (list_alter_lookup_insert _ _ _ _ Hi). reflexivity.
Qed.

Lemma reset_qubit_well_addressed is_decoh addr w :
  well_addressed (memory w) -> well_addressed (memory (reset_qubit is_decoh addr w)).
Proof.
  intros Hwa. unfold reset_qubit.
  destruct is_decoh; simpl; by apply update_qubit_well_addressed.
Qed.

Lemma reset_qubit_fifo is_decoh addr w :
  fifo_reservation_req (ll (reset_qubit is_decoh addr w))
    = fifo_reservation_req (ll w) ∧
  sent (reset_qubit is_decoh addr w) = sent w.
Proof. unfold reset_qubit. by destruct is_decoh. Qed.

Lemma start_reservation_fifo env key next_hop qchannel addr w :
  fifo_reservation_req
    (ll (final_state (start_reservation env key next_hop qchannel addr w)))
  = fifo_reservation_req (ll w).
Proof.
  unfold start_reservation, the_qubit. run.
  destruct (bool_decide _); simpl; [|done].
  destruct (qubit_at _ _); simpl; [|done].
  by destruct (get_cchannel env next_hop).
Qed.

Lemma ll_with_memory f w : ll (with_memory f w) = ll w.
Proof. reflexivity. Qed.
Lemma ll_with_ll f w : ll (with_ll f w) = f (ll w).
Proof. reflexivity. Qed.
Lemma active_channels_incr_decoh l :
  active_channels (incr_decoh_count l) = active_channels l.
Proof. reflexivity. Qed.
Lemma fifo_incr_decoh l :
  fifo_reservation_req (incr_decoh_count l) = fifo_reservation_req l.
Proof. reflexivity. Qed.

(** What [handle_decoh_rel] comes to once the event's qubit is known. *)
Lemma handle_decoh_rel_unfold env key is_decoh addr w q :
  qubit_at addr (memory w) = Some q ->
  handle_decoh_rel env key is_decoh addr w =
  let w0 := reset_qubit is_decoh addr w in
  match mq_qchannel q with
  | None => Raised AssertionError w0
  | Some qchannel =>
    match active_channels (ll w) !! (qchannel, mq_path_id q) with
    | None =>
      match fifo_reservation_req (ll w) with
      | [] => Done true w0
      | req :: _ =>
        (ok ← try_accept_reservation env req;
         _ ← match ok with
             | true => modify (with_ll (set_fifo (drop 1)))
             | false => mret tt
             end;
         mret true) w0
      end
    | Some (next_hop, _) =>
      ((if is_async env
        then start_reservation env key next_hop qchannel addr
        else if is_decoh
             then raise (Exception "UNEXPECTED -> (t_ext + t_int) too short")
             else mret tt) ≫= fun _ => mret true) w0
    end
  end.
Proof.
  intros Hq.
  assert (Hq0 : qubit_at addr (memory (reset_qubit is_decoh addr w))
                = Some (set_active None (set_state RAW q))).
  { unfold reset_qubit. destruct is_decoh; simpl;
      by rewrite qubit_at_update_eq, Hq. }
  unfold reset_qubit in *. unfold handle_decoh_rel, the_qubit. run.
  rewrite Hq.
  destruct is_decoh; simpl in *; rewrite Hq0; simpl;
    (destruct (mq_qchannel q) as [qc|]; [|done]);
    rewrite ?ll_with_memory, ?ll_with_ll, ?active_channels_incr_decoh,
      ?fifo_incr_decoh;
    (destruct (active_channels (ll w) !! (qc, mq_path_id q)) as [[nh c]|];
      [done|]);
    (destruct (fifo_reservation_req (ll w)); [done|]);
    by destruct (try_accept_reservation _ _ _) as [[] ?|].
Qed.

Lemma start_reservation_spec env key next_hop qchannel addr w q :
  qubit_at addr (memory w) = Some q ->
  start_reservation env key next_hop qchannel addr w =
  match pending_init_reservation (ll w) !! key with
  | Some _ => Raised AssertionError w
  | None =>
    match get_cchannel env next_hop with
    | Some cchannel =>
        Done tt (reserving env key next_hop qchannel addr cchannel q w)
    | None =>
        Raised (Exception "No such classic channel")
          (with_ll (set_pending (<[key := (qchannel, next_hop, addr)]>))
             (with_memory
                (update_qubit addr
                   (fun q => set_active (Some key) (set_state ACTIVE q))) w))
    end
  end.
Proof.
  intros Hq. unfold start_reservation, the_qubit. run.
  destruct (pending_init_reservation (ll w) !! key) as [p|] eqn:Hp.
  - by rewrite bool_decide_eq_false_2.
  - rewrite bool_decide_eq_true_2 by done. simpl.
    rewrite qubit_at_update_eq, Hq. simpl.
    by destruct (get_cchannel env next_hop).
Qed.

(** The memory after the first steps of [handle_decoh_rel]. *)
Lemma reset_qubit_memory is_decoh addr w :
  memory (reset_qubit is_decoh addr w)
    = update_qubit addr (fun q => set_active None (set_state RAW q)) (memory w).
Proof. unfold reset_qubit. by destruct is_decoh. Qed.

(** A release or decoherence at the initiator of the qubit's channel and
    path does not look at the queue: whether the handler returns or raises,
    the queue is as before, no slot other than the qubit's has changed, the
    qubit is [RAW] or [ACTIVE], and nothing but a [RESERVE_QUBIT] request
    has been sent. *)
Lemma release_at_initiator_keeps_queue env key is_decoh addr w q qchannel
    next_hop n :
  qubit_at addr (memory w) = Some q ->
  mq_qchannel q = Some qchannel ->
  active_channels (ll w) !! (qchannel, mq_path_id q) = Some (next_hop, n) ->
  let w' := final_state (handle_decoh_rel env key is_decoh addr w) in
  fifo_reservation_req (ll w') = fifo_reservation_req (ll w) ∧
  (∀ j, j ≠ addr -> _storage (memory w') !! j = _storage (memory w) !! j) ∧
  (∃ q', qubit_at addr (memory w') = Some q' ∧
         (mq_state q' = RAW ∨ mq_state q' = ACTIVE)) ∧
  (∀ p, p ∈ sent w' -> p ∈ sent w ∨ cmd (packet p) = RESERVE_QUBIT).
Proof.
  intros Hq Hch Hac w'. unfold w'. clear w'.
  rewrite (handle_decoh_rel_unfold _ _ _ _ _ _ Hq). simpl. rewrite Hch, Hac.
  destruct (reset_qubit_fifo is_decoh addr w) as [Hfifo0 Hsent0].
  pose proof (reset_qubit_memory is_decoh addr w) as Hmem0.
  assert (Hq0 : qubit_at addr (memory (reset_qubit is_decoh addr w))
                = Some (set_active None (set_state RAW q)))
    by (by rewrite Hmem0, qubit_at_update_eq, Hq).
  assert (Hother0 : ∀ j, j ≠ addr ->
            _storage (memory (reset_qubit is_decoh addr w)) !! j
              = _storage (memory w) !! j).
  { intros j Hj. rewrite Hmem0. unfold update_qubit; simpl.
    by rewrite list_lookup_alter_ne. }
  set (w0 := reset_qubit is_decoh addr w) in *. clearbody w0.
  assert (Hkeep : fifo_reservation_req (ll w0) = fifo_reservation_req (ll w) ∧
            (∀ j, j ≠ addr -> _storage (memory w0) !! j = _storage (memory w) !! j) ∧
            (∃ q', qubit_at addr (memory w0) = Some q' ∧
                   (mq_state q' = RAW ∨ mq_state q' = ACTIVE)) ∧
            (∀ p, p ∈ sent w0 -> p ∈ sent w ∨ cmd (packet p) = RESERVE_QUBIT)).
  { split; [done|]. split; [done|]. split; [eexists; split; [exact Hq0|by left]|].
    intros p Hp. left. by rewrite <- Hsent0. }
  assert (Hstarted : ∀ mem', mem' = update_qubit addr
              (fun q => set_active (Some key) (set_state ACTIVE q)) (memory w0) ->
            (∀ j, j ≠ addr -> _storage mem' !! j = _storage (memory w) !! j) ∧
            (∃ q', qubit_at addr mem' = Some q' ∧
                   (mq_state q' = RAW ∨ mq_state q' = ACTIVE))).
  { intros mem' ->. split.
    - intros j Hj. unfold update_qubit; simpl.
      rewrite list_lookup_alter_ne by done. by apply Hother0.
    - eexists. split; [by rewrite qubit_at_update_eq, Hq0|by right]. }
  unfold mbind, M_bind, bind, mret, M_ret, ret, raise.
  destruct (is_async env).
  - rewrite (start_reservation_spec _ _ _ _ _ _ _ Hq0).
    destruct (pending_init_reservation (ll w0) !! key); [exact Hkeep|].
    destruct (get_cchannel env next_hop) as [cchannel|]; simpl.
    + destruct (Hstarted _ eq_refl) as [Hother Hstate].
      split; [done|]. split; [exact Hother|]. split; [exact Hstate|].
      intros p Hp. rewrite Hsent0 in Hp.
      apply elem_of_app in Hp as [Hp|Hp]; [by left|].
      apply list_elem_of_singleton in Hp as ->. by right.
    + destruct (Hstarted _ eq_refl) as [Hother Hstate].
      split; [done|]. split; [exact Hother|]. split; [exact Hstate|].
      intros p Hp. left. by rewrite <- Hsent0.
  - destruct is_decoh; exact Hkeep.
Qed.

(** C6. A [RESERVE_QUBIT] request whose peer and quantum channel resolve:
    if the memory has a slot that is unoccupied, without active reservation,
    assigned to the request's channel and allocated to its path id, the
    first such slot becomes [RESERVED] under the request's key and the
    reply [RESERVE_QUBIT_OK] with the same path id and key goes back;
    otherwise the request is appended to the queue. A later release or
    decoherence leaves the queue as it is or removes exactly its oldest
    request, and removes it only together with the reply that accepts it.
    More precisely, for a release or decoherence of a qubit with a channel:
    where the node is not the initiator of that channel and path, the
    handler returns, and with an empty queue it has only reset the qubit;
    with a queue it retries the oldest request and no other: if that
    request can reserve a slot of the memory as it is after the reset, the
    first such slot is reserved under its key, its reply is sent and it
    leaves the queue; if it cannot, nothing but the reset has happened and
    the queue is as before. Where the node is the initiator, no queued
    request is retried: the queue and all other slots are as before, the
    qubit is [RAW] or [ACTIVE], and no reply has been sent. *)
Theorem reservation_request_handling (env : Env) (w : World) :
  well_addressed (memory w) ->
  (∀ msg cchannel from_node qchannel,
     find_peer env cchannel = Some from_node ->
     get_qchannel env from_node = Some qchannel ->
     let req := mkReq (msg_key msg) (msg_path_id msg) cchannel from_node qchannel in
     match first_reservable req (memory w) with
     | Some (i, (q, v)) =>
         v = None ∧ truthy (mq_active q) = false ∧
         mq_qchannel q = Some qchannel ∧ mq_path_id q = msg_path_id msg ∧
         (∀ j s, _storage (memory w) !! j = Some s -> (j < i)%nat ->
                 reservable req (s.1) (s.2) = false) ∧
         handle_reserve_req env msg cchannel w
           = Done tt (accepted env req i q w) ∧
         qubit_at i (memory (accepted env req i q w))
           = Some (mkQubit (mq_addr q) RESERVED (mq_qchannel q) (mq_path_id q)
                           (Some (msg_key msg)))
     | None =>
         handle_reserve_req env msg cchannel w
           = Done tt (with_ll (set_fifo (fun f => f ++ [req])) w)
     end) ∧
  (∀ key is_decoh addr,
     let w' := final_state (handle_decoh_rel env key is_decoh addr w) in
     fifo_reservation_req (ll w') = fifo_reservation_req (ll w) ∨
     ∃ req rest,
       fifo_reservation_req (ll w) = req :: rest ∧
       fifo_reservation_req (ll w') = rest ∧
       sent w' = sent w ++ [reserve_ok_reply env req]) ∧
  (∀ key is_decoh addr q qchannel,
     qubit_at addr (memory w) = Some q ->
     mq_qchannel q = Some qchannel ->
     let w0 := reset_qubit is_decoh addr w in
     let outcome := handle_decoh_rel env key is_decoh addr w in
     match active_channels (ll w) !! (qchannel, mq_path_id q) with
     | None =>
       match fifo_reservation_req (ll w) with
       | [] => outcome = Done true w0
       | req :: rest =>
         match first_reservable req (memory w0) with
         | Some (i, (q1, _)) =>
             outcome = Done true (with_ll (set_fifo (drop 1))
                                    (accepted env req i q1 w0)) ∧
             fifo_reservation_req (ll (final_state outcome)) = rest ∧
             sent (final_state outcome) = sent w ++ [reserve_ok_reply env req] ∧
             _storage (memory (final_state outcome))
               = <[i := (reserved_for req q1, None)]> (_storage (memory w0))
         | None => outcome = Done true w0
         end
       end
     | Some _ =>
       let w' := final_state outcome in
       fifo_reservation_req (ll w') = fifo_reservation_req (ll w) ∧
       (∀ j, j ≠ addr -> _storage (memory w') !! j = _storage (memory w) !! j) ∧
       (∃ q', qubit_at addr (memory w') = Some q' ∧
              (mq_state q' = RAW ∨ mq_state q' = ACTIVE)) ∧
       (∀ p, p ∈ sent w' -> p ∈ sent w ∨ cmd (packet p) = RESERVE_QUBIT)
     end).
Proof.
  intros Hwa. split; [|split].
  - intros msg cchannel from_node qchannel Hpeer Hqc req.
    pose proof (try_accept_reservation_spec env req w Hwa) as Hacc.
    unfold handle_reserve_req. run. rewrite Hpeer. simpl. rewrite Hqc. simpl.
    fold req.
    destruct (first_reservable req (memory w)) as [[i [q v]]|] eqn:Hfind.
    + rewrite Hacc. unfold first_reservable in Hfind.
      apply list_find_Some in Hfind as (Hi & Hp & Hmin). simpl in Hp.
      unfold reservable in Hp. rewrite !andb_true_iff in Hp.
      destruct Hp as [[[Hv Ha] Hc] Hpid].
      apply bool_decide_eq_true in Hv, Hc, Hpid.
      apply negb_true_iff in Ha.
      repeat split; try done.
      * intros j s Hj Hlt. specialize (Hmin j s Hj Hlt).
        by apply not_true_is_false in Hmin.
      * unfold accepted, qubit_at; simpl.
        rewrite list_lookup_insert_eq by (by eapply lookup_lt_Some).
        reflexivity.
    + by rewrite Hacc.
  - intros key is_decoh addr w'. unfold w'. clear w'.
    destruct (qubit_at addr (memory w)) as [q|] eqn:Hq.
    2:{ left. unfold handle_decoh_rel, the_qubit. run. by rewrite Hq. }
    rewrite (handle_decoh_rel_unfold _ _ _ _ _ _ Hq). simpl.
    destruct (reset_qubit_fifo is_decoh addr w) as [Hfifo0 Hsent0].
    pose proof (reset_qubit_well_addressed is_decoh addr w Hwa) as Hwa0.
    destruct (mq_qchannel q) as [qc|]; [|by left].
    destruct (active_channels (ll w) !! (qc, mq_path_id q)) as [[nh c]|].
    + left. run.
      destruct (is_async env).
      * pose proof (start_reservation_fifo env key nh qc addr
                      (reset_qubit is_decoh addr w)) as Hs.
        destruct (start_reservation _ _ _ _ _ _); simpl in *; congruence.
      * by destruct is_decoh.
    + destruct (fifo_reservation_req (ll w)) as [|req rest] eqn:Hfifo;
        [by left|].
      pose proof (try_accept_reservation_spec env req _ Hwa0) as Hacc.
      run.
      destruct (first_reservable req _) as [[i [q1 v]]|].
      * right. exists req, rest. rewrite Hacc. simpl.
        clear Hacc Hwa0 Hfifo0 Hsent0.
        destruct is_decoh; simpl; by rewrite Hfifo.
      * left. rewrite Hacc. simpl.
        clear Hacc Hwa0 Hfifo0 Hsent0.
        destruct is_decoh; simpl; by rewrite Hfifo.
  - intros key is_decoh addr q qchannel Hq Hch w0 outcome.
    destruct (active_channels (ll w) !! (qchannel, mq_path_id q))
      as [[next_hop n]|] eqn:Hac.
    { by apply (release_at_initiator_keeps_queue env key is_decoh addr w q
                  qchannel next_hop n). }
    unfold outcome. clear outcome.
    rewrite (handle_decoh_rel_unfold _ _ _ _ _ _ Hq). cbv zeta.
    rewrite Hch, Hac.
    destruct (reset_qubit_fifo is_decoh addr w) as [Hfifo0 Hsent0].
    pose proof (reset_qubit_well_addressed is_decoh addr w Hwa) as Hwa0.
    change (reset_qubit is_decoh addr w) with w0 in Hfifo0, Hsent0, Hwa0 |- *.
    clearbody w0.
    destruct (fifo_reservation_req (ll w)) as [|req rest] eqn:Hfifo; [done|].
    pose proof (try_accept_reservation_spec env req w0 Hwa0) as Hacc.
    unfold mbind, M_bind, bind, mret, M_ret, ret, modify.
    destruct (first_reservable req (memory w0)) as [[i [q1 v]]|].
    + rewrite Hacc. simpl. split; [done|].
      split; [by rewrite Hfifo0|]. split; [by rewrite Hsent0|done].
    + by rewrite Hacc.
Qed.

Lemma responder_world_well_addressed : well_addressed (memory responder_world).
Proof.
  intros i s. destruct i as [|[|i]]; simpl; intros H; by simplify_eq.
Qed.

Lemma reservation_request_handling_witness :
  handle_reserve_req async_env (mkMsg RESERVE_QUBIT None "k9") "cc" responder_world
    = Done tt (accepted async_env (mkReq "k9" None "cc" "B" "qc") 1
                 (mkQubit 1 RAW (Some "qc") None None) responder_world) ∧
  handle_decoh_rel env_B "k1" false 0 queued_world
    = Done true
        (with_ll (set_fifo (drop 1))
           (accepted env_B (mkReq "k9" None "cc" "A" "qc") 0
              (mkQubit 0 RAW (Some "qc") None None)
              (reset_qubit false 0 queued_world))).
Proof.
  split.
  - pose proof (proj1 (reservation_request_handling async_env responder_world
                         responder_world_well_addressed)
                  (mkMsg RESERVE_QUBIT None "k9") "cc" "B" "qc" eq_refl eq_refl)
      as H.
    apply H.
  - assert (Hwa : well_addressed (memory queued_world)).
    { intros i s. destruct i as [|i]; simpl; intros H; by simplify_eq. }
    pose proof (proj2 (proj2 (reservation_request_handling env_B queued_world Hwa))
                  "k1" false 0%nat (mkQubit 0 RELEASE (Some "qc") None (Some "k1"))
                  "qc" eq_refl eq_refl) as H.
    cbv zeta in H.
    change (active_channels (ll queued_world) !! ("qc", None : option PathId))
      with (@None (NodeName * nat)) in H.
    change (fifo_reservation_req (ll queued_world))
      with [mkReq "k9" None "cc" "A" "qc"] in H.
    change (first_reservable (mkReq "k9" None "cc" "A" "qc")
              (memory (reset_qubit false 0 queued_world)))
      with (Some (0%nat, (mkQubit 0 RAW (Some "qc") None None,
                          None : option EprRef))) in H.
    exact (proj1 H).
Defined.

Lemma handle_success_entangle_count env w w' r epr :
  eprs w !! r = Some epr ->
  handle_success_entangle env r w = Done tt w' ->
  etg_count (ll w')
    = (etg_count (ll w) + if is_primary env epr then 1 else 0)%nat.
Proof.
  intros Hr Hrun.
  unfold handle_success_entangle, the_epr, memory_write, write, is_primary in *.
  unfold mbind, M_bind, bind, mret, M_ret, ret, modify, get_state, assert,
    raise, or_raise, add_event in Hrun; simpl in Hrun.
  destruct (is_external env None); [|discriminate]. simpl in Hrun.
  rewrite Hr in Hrun.
  destruct (decide (epr_src epr = Some (own env))) as [Hsrc|Hsrc].
  - rewrite bool_decide_eq_true_2 by done.
    destruct (epr_dst epr); [|discriminate]. simpl in Hrun.
    destruct (match epr_decoherence_time epr with
              | Some d => bool_decide (tc env < d) | None => true end);
      [|discriminate]. simpl in Hrun.
    destruct (list_find _ _) as [[i [q v]]|]; [|discriminate].
    simpl in Hrun. injection Hrun as <-. simpl. lia.
  - rewrite bool_decide_eq_false_2 by done.
    destruct (epr_src epr); [|discriminate]. simpl in Hrun.
    destruct (match epr_decoherence_time epr with
              | Some d => bool_decide (tc env < d) | None => true end);
      [|discriminate]. simpl in Hrun.
    destruct (list_find _ _) as [[i [q v]]|]; [|discriminate].
    simpl in Hrun. injection Hrun as <-. simpl. lia.
Qed.

(** The secondary endpoint "B" handles its notification at time 3, while
    the notification of the primary endpoint "A" is still queued for time
    5: the first endpoint to handle the pair does not count it. *)
Lemma first_delivery_at_secondary_not_counted :
  ∃ w', handle_success_entangle env_B 0%nat world_B = Done tt w' ∧
        events w' = [LinkArchSuccessEvent "A" 0%nat 5; QubitEntangledEvent "B" "A" 0 3] ∧
        qubit_at 0 (memory w')
          = Some (mkQubit 0 ENTANGLED0 (Some "qc") None (Some "k1")) ∧
        etg_count (ll w') = etg_count (ll world_B).
Proof. eexists. split; [vm_compute; reflexivity|]. by vm_compute. Qed.

(** C8 (amended). Delivery of a [LinkArchSuccessEvent] in the external phase,
    for a record that has not decohered: the record is written into the
    first free slot whose reservation key is the record's key, and if there
    is none the handler raises; the slot's qubit becomes [ENTANGLED0]; a
    [QubitEntangledEvent] for this node and its neighbour is added at the
    current time; and the counter [etg_count] grows by one at the endpoint
    that is the record's source (the initiator) and stays as it is at the
    other endpoint, in whichever order the two endpoints are notified, so
    that the two counters together count the pair once. *)
Theorem handle_success_entangle_spec
    (env : Env) (w : World) (r : EprRef) (epr : WernerStateEntanglement)
    (neighbor : NodeName) :
  well_addressed (memory w) ->
  eprs w !! r = Some epr ->
  is_external env None = true ->
  neighbor_of env epr = Some neighbor ->
  (∀ d, epr_decoherence_time epr = Some d -> tc env < d) ->
  match first_writable (epr_key epr) (memory w) with
  | Some (i, (q, v)) =>
      v = None ∧
      (∀ k, epr_key epr = Some k -> mq_active q = Some k) ∧
      ∃ w', handle_success_entangle env r w = Done tt w' ∧
            _storage (memory w')
              = <[i := (set_state ENTANGLED0 q, Some r)]> (_storage (memory w)) ∧
            _usage (memory w') = S (_usage (memory w)) ∧
            events w' = events w ++
              [QubitEntangledEvent (own env) neighbor (mq_addr q) (tc env)] ∧
            etg_count (ll w')
              = (etg_count (ll w) + if is_primary env epr then 1 else 0)%nat
  | None =>
      ∃ msg w', handle_success_entangle env r w = Raised (Exception msg) w'
  end ∧
  (∀ env2 w2 w' w2',
     epr_src epr = Some (own env) -> own env2 ≠ own env ->
     eprs w2 !! r = Some epr ->
     handle_success_entangle env r w = Done tt w' ->
     handle_success_entangle env2 r w2 = Done tt w2' ->
     etg_count (ll w') = S (etg_count (ll w)) ∧
     etg_count (ll w2') = etg_count (ll w2)).
Proof.
  intros Hwa Hr Hext Hnb Hdec. split.
  2:{ intros env2 w2 w' w2' Hsrc Hother Hr2 Hrun Hrun2.
      rewrite (handle_success_entangle_count _ _ _ _ _ Hr Hrun).
      rewrite (handle_success_entangle_count _ _ _ _ _ Hr2 Hrun2).
      unfold is_primary. rewrite bool_decide_eq_true_2 by done.
      rewrite bool_decide_eq_false_2 by congruence. lia. }
  assert (Hassert : (match epr_decoherence_time epr with
                     | Some d => bool_decide (tc env < d)
                     | None => true
                     end) = true).
  { destruct (epr_decoherence_time epr) as [d|]; [|done].
    apply bool_decide_eq_true. by apply Hdec. }
  unfold handle_success_entangle, the_epr, memory_write, write, first_writable,
    neighbor_of, is_primary in *.
  run. rewrite Hext. simpl. rewrite Hr.
  destruct (decide (epr_src epr = Some (own env))) as [Hsrc|Hsrc];
    rewrite Hnb; simpl; rewrite Hassert; simpl;
    destruct (list_find _ _) as [[i [q v]]|] eqn:Hfind; simpl;
    try (by eauto).
  all: apply list_find_Some in Hfind as (Hi & Hm & _).
  all: unfold write_matches in Hm; simpl in Hm; rewrite !andb_true_iff in Hm.
  all: destruct Hm as [[Hv _] Hk]; apply bool_decide_eq_true in Hv; subst v.
  all: (split; [done|]); split.
  all: try (intros k Hkey; rewrite Hkey in Hk;
            apply bool_decide_eq_true in Hk; by rewrite Hk).
  all: eexists; split; [reflexivity|]; simpl.
  all: pose proof (Hwa _ _ Hi) as Haddr; simpl in Haddr.
  all: assert (Hins : alter (fun s : Slot => (set_state ENTANGLED0 (s.1), s.2))
                        (mq_addr q) (<[i:=(q, Some r)]> (_storage (memory w)))
                      = <[i:=(set_state ENTANGLED0 q, Some r)]> (_storage (memory w))).
  all: try (rewrite Haddr;
            rewrite (list_alter_lookup_insert _ _ i (q, Some r))
              by (rewrite list_lookup_insert_eq; [done|by eapply lookup_lt_Some]);
            by rewrite list_insert_insert_eq).
  - rewrite bool_decide_eq_true_2 by done. repeat split; try done; lia.
  - rewrite bool_decide_eq_false_2 by congruence. repeat split; try done; lia.
Qed.

Lemma world_A_well_addressed : well_addressed (memory world_A).
Proof. intros i s. destruct i as [|i]; simpl; intros H; by simplify_eq. Qed.

Lemma handle_success_entangle_witness :
  ∃ w', handle_success_entangle async_env 0%nat world_A = Done tt w' ∧
        events w' = [QubitEntangledEvent "A" "B" 0 3] ∧
        etg_count (ll w') = 1%nat.
Proof.
  pose proof (handle_success_entangle_spec async_env world_A 0%nat pair_epr "B"
                world_A_well_addressed eq_refl eq_refl eq_refl
                (fun d (H : None = Some d) => match H with end)) as H.
  simpl in H. destruct H as ((_ & _ & w' & Hrun & _ & _ & Hev & Hcnt) & _).
  exists w'. split; [exact Hrun|]. split; [exact Hev|exact Hcnt].
Defined.

End link_layer.

(** ** Promotion of a freshly entangled qubit *)

Section promotion.
Import Mux.

Ltac run :=
  unfold mbind, M_bind, bind, mret, M_ret, ret, modify, get_state, assert,
    raise, lift_sum, fw_call; simpl.

Lemma calc_rank_diff_spec neighbor path_id s :
  match rank_diff_of (fib s) neighbor path_id with
  | Some d => calc_rank_diff neighbor path_id s = Done d s
  | None => ∃ e, calc_rank_diff neighbor path_id s = Raised e s
  end.
Proof.
  unfold rank_diff_of, calc_rank_diff. run.
  destruct (fib_get (fib s) path_id) as [e|fe]; simpl; [eauto|].
  destruct (find_index_and_swap_rank fe neighbor) as [e|ir]; simpl; eauto.
Qed.

Lemma for_each_calc_rank_diff neighbor path_ids : ∀ s,
  match mapM (rank_diff_of (fib s) neighbor) path_ids with
  | Some ds => for_each (calc_rank_diff neighbor) path_ids s = Done ds s
  | None => ∃ e, for_each (calc_rank_diff neighbor) path_ids s = Raised e s
  end.
Proof.
  induction path_ids as [|p ps IH]; intros s; simpl; [done|].
  pose proof (calc_rank_diff_spec neighbor p s) as Hp.
  specialize (IH s). run.
  destruct (rank_diff_of (fib s) neighbor p) as [d|]; simpl.
  - rewrite Hp.
    destruct (mapM _ ps) as [ds|]; simpl.
    + by rewrite IH.
    + destruct IH as [e ->]. eauto.
  - destruct Hp as [e ->]. eauto.
Qed.

Lemma foldr_min_max_bounds x l :
  foldr Z.min x l ≤ x ∧ x ≤ foldr Z.max x l ∧
  Forall (fun y => foldr Z.min x l ≤ y ∧ y ≤ foldr Z.max x l) l.
Proof.
  induction l as [|y l (Hlo & Hhi & Hall)]; simpl; [repeat split; (lia || done)|].
  repeat split; [lia..|].
  constructor; [lia|].
  eapply Forall_impl; [exact Hall|]. simpl. intros z [? ?]. lia.
Qed.

Lemma foldr_min_max_eq x l :
  foldr Z.min x l = foldr Z.max x l ↔ Forall (fun y => y = x) l.
Proof.
  split.
  - intros Heq. destruct (foldr_min_max_bounds x l) as (Hlo & Hhi & Hall).
    eapply Forall_impl; [exact Hall|]. simpl. intros z [? ?]. lia.
  - induction 1 as [|y l -> _ IH]; simpl; [done|]. rewrite IH.
    destruct (foldr_min_max_bounds x l) as (Hlo & Hhi & _). lia.
Qed.

(** [_can_enter_purif] once the rank differences are known. *)
Lemma can_enter_purif_spec epr neighbor s e ids ds :
  eprs s !! epr = Some e -> tmp_path_ids e = Some ids ->
  mapM (rank_diff_of (fib s) neighbor) (elements ids) = Some ds ->
  match ds with
  | [] => _can_enter_purif epr neighbor s = Raised ValueError s
  | d :: ds' =>
      (Forall (fun y => y = d) ds' ->
         _can_enter_purif epr neighbor s = Done (bool_decide (d ≤ 0)) s) ∧
      (¬ Forall (fun y => y = d) ds' ->
         _can_enter_purif epr neighbor s = Raised AssertionError s)
  end.
Proof.
  intros He Hids Hds.
  pose proof (for_each_calc_rank_diff neighbor (elements ids) s) as Hfor.
  rewrite Hds in Hfor.
  unfold _can_enter_purif, the_epr. run. rewrite He, Hids, Hfor.
  destruct ds as [|d ds']; simpl; [done|].
  split; intros Hall.
  - apply foldr_min_max_eq in Hall.
    by rewrite bool_decide_eq_true_2.
  - rewrite bool_decide_eq_false_2; [done|].
    intros Heq. by apply Hall, foldr_min_max_eq.
Qed.

Lemma can_enter_purif_undefined epr neighbor s e ids :
  eprs s !! epr = Some e -> tmp_path_ids e = Some ids ->
  mapM (rank_diff_of (fib s) neighbor) (elements ids) = None ->
  ∃ err, _can_enter_purif epr neighbor s = Raised err s.
Proof.
  intros He Hids Hds.
  pose proof (for_each_calc_rank_diff neighbor (elements ids) s) as Hfor.
  rewrite Hds in Hfor. destruct Hfor as [err Hfor].
  unfold _can_enter_purif, the_epr. run. rewrite He, Hids, Hfor. eauto.
Qed.

Lemma list_to_set_nonempty (l : list PathId) :
  l ≠ [] -> (list_to_set l : gset PathId) ≠ ∅.
Proof.
  destruct l as [|x l]; [done|]. intros _ Hempty.
  assert (x ∈ (list_to_set (x :: l) : gset PathId)) as Hin
    by (apply elem_of_list_to_set; left).
  rewrite Hempty in Hin. by apply not_elem_of_empty in Hin.
Qed.

Lemma qubit_is_entangled_prefix s addr neighbor q ch l epr e :
  Memory._storage (memory s) !! addr = Some (q, Some epr) ->
  mq_path_id q = None -> mq_qchannel q = Some ch ->
  qchannel_paths_map s !! ch = Some l -> l ≠ [] ->
  eprs s !! epr = Some e ->
  tmp_consistent (coordinated_decisions s) l e ->
  qubit_is_entangled addr neighbor s
    = (_can_enter_purif epr neighbor ≫= promote_if addr)
        (with_candidates l epr e s).
Proof.
  intros Hslot Hpath Hch Hl Hne He Hcons.
  unfold qubit_is_entangled, _qubit_is_entangled_0, the_qubit, the_epr,
    Memory.qubit_at, Memory.get, with_candidates, tmp_consistent in *.
  run. rewrite Hslot. simpl. rewrite Hpath. simpl. rewrite Hch. simpl.
  rewrite Hl. simpl.
  rewrite bool_decide_eq_false_2 by done. simpl.
  rewrite decide_False by (by apply list_to_set_nonempty).
  simpl. rewrite Hslot. simpl. rewrite He.
  destruct (tmp_path_ids e) as [ids|]; simpl.
  - destruct (coordinated_decisions s);
      rewrite bool_decide_eq_true_2 by done; simpl;
      by destruct (_can_enter_purif _ _ _) as [[] ?|].
  - by destruct (_can_enter_purif _ _ _) as [[] ?|].
Qed.

Lemma with_candidates_facts l epr e s :
  eprs s !! epr = Some e ->
  let s1 := with_candidates l epr e s in
  (∃ e1, eprs s1 !! epr = Some e1 ∧
         tmp_path_ids e1 = Some (candidate_ids l e)) ∧
  fib s1 = fib s ∧ memory s1 = memory s ∧ fw_calls s1 = fw_calls s.
Proof.
  intros He. unfold with_candidates, candidate_ids.
  destruct (tmp_path_ids e) as [ids|] eqn:Hids; simpl.
  - repeat split; try done. by exists e.
  - repeat split; try done.
    exists (set_tmp_path_ids (Some (list_to_set l)) e).
    by rewrite lookup_alter_eq, He.
Qed.

Lemma mapM_constant {A B} (f : A -> option B) (l : list A) (d : B) :
  (∀ x, x ∈ l -> f x = Some d) -> mapM f l = Some (replicate (length l) d).
Proof.
  intros Hall. apply mapM_Some_2.
  induction l as [|x l IH]; simpl; constructor.
  - apply Hall. by left.
  - apply IH. intros y Hy. apply Hall. by right.
Qed.

Lemma Forall2_elem_of_l {A B} (R : A -> B -> Prop) l k x :
  Forall2 R l k -> x ∈ l -> ∃ y, y ∈ k ∧ R x y.
Proof.
  intros HF Hx. apply list_elem_of_lookup in Hx as [i Hi].
  destruct (Forall2_lookup_l _ _ _ _ _ HF Hi) as (y & Hy & HR).
  exists y. split; [|done]. by apply list_elem_of_lookup_2 in Hy.
Qed.

Lemma promote_if_true addr s q :
  Memory.qubit_at addr (memory s) = Some q ->
  ∃ s', promote_if addr true s = Done tt s' ∧
        mq_state <$> Memory.qubit_at addr (memory s') = Some ELIGIBLE ∧
        fw_calls s' = fw_calls s ++ [FwQubitIsEligible addr] ∧
        eprs s' = eprs s.
Proof.
  intros Hq. unfold promote_if. run. eexists. split; [reflexivity|]. simpl.
  repeat split. by rewrite !qubit_at_update_eq, Hq.
Qed.

(** A record whose candidate set is path 1 alone, on a channel with the
    paths 1 and 2 and without coordinated decisions: the rank difference of
    the one candidate path is -1, yet the call fails the assertion on the
    candidate set and leaves everything as it was; the qubit is still
    [ENTANGLED0] and the forwarder has not been told anything. And a qubit
    on a channel without registered paths, whose record has no candidate
    path: the call returns after handing the qubit to [release_qubit], and
    the qubit has not been promoted. *)
Lemma preset_candidates_not_promoted :
  (candidates_at 0%nat (eprs preset_mux) = Some {[1]} ∧
   (∀ pid, pid ∈ ({[1]} : gset PathId) ->
      ∃ d, rank_diff_of (fib preset_mux) "A" pid = Some d ∧ d ≤ 0) ∧
   qubit_is_entangled 0 "A" preset_mux = Raised AssertionError preset_mux ∧
   mq_state <$> Memory.qubit_at 0 (memory preset_mux) = Some ENTANGLED0 ∧
   fw_calls preset_mux = []) ∧
  (candidates_at 0%nat (eprs stray_mux) = None ∧
   ∃ s', qubit_is_entangled 0 "A" stray_mux = Done tt s' ∧
         candidates_at 0%nat (eprs s') = None ∧
         mq_state <$> Memory.qubit_at 0 (memory s') = Some ENTANGLED0 ∧
         fw_calls s' = [FwReleaseQubit 0 true]).
Proof.
  split.
  - split; [reflexivity|]. split.
    + intros pid ->%elem_of_singleton. exists (-1). by split.
    + split; [|by split]. vm_compute. reflexivity.
  - split; [reflexivity|]. eexists. split; [vm_compute; reflexivity|].
    by repeat split.
Qed.

(** C5 (amended). For a freshly entangled qubit whose channel has registered
    paths and whose record has no candidate set yet, or one that agrees
    with the paths of the channel (equal to them, or among them with
    coordinated decisions): if the rank differences (own swap rank minus
    the notifying neighbour's) over the candidate paths all have one value
    [d], the operation returns, and it promotes the qubit to [ELIGIBLE] and
    tells the forwarder exactly when [d ≤ 0]; if two candidate paths give
    different rank differences, the operation raises [AssertionError] and
    promotes nothing; and whenever it returns, the qubit has been promoted
    if and only if the rank difference of every candidate path is at most
    zero. *)
Theorem qubit_is_entangled_promotes_by_rank
    (s : MuxState) (addr : nat) (neighbor : NodeName) (q : MemoryQubit)
    (ch : ChannelName) (l : list PathId) (epr : EprRef)
    (e : WernerStateEntanglement) :
  Memory._storage (memory s) !! addr = Some (q, Some epr) ->
  mq_path_id q = None -> mq_qchannel q = Some ch ->
  qchannel_paths_map s !! ch = Some l -> l ≠ [] ->
  eprs s !! epr = Some e ->
  tmp_consistent (coordinated_decisions s) l e ->
  let ids := candidate_ids l e in
  let outcome := qubit_is_entangled addr neighbor s in
  (∀ d, ids ≠ ∅ ->
     (∀ pid, pid ∈ ids -> rank_diff_of (fib s) neighbor pid = Some d) ->
     ∃ s', outcome = Done tt s' ∧
           tmp_path_ids <$> eprs s' !! epr = Some (Some ids) ∧
           (d ≤ 0 -> promoted addr s s') ∧
           (0 < d -> memory s' = memory s ∧ fw_calls s' = fw_calls s)) ∧
  (∀ p1 p2 d1 d2,
     (∀ pid, pid ∈ ids -> is_Some (rank_diff_of (fib s) neighbor pid)) ->
     p1 ∈ ids -> p2 ∈ ids ->
     rank_diff_of (fib s) neighbor p1 = Some d1 ->
     rank_diff_of (fib s) neighbor p2 = Some d2 -> d1 ≠ d2 ->
     ∃ s', outcome = Raised AssertionError s' ∧
           memory s' = memory s ∧ fw_calls s' = fw_calls s) ∧
  (∀ s', outcome = Done tt s' ->
     (promoted addr s s' ↔
      ∀ pid, pid ∈ ids ->
        ∃ d, rank_diff_of (fib s) neighbor pid = Some d ∧ d ≤ 0)).
Proof.
  intros Hslot Hpath Hch Hl Hne He Hcons ids outcome.
  assert (Hq : Memory.qubit_at addr (memory s) = Some q)
    by (unfold Memory.qubit_at; by rewrite Hslot).
  pose proof (qubit_is_entangled_prefix s addr neighbor q ch l epr e
                Hslot Hpath Hch Hl Hne He Hcons) as Hrun.
  fold outcome in Hrun.
  destruct (with_candidates_facts l epr e s He)
    as ((e1 & He1 & Htmp1) & Hfib & Hmem & Hfw).
  fold ids in Htmp1.
  set (s1 := with_candidates l epr e s) in *. clearbody s1.
  assert (Hq1 : Memory.qubit_at addr (memory s1) = Some q) by (by rewrite Hmem).
  destruct (promote_if_true addr s1 q Hq1) as (s2 & Hs2 & Hst2 & Hfw2 & Hep2).
  (* what happens once all rank differences are known *)
  assert (Hknown : ∀ d ds',
    mapM (rank_diff_of (fib s) neighbor) (elements ids) = Some (d :: ds') ->
    (Forall (fun y => y = d) ds' ->
       (∀ pid, pid ∈ ids -> rank_diff_of (fib s) neighbor pid = Some d) ∧
       (∃ p, p ∈ ids) ∧
       outcome = if bool_decide (d ≤ 0) then Done tt s2 else Done tt s1) ∧
    (¬ Forall (fun y => y = d) ds' -> outcome = Raised AssertionError s1)).
  { intros d ds' Hds.
    pose proof Hds as Hds1. rewrite <- Hfib in Hds1.
    destruct (can_enter_purif_spec epr neighbor s1 e1 ids _ He1 Htmp1 Hds1)
      as [Hyes Hno].
    apply mapM_Some_1 in Hds.
    split; intros Hall.
    - split; [|split].
      + intros pid Hpid. apply elem_of_elements in Hpid.
        destruct (Forall2_elem_of_l _ _ _ _ Hds Hpid) as (y & Hy & Hf).
        rewrite Hf. f_equal.
        apply elem_of_cons in Hy as [->|Hy]; [done|].
        rewrite Forall_forall in Hall. by apply Hall.
      + destruct (elements ids) as [|p ps] eqn:Hel; [by inversion Hds|].
        exists p. apply elem_of_elements. rewrite Hel. by left.
      + rewrite Hrun. unfold mbind, M_bind, bind. rewrite (Hyes Hall).
        destruct (bool_decide (d ≤ 0)); [exact Hs2|reflexivity].
    - rewrite Hrun. unfold mbind, M_bind, bind. by rewrite (Hno Hall). }
  split; [|split].
  - intros d Hids Hall.
    assert (Hel : elements ids ≠ []).
    { intros Hel. apply elements_empty_iff in Hel. apply Hids.
      by apply leibniz_equiv. }
    pose proof (mapM_constant _ (elements ids) d
                  (fun x Hx => Hall x (proj1 (elem_of_elements _ _) Hx))) as Hds.
    destruct (elements ids) as [|p ps] eqn:Hel'; [done|]. simpl in Hds.
    destruct (Hknown d _ Hds) as [Hyes _].
    destruct Hyes as (_ & _ & Hout).
    { apply Forall_forall. intros y Hy. by apply elem_of_replicate in Hy as [-> _]. }
    destruct (bool_decide (d ≤ 0)) eqn:Hd.
    + apply bool_decide_eq_true in Hd.
      exists s2. split; [done|]. split; [rewrite Hep2, He1; simpl; by rewrite Htmp1|].
      split; [|lia]. intros _. split; [done|]. by rewrite Hfw2, Hfw.
    + apply bool_decide_eq_false in Hd.
      exists s1. split; [done|]. split; [rewrite He1; simpl; by rewrite Htmp1|].
      split; [lia|]. done.
  - intros p1 p2 d1 d2 Hdef Hp1 Hp2 Hd1 Hd2 Hdiff.
    assert (is_Some (mapM (rank_diff_of (fib s) neighbor) (elements ids)))
      as [ds Hds].
    { apply mapM_is_Some_2, Forall_forall. intros x Hx.
      apply Hdef. by apply elem_of_elements. }
    pose proof (mapM_Some_1 _ _ _ Hds) as HF.
    destruct ds as [|d ds'].
    { apply elem_of_elements in Hp1. inversion HF as [Hel|]; subst.
      rewrite <- Hel in Hp1. by apply elem_of_nil in Hp1. }
    destruct (Hknown d ds' Hds) as [Hyes Hno].
    exists s1. split; [|done].
    apply Hno. intros Hall.
    destruct (Hyes Hall) as (Hsame & _ & _).
    rewrite (Hsame p1 Hp1) in Hd1. rewrite (Hsame p2 Hp2) in Hd2. congruence.
  - intros s' Hdone.
    destruct (mapM (rank_diff_of (fib s) neighbor) (elements ids))
      as [[|d ds']|] eqn:Hds.
    + exfalso. rewrite <- Hfib in Hds.
      pose proof (can_enter_purif_spec epr neighbor s1 e1 ids _ He1 Htmp1 Hds)
        as Hr. simpl in Hr.
      rewrite Hrun in Hdone. unfold mbind, M_bind, bind in Hdone.
      by rewrite Hr in Hdone.
    + destruct (Hknown d ds' eq_refl) as [Hyes Hno].
      destruct (decide (Forall (fun y => y = d) ds')) as [Hall|Hall].
      2:{ rewrite (Hno Hall) in Hdone. discriminate. }
      destruct (Hyes Hall) as (Hsame & (p & Hp) & Hout).
      rewrite Hout in Hdone.
      destruct (bool_decide (d ≤ 0)) eqn:Hd.
      * apply bool_decide_eq_true in Hd. injection Hdone as <-.
        split; [|intros _; split; [done|by rewrite Hfw2, Hfw]].
        intros _ pid Hpid. exists d. split; [by apply Hsame|done].
      * apply bool_decide_eq_false in Hd. injection Hdone as <-.
        split.
        -- intros [_ Hcalls]. rewrite Hfw in Hcalls.
           apply (f_equal length) in Hcalls. rewrite length_app in Hcalls.
           simpl in Hcalls. lia.
        -- intros Hle. destruct (Hle p Hp) as (d' & Hd' & Hle').
           rewrite (Hsame p Hp) in Hd'. injection Hd' as <-. lia.
    + exfalso. rewrite <- Hfib in Hds.
      destruct (can_enter_purif_undefined epr neighbor s1 e1 ids He1 Htmp1 Hds)
        as [err Hr].
      rewrite Hrun in Hdone. unfold mbind, M_bind, bind in Hdone.
      by rewrite Hr in Hdone.
Qed.

End promotion.

Lemma qubit_is_entangled_promotes_by_rank_witness :
  ∃ s', Mux.qubit_is_entangled 0 "A" fresh_mux = Done tt s' ∧
        promoted 0 fresh_mux s'.
Proof.
  destruct (proj1 (qubit_is_entangled_promotes_by_rank fresh_mux 0 "A"
              (mkQubit 0 ENTANGLED0 (Some "qAB") None (Some "k")) "qAB" [1; 2]
              0%nat (epr_with None) eq_refl eq_refl eq_refl
              (lookup_singleton_eq _ _) ltac:(discriminate)
              (lookup_singleton_eq _ _) I) (-1))
    as (s' & Hrun & _ & Hprom & _).
  - by apply list_to_set_nonempty.
  - intros pid Hpid. unfold candidate_ids in Hpid. simpl in Hpid.
    apply elem_of_union in Hpid as [Hpid|Hpid].
    + apply elem_of_singleton in Hpid as ->. reflexivity.
    + apply elem_of_union in Hpid as [Hpid|Hpid].
      * apply elem_of_singleton in Hpid as ->. reflexivity.
      * by apply not_elem_of_empty in Hpid.
  - exists s'. split; [exact Hrun|]. apply Hprom. lia.
Defined.

(** ** The swap candidate *)

Section swap_candidate.
Import Mux.

Ltac run :=
  unfold mbind, M_bind, bind, mret, M_ret, ret, modify, get_state, assert,
    raise, lift_sum; simpl.

Lemma select_swap_qubit_elem_of fn qubit epr fib_entry l c :
  selects_among fn ->
  select_swap_qubit fn qubit epr fib_entry l = Some c -> c ∈ l.
Proof.
  unfold selects_among, select_swap_qubit. destruct fn as [f|].
  - intros Hf. destruct l as [|x l]; simpl; [done|].
    intros [= <-]. by apply Hf.
  - intros _. destruct l as [|x l]; simpl; [done|].
    intros [= <-]. by left.
Qed.

Lemma select_swap_qubit_random_selects rnd :
  selects_among (Some (select_swap_qubit_random rnd)).
Proof.
  intros qubit epr fib_entry l Hl. unfold select_swap_qubit_random.
  apply list_elem_of_In, nth_In.
  apply Nat.mod_upper_bound. by destruct l.
Qed.

Lemma as_candidates_elem_of (c : Candidate) test m :
  c ∈ as_candidates (Memory.find test true m) ->
  (c.1, Some (c.2)) ∈ Memory._storage m ∧ test (c.1) (Some (c.2)) = true.
Proof.
  unfold as_candidates, Memory.find. intros Hc.
  apply list_elem_of_omap in Hc as ([q0 v] & Hin & Hsome).
  simpl in Hsome. destruct v as [r|]; [|discriminate].
  injection Hsome as <-. simpl.
  apply list_elem_of_In, List.filter_In in Hin as [Hin Htest].
  apply list_elem_of_In in Hin. simpl in Htest. done.
Qed.

Lemma matched_channels_other own_channel ids m n :
  n ∈ matched_channels own_channel ids m -> n ≠ own_channel.
Proof.
  unfold matched_channels. intros Hn.
  apply elem_of_dom in Hn as [l Hl].
  apply map_lookup_filter_Some in Hl as [_ [Hne _]]. done.
Qed.

Lemma fib_get_path_id fib path_id fe :
  fib_get fib path_id = inr fe -> fe_path_id fe = path_id.
Proof.
  unfold fib_get.
  destruct (list_find _ _) as [[i e]|] eqn:Hfind; [|discriminate].
  intros [= <-]. by apply list_find_Some in Hfind as (_ & H & _).
Qed.

Lemma random_choice_elem_of {A} rnd (l : list A) a :
  random_choice rnd l = inr a -> a ∈ l.
Proof.
  unfold random_choice.
  destruct (l !! _) as [x|] eqn:Hx; [|discriminate].
  intros [= <-]. by apply list_elem_of_lookup_2 in Hx.
Qed.

Lemma committed_lookup (h : EprStore) epr epr1 k e ids :
  h !! k = Some e -> k = epr ∨ k = epr1 ->
  tmp_path_ids <$>
    alter (set_tmp_path_ids (Some ids)) epr1
      (alter (set_tmp_path_ids (Some ids)) epr h) !! k
  = Some (Some ids).
Proof.
  intros Hk Hor.
  destruct (decide (k = epr1)) as [->|Hne1].
  - rewrite lookup_alter_eq.
    destruct (decide (epr1 = epr)) as [->|Hne].
    + by rewrite lookup_alter_eq, Hk.
    + by rewrite lookup_alter_ne, Hk.
  - destruct Hor as [-> | ->]; [|done].
    rewrite lookup_alter_ne by done. by rewrite lookup_alter_eq, Hk.
Qed.

(** C4. When [find_swap_candidate] returns a qubit and a FIB entry, the
    qubit is a memory qubit in state [ELIGIBLE], on a channel other than the
    input qubit's, whose entanglement record has a candidate set that
    intersects the input record's, and the FIB entry's path id is in the
    intersection; with [coordinated_decisions] both records end with the
    singleton of that path id as candidate set, and without it nothing has
    changed. *)
Theorem find_swap_candidate_spec
    (rnd : nat) (s s' : MuxState) (addr : nat) (epr : EprRef)
    (fib_entry : option FibEntry) (qubit mq1 : MemoryQubit) (fe : FibEntry)
    (ch : ChannelName) (e : WernerStateEntanglement) :
  Memory.qubit_at addr (memory s) = Some qubit ->
  mq_qchannel qubit = Some ch ->
  eprs s !! epr = Some e ->
  selects_among (fw_select_swap_qubit s) ->
  find_swap_candidate rnd addr epr fib_entry s = Done (Some (mq1, fe)) s' ->
  mq_state mq1 = ELIGIBLE ∧
  (∃ ch1, mq_qchannel mq1 = Some ch1 ∧ ch1 ≠ ch) ∧
  ∃ epr1 e1 ids ids1,
    (mq1, Some epr1) ∈ Memory._storage (memory s) ∧
    eprs s !! epr1 = Some e1 ∧
    tmp_path_ids e = Some ids ∧ tmp_path_ids e1 = Some ids1 ∧
    ids ∩ ids1 ≠ ∅ ∧
    fe_path_id fe ∈ ids ∩ ids1 ∧
    (coordinated_decisions s = true ->
       tmp_path_ids <$> eprs s' !! epr = Some (Some {[fe_path_id fe]}) ∧
       tmp_path_ids <$> eprs s' !! epr1 = Some (Some {[fe_path_id fe]})) ∧
    (coordinated_decisions s = false -> s' = s).
Proof.
  intros Hq Hch He Hsel Hrun.
  unfold find_swap_candidate, the_qubit, the_epr in Hrun.
  unfold mbind, M_bind, bind, mret, M_ret, ret, modify, get_state, assert,
    raise, lift_sum in Hrun; simpl in Hrun.
  rewrite Hq in Hrun. simpl in Hrun. rewrite Hch in Hrun. simpl in Hrun.
  rewrite He in Hrun.
  destruct (select_swap_qubit _ _ _ _ _) as [[mq epr1]|] eqn:Hfound;
    [|discriminate].
  apply (select_swap_qubit_elem_of _ _ _ _ _ _ Hsel) in Hfound.
  apply as_candidates_elem_of in Hfound as [Hin Htest]. simpl in Hin, Htest.
  unfold swap_candidate_test in Htest. rewrite !andb_true_iff in Htest.
  destruct Htest as [[Hstate Hmatched] _].
  apply bool_decide_eq_true in Hstate.
  destruct (mq_qchannel mq) as [ch1|] eqn:Hch1; [|discriminate].
  apply bool_decide_eq_true, matched_channels_other in Hmatched.
  destruct (eprs s !! epr1) as [e1|] eqn:He1; [|discriminate].
  unfold intersect_tmp_path_ids in Hrun.
  destruct (tmp_path_ids e) as [ids|] eqn:Hids; [|discriminate].
  destruct (tmp_path_ids e1) as [ids1|] eqn:Hids1; [|discriminate].
  destruct (decide (ids ∩ ids1 = ∅)) as [Hempty|Hnonempty]; [discriminate|].
  simpl in Hrun.
  destruct (random_choice rnd (elements (ids ∩ ids1))) as [err|chosen] eqn:Hchoice;
    [discriminate|].
  apply random_choice_elem_of, elem_of_elements in Hchoice.
  simpl in Hrun.
  destruct (coordinated_decisions s) eqn:Hcoord; simpl in Hrun;
    (destruct (fib_get (fib s) chosen) as [err|fe'] eqn:Hfib; [discriminate|]);
    simpl in Hrun; injection Hrun as -> -> <-;
    apply fib_get_path_id in Hfib; subst chosen.
  all: split; [done|]; split; [by exists ch1|].
  all: exists epr1, e1, ids, ids1.
  all: repeat split; try done.
  - simpl. by apply (committed_lookup _ _ _ _ e); [|left].
  - simpl. by apply (committed_lookup _ _ _ _ e1); [|right].
Qed.

End swap_candidate.

Lemma swap_mux_finds_candidate :
  Mux.find_swap_candidate 0 0 0%nat None (swap_mux false)
    = Done (Some (qubit_BC, Mux.mkFibEntry 1 ["A"; "B"; "C"] [1; 0; 1] 0))
           (swap_mux false).
Proof. vm_compute. reflexivity. Qed.

Lemma find_swap_candidate_witness :
  mq_state qubit_BC = ELIGIBLE ∧
  (∃ ch1, mq_qchannel qubit_BC = Some ch1 ∧ ch1 ≠ "qAB").
Proof.
  pose proof (find_swap_candidate_spec 0 (swap_mux false) (swap_mux false)
                0 0%nat None qubit_AB qubit_BC
                (Mux.mkFibEntry 1 ["A"; "B"; "C"] [1; 0; 1] 0) "qAB"
                (epr_with (Some {[1; 2]}))
                eq_refl eq_refl eq_refl I swap_mux_finds_candidate) as H.
  split; apply H.
Defined.

(** * Further properties *)

(** ** Candidate sets and the channel map *)

Section more_paths.
Import Mux.

Lemma forallb_not_elem_of (s0 : gset PathId) (l : list PathId) :
  forallb (fun p => bool_decide (p ∉ s0)) l = true ↔ ∀ p, p ∈ l -> p ∉ s0.
Proof.
  rewrite forallb_forall. split.
  - intros H p Hp. apply list_elem_of_In in Hp.
    specialize (H p Hp). by apply bool_decide_eq_true in H.
  - intros H p Hp. apply bool_decide_eq_true, H. by apply list_elem_of_In.
Qed.

Lemma has_intersect_spec (e0 e1 : WernerStateEntanglement) :
  has_intersect_tmp_path_ids (tmp_path_ids e0) (elements <$> tmp_path_ids e1) = true
  ↔ ∃ s0 s1, tmp_path_ids e0 = Some s0 ∧ tmp_path_ids e1 = Some s1 ∧
             s0 ∩ s1 ≠ ∅.
Proof.
  unfold has_intersect_tmp_path_ids.
  destruct (tmp_path_ids e0) as [s0|];
    [|split; [done|by intros (? & ? & ? & _)]].
  destruct (tmp_path_ids e1) as [s1|]; simpl;
    [|split; [done|by intros (? & ? & _ & ? & _)]].
  rewrite negb_true_iff. split.
  - intros Hf. exists s0, s1. split; [done|]. split; [done|].
    intros Hempty. apply not_true_iff_false in Hf. apply Hf.
    apply forallb_not_elem_of. intros p Hp Hp0.
    apply elem_of_elements in Hp.
    assert (p ∈ s0 ∩ s1) as Hin by (by apply elem_of_intersection).
    rewrite Hempty in Hin. by apply not_elem_of_empty in Hin.
  - intros (s0' & s1' & [= <-] & [= <-] & Hne).
    apply not_true_iff_false. intros Hf.
    apply Hne. apply leibniz_equiv. apply elem_of_equiv_empty. intros p Hp.
    apply elem_of_intersection in Hp as [Hp0 Hp1].
    rewrite forallb_not_elem_of in Hf.
    by apply (Hf p); [apply elem_of_elements|].
Qed.

(** X1. The test [has_intersect_tmp_path_ids] that selects swap candidates
    holds exactly when [intersect_tmp_path_ids] on the two records returns
    a set instead of raising. *)
Theorem has_intersect_iff_intersect_succeeds (e0 e1 : WernerStateEntanglement) :
  has_intersect_tmp_path_ids (tmp_path_ids e0) (elements <$> tmp_path_ids e1) = true
  ↔ ∃ ids, intersect_tmp_path_ids e0 e1 = inr ids.
Proof.
  rewrite has_intersect_spec. unfold intersect_tmp_path_ids. split.
  - intros (s0 & s1 & -> & -> & Hne). rewrite decide_False by done. eauto.
  - intros [ids Hids].
    destruct (tmp_path_ids e0) as [s0|]; [|discriminate].
    destruct (tmp_path_ids e1) as [s1|]; [|discriminate].
    destruct (decide (s0 ∩ s1 = ∅)); [discriminate|]. eauto.
Qed.

Lemma has_intersect_iff_intersect_succeeds_witness :
  ∃ ids, intersect_tmp_path_ids (epr_with (Some {[1; 2]})) (epr_with (Some {[2]}))
           = inr ids.
Proof.
  apply (proj1 (has_intersect_iff_intersect_succeeds _ _)).
  vm_compute. reflexivity.
Defined.

Lemma list_remove_Some x l l' :
  list_remove x l = Some l' -> l ≡ₚ x :: l'.
Proof.
  revert l'. induction l as [|y l IH]; intros l'; simpl; [done|].
  destruct (decide (y = x)) as [->|Hne].
  - by intros [= ->].
  - destruct (list_remove x l) as [l0|]; [|done]. simpl.
    intros [= <-]. rewrite (IH l0 eq_refl). apply Permutation_swap.
Qed.

Lemma list_remove_None x l : list_remove x l = None ↔ x ∉ l.
Proof.
  induction l as [|y l IH]; simpl.
  - split; [intros _; apply not_elem_of_nil|done].
  - destruct (decide (y = x)) as [->|Hne].
    + split; [done|]. intros H. exfalso. apply H. by left.
    + rewrite not_elem_of_cons. destruct (list_remove x l); simpl.
      * split; [done|]. intros [_ H]. by apply IH in H.
      * split; [|done]. intros _. split; [congruence|]. by apply IH.
Qed.

(** The map after [install_path_neighbor], in closed form. *)
Lemma install_path_neighbor_spec m qchannel path_id :
  install_path_neighbor path_id qchannel m
    = Done tt (<[qchannel := paths_on qchannel m ++ [path_id]]> m).
Proof.
  unfold install_path_neighbor, defaultdict_getitem, paths_on.
  destruct (m !! qchannel) as [l|]; simpl; [done|].
  by rewrite insert_insert_eq.
Qed.

(** What a successful [uninstall_path_neighbor] has done. *)
Lemma uninstall_path_neighbor_inv m m' qchannel path_id :
  uninstall_path_neighbor path_id qchannel m = Done tt m' ->
  ∃ l l', m !! qchannel = Some l ∧ list_remove path_id l = Some l' ∧
          m' = match l' with
               | [] => delete qchannel m
               | _ :: _ => <[qchannel := l']> m
               end.
Proof.
  unfold uninstall_path_neighbor, defaultdict_getitem.
  destruct (m !! qchannel) as [l|] eqn:Hl; simpl; [|done].
  destruct (list_remove path_id l) as [l'|] eqn:Hrm; [|done].
  exists l, l'. split; [done|]. split; [done|].
  destruct l' as [|y l']; simpl in *; injection H as <-; [|done].
  by rewrite delete_insert_eq.
Qed.

(** X2. [uninstall_path_neighbor] raises [ValueError] exactly when the path
    id is not registered on the channel. After such a failure on a channel
    that was not in the map, the channel is left mapped to an empty list;
    on a channel that was in the map, the map is as before. *)
Theorem uninstall_unregistered_raises
    (m : PathsMap) (qchannel : ChannelName) (path_id : PathId) :
  (path_id ∈ paths_on qchannel m ↔
     is_done (uninstall_path_neighbor path_id qchannel m) = true) ∧
  (path_id ∉ paths_on qchannel m ->
     uninstall_path_neighbor path_id qchannel m
       = Raised ValueError (match m !! qchannel with
                            | Some _ => m
                            | None => <[qchannel := []]> m
                            end)).
Proof.
  unfold paths_on, uninstall_path_neighbor, defaultdict_getitem.
  destruct (m !! qchannel) as [l|] eqn:Hl; simpl.
  - destruct (list_remove path_id l) as [l'|] eqn:Hrm.
    + assert (path_id ∈ l) as Hin.
      { apply list_remove_Some in Hrm. rewrite Hrm. by left. }
      split; [|done]. split; [|done]. intros _. by destruct (decide _).
    + apply list_remove_None in Hrm. split; [|done]. split; done.
  - split; [|done]. split; [|done]. intros H. by apply elem_of_nil in H.
Qed.

Lemma uninstall_unregistered_raises_witness :
  uninstall_path_neighbor 3 "qc" {[ "qc" := [1; 2] ]}
    = Raised ValueError {[ "qc" := [1; 2] ]}.
Proof.
  pose proof (proj2 (uninstall_unregistered_raises {[ "qc" := [1; 2] ]} "qc" 3))
    as H.
  rewrite lookup_singleton_eq in H. apply H.
  unfold paths_on. rewrite lookup_singleton_eq. simpl.
  by apply (bool_decide_unpack _).
Defined.

(** X3. A successful [uninstall_path_neighbor] removes one occurrence of the
    path id from the channel's list and nothing else: the old list is a
    permutation of the path id followed by the new list, the other channels
    keep their lists, and the channel's key is gone exactly when no path is
    left on it. *)
Theorem uninstall_removes_one_occurrence
    (m m' : PathsMap) (qchannel : ChannelName) (path_id : PathId) :
  uninstall_path_neighbor path_id qchannel m = Done tt m' ->
  paths_on qchannel m ≡ₚ path_id :: paths_on qchannel m' ∧
  (∀ ch, ch ≠ qchannel -> m' !! ch = m !! ch) ∧
  (m' !! qchannel = None ↔ paths_on qchannel m' = []) ∧
  m' !! qchannel ≠ Some [].
Proof.
  intros Hrun.
  apply uninstall_path_neighbor_inv in Hrun as (l & l' & Hl & Hrm & ->).
  apply list_remove_Some in Hrm. unfold paths_on. rewrite Hl. simpl.
  destruct l' as [|y l'].
  - rewrite lookup_delete_eq. simpl. repeat split; try done.
    intros ch Hne. by rewrite lookup_delete_ne.
  - rewrite lookup_insert_eq. simpl. repeat split; try done.
    intros ch Hne. by rewrite lookup_insert_ne.
Qed.

Lemma uninstall_removes_one_occurrence_witness :
  paths_on "qc" {[ "qc" := [1; 2] ]} ≡ₚ 1 :: paths_on "qc" {[ "qc" := [2] ]}.
Proof.
  refine (proj1 (uninstall_removes_one_occurrence
                   {[ "qc" := [1; 2] ]} {[ "qc" := [2] ]} "qc" 1 _)).
  vm_compute. reflexivity.
Defined.

(** X4. Both operations keep the invariant that no channel is mapped to an
    empty list: [install_path_neighbor] always, [uninstall_path_neighbor]
    whenever it returns. *)
Theorem no_empty_lists_preserved
    (m : PathsMap) (qchannel : ChannelName) (path_id : PathId) :
  no_empty_lists m ->
  no_empty_lists (final_state (install_path_neighbor path_id qchannel m)) ∧
  (∀ m', uninstall_path_neighbor path_id qchannel m = Done tt m' ->
         no_empty_lists m').
Proof.
  intros Hinv. split.
  - rewrite install_path_neighbor_spec. simpl. intros ch.
    destruct (decide (ch = qchannel)) as [->|Hne].
    + rewrite lookup_insert_eq. intros [= H].
      by destruct (paths_on qchannel m).
    + rewrite lookup_insert_ne by done. apply Hinv.
  - intros m' Hrun ch.
    apply uninstall_path_neighbor_inv in Hrun as (l & l' & Hl & Hrm & ->).
    destruct (decide (ch = qchannel)) as [->|Hne].
    + destruct l' as [|y l'].
      * by rewrite lookup_delete_eq.
      * by rewrite lookup_insert_eq.
    + destruct l' as [|y l'].
      * rewrite lookup_delete_ne by done. apply Hinv.
      * rewrite lookup_insert_ne by done. apply Hinv.
Qed.

Lemma no_empty_lists_preserved_witness :
  no_empty_lists
    (final_state (install_path_neighbor 2 "qc" {[ "qc" := [1] ]})).
Proof.
  refine (proj1 (no_empty_lists_preserved {[ "qc" := [1] ]} "qc" 2 _)).
  intros ch. destruct (decide (ch = "qc")) as [->|Hne].
  - by rewrite lookup_singleton_eq.
  - by rewrite lookup_singleton_ne.
Defined.

(** X5. In every state that maps the channel to no empty list, install
    followed by uninstall of the same path on the same channel succeeds,
    leaves the other channels alone, and leaves on the channel the paths it
    had, up to their order; the channel is a key afterwards exactly if it
    was one before. *)
Theorem install_uninstall_permutes
    (m : PathsMap) (qchannel : ChannelName) (path_id : PathId) :
  m !! qchannel ≠ Some [] ->
  ∃ m', install_then_uninstall path_id qchannel m = Done tt m' ∧
        paths_on qchannel m' ≡ₚ paths_on qchannel m ∧
        (∀ ch, ch ≠ qchannel -> m' !! ch = m !! ch) ∧
        (m' !! qchannel = None ↔ m !! qchannel = None).
Proof.
  intros Hne.
  set (m1 := <[qchannel := paths_on qchannel m ++ [path_id]]> m).
  assert (Hrun : install_then_uninstall path_id qchannel m
                 = uninstall_path_neighbor path_id qchannel m1).
  { unfold install_then_uninstall, mbind, M_bind, bind.
    by rewrite install_path_neighbor_spec. }
  rewrite Hrun.
  destruct (list_remove path_id (paths_on qchannel m ++ [path_id]))
    as [l'|] eqn:Hrm.
  2:{ apply list_remove_None in Hrm. exfalso. apply Hrm.
      apply elem_of_app. right. by left. }
  assert (Hperm : l' ≡ₚ paths_on qchannel m).
  { apply list_remove_Some in Hrm.
    apply (Permutation_cons_inv (a := path_id)).
    rewrite <- Hrm. by rewrite Permutation_app_comm. }
  assert (Hun : uninstall_path_neighbor path_id qchannel m1
                = Done tt (match l' with
                           | [] => delete qchannel m1
                           | _ :: _ => <[qchannel := l']> m1
                           end)).
  { unfold uninstall_path_neighbor, defaultdict_getitem, m1.
    rewrite lookup_insert_eq. simpl. rewrite Hrm.
    destruct l' as [|y l']; simpl; [|done].
    by rewrite delete_insert_eq. }
  rewrite Hun. eexists. split; [reflexivity|].
  unfold paths_on in *. destruct l' as [|y l'].
  - apply Permutation_nil in Hperm.
    destruct (m !! qchannel) as [l|] eqn:Hl; simpl in Hperm; [by subst l|].
    unfold m1. rewrite lookup_delete_eq. simpl. repeat split; try done.
    intros ch Hch. by rewrite lookup_delete_ne, lookup_insert_ne.
  - unfold m1. rewrite lookup_insert_eq. simpl. split; [done|].
    split; [intros ch Hch; by rewrite !lookup_insert_ne|].
    split; [done|]. intros Hnone. rewrite Hnone in Hperm. simpl in Hperm.
    symmetry in Hperm. by apply Permutation_nil in Hperm.
Qed.

Lemma install_uninstall_permutes_witness :
  ∃ m', install_then_uninstall 1 "qc" {[ "qc" := [1; 2] ]} = Done tt m' ∧
        paths_on "qc" m' ≡ₚ [1; 2].
Proof.
  destruct (install_uninstall_permutes {[ "qc" := [1; 2] ]} "qc" 1)
    as (m' & Hrun & Hperm & _).
  - by rewrite lookup_singleton_eq.
  - exists m'. split; [exact Hrun|exact Hperm].
Defined.

End more_paths.

(** ** Entangled qubits at the edges of the statistical mux *)

Section more_entangled.
Import Mux.

Ltac run :=
  unfold mbind, M_bind, bind, mret, M_ret, ret, modify, get_state, assert,
    raise, lift_sum, fw_call; simpl.

Lemma can_enter_purif_state epr neighbor s :
  final_state (_can_enter_purif epr neighbor s) = s.
Proof.
  unfold _can_enter_purif, the_epr. run.
  destruct (eprs s !! epr) as [e|]; simpl; [|done].
  destruct (tmp_path_ids e) as [ids|]; simpl; [|done].
  pose proof (for_each_calc_rank_diff neighbor (elements ids) s) as Hfor.
  destruct (mapM _ _) as [ds|].
  - rewrite Hfor. destruct ds as [|d ds]; simpl; [done|].
    by destruct (bool_decide _).
  - destruct Hfor as [err ->]. done.
Qed.

Lemma promotion_keeps_eprs addr epr neighbor s :
  eprs (final_state ((_can_enter_purif epr neighbor ≫= promote_if addr) s))
    = eprs s.
Proof.
  pose proof (can_enter_purif_state epr neighbor s) as Hst.
  unfold mbind, M_bind, bind.
  destruct (_can_enter_purif epr neighbor s) as [ok s1|err s1];
    simpl in Hst; subst s1; [|done].
  by destruct ok.
Qed.

(** X6. What [qubit_is_entangled] does with a qubit it cannot classify: a
    qubit that is allocated to a path, or assigned to no channel, fails the
    assertion with nothing changed; a qubit whose channel has no registered
    path is handed to the forwarder's [release_qubit(qubit, read=True)] and
    the call returns without promoting it or touching any record. *)
Theorem qubit_is_entangled_unclassifiable
    (s : MuxState) (addr : nat) (neighbor : NodeName) (q : MemoryQubit) :
  Memory.qubit_at addr (memory s) = Some q ->
  (mq_path_id q ≠ None ->
     qubit_is_entangled addr neighbor s = Raised AssertionError s) ∧
  (mq_path_id q = None -> mq_qchannel q = None ->
     qubit_is_entangled addr neighbor s = Raised AssertionError s) ∧
  (∀ ch, mq_path_id q = None -> mq_qchannel q = Some ch ->
     paths_on ch (qchannel_paths_map s) = [] ->
     qubit_is_entangled addr neighbor s
       = Done tt (with_fw_call (FwReleaseQubit addr true) s)).
Proof.
  intros Hq.
  unfold qubit_is_entangled, _qubit_is_entangled_0, the_qubit, paths_on.
  run. rewrite Hq. simpl. repeat split.
  - intros Hp. by rewrite bool_decide_eq_false_2.
  - intros Hp Hc. rewrite bool_decide_eq_true_2 by done. simpl. by rewrite Hc.
  - intros ch Hp Hc Hl. rewrite bool_decide_eq_true_2 by done. simpl.
    rewrite Hc. simpl. rewrite Hl. simpl. reflexivity.
Qed.

Lemma qubit_is_entangled_unclassifiable_witness :
  qubit_is_entangled 0 "A" stray_mux
    = Done tt (with_fw_call (FwReleaseQubit 0 true) stray_mux).
Proof.
  refine (proj2 (proj2 (qubit_is_entangled_unclassifiable stray_mux 0 "A"
            (mkQubit 0 ENTANGLED0 (Some "qAB") None (Some "k")) _))
            "qAB" _ _ _); reflexivity.
Defined.

(** X7. How [qubit_is_entangled] settles the candidate set of the qubit's
    record, on a channel with registered paths [l]. A record without
    candidate set leaves the call with the set of [l], whether the call
    returns or raises later on. A record that has a set keeps it; and if
    that set is not the set of [l] (not a subset of it, with
    [coordinated_decisions]), the call raises [AssertionError] with nothing
    changed. *)
Theorem qubit_is_entangled_candidate_set
    (s : MuxState) (addr : nat) (neighbor : NodeName) (q : MemoryQubit)
    (ch : ChannelName) (l : list PathId) (epr : EprRef)
    (e : WernerStateEntanglement) :
  Memory._storage (memory s) !! addr = Some (q, Some epr) ->
  mq_path_id q = None -> mq_qchannel q = Some ch ->
  qchannel_paths_map s !! ch = Some l -> l ≠ [] ->
  eprs s !! epr = Some e ->
  let outcome := qubit_is_entangled addr neighbor s in
  (tmp_path_ids e = None ->
     candidates_at epr (eprs (final_state outcome)) = Some (list_to_set l)) ∧
  (∀ ids, tmp_path_ids e = Some ids ->
     candidates_at epr (eprs (final_state outcome)) = Some ids ∧
     (coordinated_decisions s = false -> ids ≠ list_to_set l ->
        outcome = Raised AssertionError s) ∧
     (coordinated_decisions s = true -> ¬ ids ⊆ list_to_set l ->
        outcome = Raised AssertionError s)).
Proof.
  intros Hslot Hpath Hch Hl Hne He outcome.
  assert (Hgood : tmp_consistent (coordinated_decisions s) l e ->
            candidates_at epr (eprs (final_state outcome))
              = Some (candidate_ids l e)).
  { intros Hcons. unfold outcome.
    rewrite (qubit_is_entangled_prefix s addr neighbor q ch l epr e
               Hslot Hpath Hch Hl Hne He Hcons).
    rewrite promotion_keeps_eprs.
    destruct (with_candidates_facts l epr e s He) as ((e1 & He1 & Ht1) & _).
    unfold candidates_at. rewrite He1. simpl. done. }
  assert (Hbad : ∀ ids, tmp_path_ids e = Some ids ->
            (if coordinated_decisions s
             then ¬ ids ⊆ list_to_set l else ids ≠ list_to_set l) ->
            outcome = Raised AssertionError s).
  { intros ids Hids Hnot. unfold outcome.
    unfold qubit_is_entangled, _qubit_is_entangled_0, the_qubit, the_epr,
      Memory.qubit_at, Memory.get.
    run. rewrite Hslot. simpl. rewrite Hpath. simpl. rewrite Hch. simpl.
    rewrite Hl. simpl.
    rewrite bool_decide_eq_false_2 by done. simpl.
    rewrite decide_False by (by apply list_to_set_nonempty).
    simpl. rewrite Hslot. simpl. rewrite He. rewrite Hids.
    destruct (coordinated_decisions s);
      by rewrite bool_decide_eq_false_2. }
  split.
  - intros Hnone. rewrite Hgood.
    + unfold candidate_ids. by rewrite Hnone.
    + unfold tmp_consistent. by rewrite Hnone.
  - intros ids Hids. split; [|split].
    + assert (Hdec : tmp_consistent (coordinated_decisions s) l e ∨
                (if coordinated_decisions s
                 then ¬ ids ⊆ list_to_set l else ids ≠ list_to_set l)).
      { unfold tmp_consistent. rewrite Hids.
        destruct (coordinated_decisions s).
        - destruct (decide (ids ⊆ list_to_set l)); [by left|by right].
        - destruct (decide (ids = list_to_set l)); [by left|by right]. }
      destruct Hdec as [Hcons|Hnot].
      * rewrite (Hgood Hcons). unfold candidate_ids. by rewrite Hids.
      * rewrite (Hbad ids Hids Hnot).
        simpl. unfold candidates_at. rewrite He. simpl. done.
    + intros Hc Hdiff. apply (Hbad ids Hids). by rewrite Hc.
    + intros Hc Hdiff. apply (Hbad ids Hids). by rewrite Hc.
Qed.

Lemma qubit_is_entangled_candidate_set_witness :
  candidates_at 0%nat (eprs (final_state (qubit_is_entangled 0 "A" fresh_mux)))
    = Some (list_to_set [1; 2]).
Proof.
  refine (proj1 (qubit_is_entangled_candidate_set fresh_mux 0 "A"
            (mkQubit 0 ENTANGLED0 (Some "qAB") None (Some "k")) "qAB" [1; 2]
            0%nat (epr_with None) _ _ _ _ _ _) _); done.
Defined.

End more_entangled.

(** ** Outcomes of the swap-candidate search *)

Section more_swap.
Import Mux.

Lemma select_swap_qubit_None fn qubit epr fib_entry l :
  select_swap_qubit fn qubit epr fib_entry l = None ↔ l = [].
Proof.
  unfold select_swap_qubit. destruct fn as [f|]; destruct l; simpl; done.
Qed.

Lemma swap_candidates_elem_of ch ids s c :
  c ∈ swap_candidates ch ids s ->
  (c.1, Some (c.2)) ∈ Memory._storage (memory s) ∧
  mq_state (c.1) = ELIGIBLE ∧
  (∃ ch1, mq_qchannel (c.1) = Some ch1 ∧ ch1 ≠ ch) ∧
  ∃ e1 s0 s1, eprs s !! c.2 = Some e1 ∧ ids = Some s0 ∧
              tmp_path_ids e1 = Some s1 ∧ s0 ∩ s1 ≠ ∅.
Proof.
  unfold swap_candidates. intros Hc.
  apply as_candidates_elem_of in Hc as [Hin Htest].
  split; [done|].
  unfold swap_candidate_test in Htest. rewrite !andb_true_iff in Htest.
  destruct Htest as [[Hstate Hmatched] Hinter].
  apply bool_decide_eq_true in Hstate. split; [done|].
  destruct (mq_qchannel (c.1)) as [ch1|]; [|discriminate].
  apply bool_decide_eq_true, matched_channels_other in Hmatched.
  split; [by exists ch1|].
  simpl in Hinter.
  destruct (eprs s !! c.2) as [e1|] eqn:He1;
    [|by destruct ids].
  simpl in Hinter.
  pose proof (has_intersect_spec (epr_with ids) e1) as Hspec. simpl in Hspec.
  apply Hspec in Hinter as (s0 & s1 & -> & Hs1 & Hne).
  by exists e1, s0, s1.
Qed.

(** The course of [find_swap_candidate] after the selection. *)
Lemma find_swap_candidate_inv rnd s addr epr fib_entry qubit ch e :
  Memory.qubit_at addr (memory s) = Some qubit ->
  mq_qchannel qubit = Some ch ->
  eprs s !! epr = Some e ->
  selects_among (fw_select_swap_qubit s) ->
  match select_swap_qubit (fw_select_swap_qubit s) qubit epr fib_entry
          (swap_candidates ch (tmp_path_ids e) s) with
  | None => find_swap_candidate rnd addr epr fib_entry s = Done None s
  | Some (mq1, epr1) =>
      (mq1, epr1) ∈ swap_candidates ch (tmp_path_ids e) s ∧
      ∃ e1 ids ids1 chosen,
        eprs s !! epr1 = Some e1 ∧
        tmp_path_ids e = Some ids ∧ tmp_path_ids e1 = Some ids1 ∧
        chosen ∈ ids ∩ ids1 ∧
        find_swap_candidate rnd addr epr fib_entry s
          = match fib_get (fib s) chosen with
            | inr fe => Done (Some (mq1, fe)) (committed chosen epr epr1 s)
            | inl err => Raised err (committed chosen epr epr1 s)
            end
  end.
Proof.
  intros Hq Hch He Hsel.
  unfold find_swap_candidate, the_qubit, the_epr.
  unfold mbind, M_bind, bind, mret, M_ret, ret, modify, get_state, assert,
    raise, lift_sum; simpl.
  rewrite Hq. simpl. rewrite Hch. simpl. rewrite He.
  fold (swap_candidates ch (tmp_path_ids e) s).
  destruct (select_swap_qubit _ _ _ _ _) as [[mq1 epr1]|] eqn:Hfound; [|done].
  apply (select_swap_qubit_elem_of _ _ _ _ _ _ Hsel) in Hfound.
  split; [done|].
  destruct (swap_candidates_elem_of _ _ _ _ Hfound)
    as (_ & _ & _ & e1 & ids & ids1 & He1 & Hids & Hids1 & Hne).
  simpl in He1. rewrite He1.
  unfold intersect_tmp_path_ids. rewrite Hids, Hids1.
  rewrite decide_False by done. simpl.
  unfold random_choice.
  assert (Hlen : (0 < length (elements (ids ∩ ids1)))%nat).
  { destruct (elements (ids ∩ ids1)) eqn:Hel; simpl; [|lia].
    apply elements_empty_iff in Hel. exfalso. apply Hne.
    by apply leibniz_equiv. }
  destruct (elements (ids ∩ ids1) !! (rnd `mod` length (elements (ids ∩ ids1)))%nat)
    as [chosen|] eqn:Hchoice.
  2:{ apply lookup_ge_None in Hchoice.
      pose proof (Nat.mod_upper_bound rnd (length (elements (ids ∩ ids1)))). lia. }
  simpl. exists e1, ids, ids1, chosen.
  split; [done|]. split; [done|]. split; [done|].
  split.
  { apply elem_of_elements. by apply list_elem_of_lookup_2 in Hchoice. }
  unfold committed.
  destruct (coordinated_decisions s); simpl;
    by destruct (fib_get (fib s) chosen).
Qed.

(** X8. [find_swap_candidate] on an existing qubit and record, with a
    strategy that selects among its candidates: it returns [None] exactly
    when no memory qubit passes the candidate test; and when it raises, the
    exception comes from the FIB lookup of a path id that both candidate
    sets contain, never from an empty intersection. *)
Theorem find_swap_candidate_outcomes
    (rnd : nat) (s : MuxState) (addr : nat) (epr : EprRef)
    (fib_entry : option FibEntry) (qubit : MemoryQubit) (ch : ChannelName)
    (e : WernerStateEntanglement) :
  Memory.qubit_at addr (memory s) = Some qubit ->
  mq_qchannel qubit = Some ch ->
  eprs s !! epr = Some e ->
  selects_among (fw_select_swap_qubit s) ->
  let outcome := find_swap_candidate rnd addr epr fib_entry s in
  (outcome = Done None s ↔ swap_candidates ch (tmp_path_ids e) s = []) ∧
  (∀ err s', outcome = Raised err s' ->
     ∃ ids ids1 chosen c,
       c ∈ swap_candidates ch (tmp_path_ids e) s ∧
       tmp_path_ids e = Some ids ∧ candidates_at (c.2) (eprs s) = Some ids1 ∧
       chosen ∈ ids ∩ ids1 ∧ fib_get (fib s) chosen = inl err).
Proof.
  intros Hq Hch He Hsel outcome.
  pose proof (find_swap_candidate_inv rnd s addr epr fib_entry qubit ch e
                Hq Hch He Hsel) as Hinv.
  fold outcome in Hinv.
  destruct (select_swap_qubit _ _ _ _ _) as [[mq1 epr1]|] eqn:Hfound.
  - destruct Hinv as (Hin & e1 & ids & ids1 & chosen & He1 & Hids & Hids1
                      & Hchosen & Hrun).
    split.
    + split.
      * intros Hnone. rewrite Hrun in Hnone.
        by destruct (fib_get (fib s) chosen).
      * intros Hnil. rewrite Hnil in Hin. by apply elem_of_nil in Hin.
    + intros err s' Hraised. rewrite Hrun in Hraised.
      destruct (fib_get (fib s) chosen) as [err'|fe] eqn:Hfib; [|done].
      injection Hraised as -> _.
      exists ids, ids1, chosen, (mq1, epr1).
      split; [done|]. split; [done|].
      split; [unfold candidates_at; simpl; by rewrite He1|]. done.
  - apply select_swap_qubit_None in Hfound. split; [done|].
    intros err s' Hraised. by rewrite Hinv in Hraised.
Qed.

Lemma find_swap_candidate_outcomes_witness :
  find_swap_candidate 0 0 0%nat None (swap_mux false) = Done None (swap_mux false)
  ↔ swap_candidates "qAB" (Some {[1; 2]}) (swap_mux false) = [].
Proof.
  refine (proj1 (find_swap_candidate_outcomes 0 (swap_mux false) 0 0%nat None
            qubit_AB "qAB" (epr_with (Some {[1; 2]})) _ _ _ _)); done.
Defined.

(** X9. The pair that [find_swap_candidate] returns can be merged: for the
    record [epr1] held by the returned qubit, [swapping_succeeded] on the
    two records does not raise, in either mode, and the path of the
    returned FIB entry is among the candidates of the merged pair. *)
Theorem swap_candidate_can_be_merged
    (rnd : nat) (s s' : MuxState) (addr : nat) (epr new_epr : EprRef)
    (fib_entry : option FibEntry) (qubit mq1 : MemoryQubit) (fe : FibEntry)
    (ch : ChannelName) (e : WernerStateEntanglement) :
  Memory.qubit_at addr (memory s) = Some qubit ->
  mq_qchannel qubit = Some ch ->
  eprs s !! epr = Some e ->
  selects_among (fw_select_swap_qubit s) ->
  find_swap_candidate rnd addr epr fib_entry s = Done (Some (mq1, fe)) s' ->
  is_Some (eprs s' !! new_epr) ->
  ∃ epr1 merged h',
    (mq1, Some epr1) ∈ Memory._storage (memory s) ∧
    swapping_succeeded epr epr1 new_epr (eprs s') = Done tt h' ∧
    candidates_at new_epr h' = Some merged ∧
    fe_path_id fe ∈ merged.
Proof.
  intros Hq Hch He Hsel Hrun [en Hen].
  pose proof (find_swap_candidate_inv rnd s addr epr fib_entry qubit ch e
                Hq Hch He Hsel) as Hinv.
  rewrite Hrun in Hinv.
  destruct (select_swap_qubit _ _ _ _ _) as [[mq epr1]|]; [|done].
  destruct Hinv as (Hin & e1 & ids & ids1 & chosen & He1 & Hids & Hids1
                    & Hchosen & Heq).
  destruct (fib_get (fib s) chosen) as [err|fe'] eqn:Hfib; [done|].
  injection Heq as -> -> ->.
  apply fib_get_path_id in Hfib. subst chosen.
  apply swap_candidates_elem_of in Hin as (Hslot & _). simpl in Hslot.
  exists epr1.
  (* the two candidate sets after the search *)
  assert (Hafter : ∃ ea eb a b,
            eprs (committed (fe_path_id fe') epr epr1 s) !! epr = Some ea ∧
            eprs (committed (fe_path_id fe') epr epr1 s) !! epr1 = Some eb ∧
            tmp_path_ids ea = Some a ∧ tmp_path_ids eb = Some b ∧
            fe_path_id fe' ∈ a ∩ b).
  { unfold committed. destruct (coordinated_decisions s); simpl.
    - pose proof (committed_lookup (eprs s) epr epr1 epr e {[fe_path_id fe']}
                    He (or_introl eq_refl)) as Ha.
      pose proof (committed_lookup (eprs s) epr epr1 epr1 e1 {[fe_path_id fe']}
                    He1 (or_intror eq_refl)) as Hb.
      destruct (alter _ epr1 (alter _ epr (eprs s)) !! epr) as [ea|];
        [|discriminate].
      destruct (alter _ epr1 (alter _ epr (eprs s)) !! epr1) as [eb|];
        [|discriminate].
      simpl in Ha, Hb. injection Ha as Ha. injection Hb as Hb.
      exists ea, eb, {[fe_path_id fe']}, {[fe_path_id fe']}.
      repeat split; try done.
      apply elem_of_intersection. split; by apply elem_of_singleton.
    - exists e, e1, ids, ids1. done. }
  destruct Hafter as (ea & eb & a & b & Hea & Heb & Hta & Htb & Hmem).
  destruct (intersect_tmp_path_ids_spec ea eb a b Hta Htb) as [Hok _].
  assert (Hne : a ∩ b ≠ ∅).
  { intros Hempty. rewrite Hempty in Hmem. by apply not_elem_of_empty in Hmem. }
  exists (a ∩ b). eexists. split; [done|]. split; [|split; [|done]].
  - unfold swapping_succeeded, deref.
    unfold mbind, M_bind, bind, modify, lift_sum, ret.
    rewrite Hea, Heb, Hen, (Hok Hne). reflexivity.
  - unfold candidates_at. rewrite lookup_alter_eq, Hen. done.
Qed.

Lemma swap_candidate_can_be_merged_witness :
  ∃ epr1 merged h',
    (qubit_BC, Some epr1) ∈ Memory._storage (memory merge_mux) ∧
    swapping_succeeded 0%nat epr1 2%nat (eprs merge_mux) = Done tt h' ∧
    candidates_at 2%nat h' = Some merged ∧
    1 ∈ merged.
Proof.
  refine (swap_candidate_can_be_merged 0 merge_mux merge_mux 0 0%nat 2%nat None
            qubit_AB qubit_BC (mkFibEntry 1 ["A"; "B"; "C"] [1; 0; 1] 0) "qAB"
            (epr_with (Some {[1; 2]})) _ _ _ _ _ _).
  - reflexivity.
  - reflexivity.
  - reflexivity.
  - exact I.
  - vm_compute. reflexivity.
  - by eexists.
Defined.

(** X10. After [swapping_succeeded] has merged two half-pairs with candidate
    sets [a] and [b], a path id conflicts with the merged pair, in the
    mode without coordinated decisions, exactly when it was missing from
    [a] or from [b]; a path id in both never conflicts, in either mode. *)
Theorem conflict_after_swap
    (h h' : EprStore) (x y z : EprRef) (ex ey : WernerStateEntanglement)
    (a b : gset PathId) :
  h !! x = Some ex -> h !! y = Some ey ->
  tmp_path_ids ex = Some a -> tmp_path_ids ey = Some b ->
  swapping_succeeded x y z h = Done tt h' ->
  ∃ ez, h' !! z = Some ez ∧
        (∀ p, su_parallel_has_conflict false ez p
                = inr (bool_decide (p ∉ a ∨ p ∉ b))) ∧
        (∀ coordinated p, p ∈ a -> p ∈ b ->
           su_parallel_has_conflict coordinated ez p = inr false).
Proof.
  intros Hx Hy Ha Hb Hrun.
  unfold swapping_succeeded, deref in Hrun.
  unfold mbind, M_bind, bind, modify, lift_sum, ret, raise in Hrun.
  rewrite Hx, Hy in Hrun.
  destruct (h !! z) as [ez|] eqn:Hz; [|discriminate].
  unfold intersect_tmp_path_ids in Hrun. rewrite Ha, Hb in Hrun.
  destruct (decide (a ∩ b = ∅)); [discriminate|].
  injection Hrun as <-.
  exists (set_tmp_path_ids (Some (a ∩ b)) ez).
  split; [by rewrite lookup_alter_eq, Hz|].
  unfold su_parallel_has_conflict. simpl. split.
  - intros p. destruct (decide (p ∉ a ∩ b)) as [Hn|Hn]; simpl.
    + rewrite bool_decide_eq_true_2; [done|].
      destruct (decide (p ∈ a)); [|by left].
      right. intros Hpb. apply Hn. by apply elem_of_intersection.
    + rewrite bool_decide_eq_false_2; [done|].
      intros [Hna|Hnb]; apply Hn; intros Hin;
        apply elem_of_intersection in Hin as [? ?]; done.
  - intros coordinated p Hpa Hpb.
    rewrite decide_False; [done|].
    intros Hn. apply Hn. by apply elem_of_intersection.
Qed.

Lemma conflict_after_swap_witness :
  ∃ ez, final_state (swapping_succeeded 0%nat 1%nat 2%nat (store3 {[1; 2]} {[1]}))
          !! 2%nat = Some ez ∧
        su_parallel_has_conflict false ez 1 = inr false.
Proof.
  destruct (conflict_after_swap (store3 {[1; 2]} {[1]})
              (final_state (swapping_succeeded 0%nat 1%nat 2%nat
                              (store3 {[1; 2]} {[1]})))
              0%nat 1%nat 2%nat (epr_with (Some {[1; 2]})) (epr_with (Some {[1]}))
              {[1; 2]} {[1]})
    as (ez & Hz & _ & Hno).
  - reflexivity.
  - reflexivity.
  - reflexivity.
  - reflexivity.
  - vm_compute. reflexivity.
  - exists ez. split; [exact Hz|]. apply Hno; set_solver.
Defined.

(** X11. [MuxSchemeStatistical.validate_path_instructions] accepts a set of
    instructions exactly when the base validation accepts it, it has no
    ["m_v"] entry, its swap sequence is [1, 0, ..., 0, 1] and its
    purification scheme is all zeros; a swap sequence of fewer than two
    entries that gets that far raises [ValueError]. *)
Theorem validate_path_instructions_accepts
    (validate_base : PathInstructions -> exn + unit)
    (instructions : PathInstructions) :
  (validate_path_instructions validate_base instructions = inr tt ↔
     validate_base instructions = inr tt ∧
     pi_has_m_v instructions = false ∧
     swap_at_ends_only (pi_swap instructions) ∧
     Forall (fun r => r = 0) (pi_purif instructions)) ∧
  (validate_base instructions = inr tt -> pi_has_m_v instructions = false ->
   (length (pi_swap instructions) < 2)%nat ->
   validate_path_instructions validate_base instructions = inl ValueError).
Proof.
  unfold validate_path_instructions, swap_at_ends_only, and_then, assert_pure,
    unpack_ends.
  destruct instructions as [swap purif m_v]; simpl.
  assert (Hzeros : ∀ l : list Z,
            forallb (fun s => bool_decide (s = 0)) l = true ↔
            Forall (fun r => r = 0) l).
  { intros l. rewrite forallb_forall, Forall_forall. split.
    - intros H x Hx. apply list_elem_of_In in Hx.
      specialize (H x Hx). by apply bool_decide_eq_true in H.
    - intros H x Hx. apply bool_decide_eq_true, H. by apply list_elem_of_In. }
  assert (Hends : ∀ (rest : list Z) s2,
            last rest = Some s2 -> rest = removelast rest ++ [s2]).
  { intros rest s2 Hlast. apply last_Some in Hlast as [l' ->].
    by rewrite removelast_last. }
  split.
  - destruct (validate_base _) as [err|[]]; [by split; [|intros [? _]]|].
    destruct m_v; simpl; [by split; [|intros (_ & ? & _)]|].
    destruct swap as [|s0 rest]; simpl.
    { split; [done|]. by intros (_ & _ & [n Hn] & _). }
    destruct (last rest) as [s2|] eqn:Hlast.
    2:{ split; [done|]. intros (_ & _ & [n Hn] & _).
        injection Hn as -> ->. by rewrite last_snoc in Hlast. }
    pose proof (Hends rest s2 Hlast) as Hrest.
    destruct (bool_decide (s0 = 1) && bool_decide (1 = s2)) eqn:Hb; simpl.
    2:{ split; [done|]. intros (_ & _ & [n Hn] & _).
        injection Hn as -> Hn. rewrite Hn, last_snoc in Hlast.
        injection Hlast as <-. done. }
    apply andb_true_iff in Hb as [H0 H2].
    apply bool_decide_eq_true in H0, H2. subst s0 s2.
    destruct (forallb _ (removelast rest)) eqn:Hz; simpl.
    2:{ split; [done|]. intros (_ & _ & [n Hn] & _).
        injection Hn as Hn. rewrite Hn, removelast_last in Hz.
        assert (forallb (fun s => bool_decide (s = 0)) (replicate n 0) = true)
          as Hr.
        { apply Hzeros, Forall_forall. intros x Hx.
          by apply elem_of_replicate in Hx as [-> _]. }
        congruence. }
    apply Hzeros in Hz.
    destruct (forallb _ purif) eqn:Hp; simpl.
    + apply Hzeros in Hp. split; [|done]. intros _.
      repeat split; try done.
      exists (length (removelast rest)). rewrite Hrest at 1. do 2 f_equal.
      clear -Hz. induction Hz as [|x l -> _ IH]; simpl; [done|].
      by rewrite <- IH.
    + split; [done|]. intros (_ & _ & _ & Hp'). apply Hzeros in Hp'. congruence.
  - intros -> -> Hlen. simpl.
    destruct swap as [|s0 [|s1 rest]]; simpl in *; try done. lia.
Qed.

Lemma validate_path_instructions_accepts_witness :
  validate_path_instructions (fun _ => inr tt) (mkInstructions [1; 0; 0; 1] [0; 0; 0] false)
    = inr tt.
Proof.
  apply (proj1 (validate_path_instructions_accepts _ _)).
  split; [reflexivity|]. split; [reflexivity|]. split.
  - by exists 2%nat.
  - by repeat constructor.
Defined.

End more_swap.

(** ** Active channels of the link layer *)

Section more_channels.
Import Memory LinkLayer.

Ltac run :=
  unfold mbind, M_bind, bind, mret, M_ret, ret, modify, get_state, assert,
    raise, or_raise, add_event, send; simpl.

Lemma for_each_preserves {A B} (P : World -> Prop) (f : A -> M World B)
    (l : list A) :
  (∀ a w, P w -> P (final_state (f a w))) ->
  ∀ w, P w -> P (final_state (Mux.for_each f l w)).
Proof.
  intros Hf. induction l as [|a l IH]; intros w Hw; simpl; [done|].
  unfold mbind, M_bind, bind.
  specialize (Hf a w Hw).
  destruct (f a w) as [b w1|e w1]; simpl in *; [|done].
  specialize (IH w1 Hf).
  destruct (Mux.for_each f l w1) as [bs w2|e w2]; simpl in *; done.
Qed.

Lemma start_reservation_channels env key next_hop qchannel addr w :
  active_channels
    (ll (final_state (start_reservation env key next_hop qchannel addr w)))
  = active_channels (ll w).
Proof.
  unfold start_reservation, the_qubit. run.
  destruct (bool_decide _); simpl; [|done].
  destruct (qubit_at _ _); simpl; [|done].
  by destruct (get_cchannel env next_hop).
Qed.

Lemma run_active_channel_channels env key_for qchannel path_id next_hop w :
  active_channels
    (ll (final_state (run_active_channel env key_for qchannel path_id next_hop w)))
  = active_channels (ll w).
Proof.
  unfold run_active_channel. run.
  match goal with
  | |- context [Mux.for_each ?f ?l w] =>
      pose proof (for_each_preserves
        (fun w' => active_channels (ll w') = active_channels (ll w)) f l) as H
  end.
  match type of H with
  | ?A -> _ => assert (Hbody : A)
  end.
  { intros s w0 Hw0. unfold the_qubit. run.
    destruct (qubit_at _ _) as [qb|]; simpl; [|done].
    destruct (negb _ || negb _); simpl; [done|].
    destruct (bool_decide (mq_active qb = None)); simpl; [|done].
    destruct (bool_decide (s.2 = None)); simpl; [|done].
    by rewrite start_reservation_channels. }
  specialize (H Hbody w eq_refl).
  destruct (Mux.for_each _ _ w) as [bs w1|e w1]; simpl in *; done.
Qed.

Lemma positive_counts_intro ac pe fi et de :
  (∀ key neighbor n, ac !! key = Some (neighbor, n) -> (0 < n)%nat) ->
  positive_counts (mkLL ac pe fi et de).
Proof. intros H. exact H. Qed.

(** X12. The insertion counts stay positive: whatever
    [handle_manage_active_channels] does with a start or a stop event, and
    whether it returns or raises, a table with counts of at least 1 is left
    as one; a stop event for a channel and path that are not in the table
    raises [KeyError] and changes nothing. *)
Theorem manage_active_channels_keeps_counts
    (env : Env) (key_for : nat -> string) (start : bool)
    (qchannel : ChannelName) (path_id : option PathId) (neighbor : NodeName)
    (w : World) :
  positive_counts (ll w) ->
  positive_counts
    (ll (final_state (handle_manage_active_channels env key_for start
                        qchannel path_id neighbor w))) ∧
  (start = false ->
   active_channels (ll w) !! (qchannel, path_id) = None ->
   handle_manage_active_channels env key_for start qchannel path_id neighbor w
     = Raised KeyError w).
Proof.
  intros Hpos. split.
  - unfold handle_manage_active_channels. destruct start.
    + unfold add_active_channel. run.
      set (n := S (default (neighbor, 0%nat)
                     (active_channels (ll w) !! (qchannel, path_id))).2).
      set (w1 := with_ll _ w).
      assert (Hpos1 : positive_counts (ll w1)).
      { unfold w1. simpl. apply positive_counts_intro. intros key nb m Hkey.
        destruct (decide (key = (qchannel, path_id))) as [->|Hne].
        - rewrite lookup_insert_eq in Hkey. injection Hkey as _ <-.
          unfold n. lia.
        - rewrite lookup_insert_ne in Hkey by done. by eapply Hpos. }
      destruct (bool_decide (1 < n)%nat).
      * by destruct (bool_decide (path_id = None)).
      * destruct (is_async env); [|done].
        pose proof (run_active_channel_channels env key_for qchannel path_id
                      neighbor w1) as Hch.
        destruct (run_active_channel _ _ _ _ _ w1) as [[] w2|e w2];
          simpl in *; unfold positive_counts; by rewrite Hch.
    + unfold remove_active_channel. run.
      destruct (active_channels (ll w) !! (qchannel, path_id))
        as [[nb n]|] eqn:Hkey; simpl; [|done].
      apply positive_counts_intro. intros key nb' m Hm.
      destruct (decide (key = (qchannel, path_id))) as [->|Hne].
      * destruct (bool_decide (Nat.pred n = 0%nat)) eqn:Hn.
        -- by rewrite lookup_delete_eq in Hm.
        -- rewrite lookup_insert_eq in Hm. injection Hm as _ <-.
           apply bool_decide_eq_false in Hn. lia.
      * destruct (bool_decide (Nat.pred n = 0%nat)).
        -- rewrite lookup_delete_ne in Hm by done. by eapply Hpos.
        -- rewrite lookup_insert_ne in Hm by done. by eapply Hpos.
  - intros -> Hkey. unfold handle_manage_active_channels, remove_active_channel.
    run. by rewrite Hkey.
Qed.

Lemma manage_active_channels_keeps_counts_witness :
  positive_counts
    (ll (final_state (handle_manage_active_channels async_env demo_key_for true
                        "qc" None "B" sync_world))).
Proof.
  refine (proj1 (manage_active_channels_keeps_counts async_env demo_key_for true
                   "qc" None "B" sync_world _)).
  intros key neighbor n H. simpl in H.
  apply lookup_singleton_Some in H as [_ H]. injection H as _ <-. lia.
Defined.

(** X13. A start event for a channel and path that are already in the
    table starts no reservation: without path id it only stores the
    neighbour with the count raised by one; with a path id it stores the
    same and then fails the assertion. *)
Theorem add_active_channel_again
    (env : Env) (key_for : nat -> string) (qchannel : ChannelName)
    (path_id : option PathId) (neighbor neighbor0 : NodeName) (n : nat)
    (w : World) :
  active_channels (ll w) !! (qchannel, path_id) = Some (neighbor0, n) ->
  (0 < n)%nat ->
  let w1 := with_channels (<[(qchannel, path_id) := (neighbor, S n)]>) w in
  (path_id = None ->
     add_active_channel env key_for qchannel path_id neighbor w = Done tt w1) ∧
  (path_id ≠ None ->
     add_active_channel env key_for qchannel path_id neighbor w
       = Raised AssertionError w1).
Proof.
  intros Hkey Hn w1. unfold add_active_channel. run. rewrite Hkey. simpl.
  rewrite bool_decide_eq_true_2 by lia.
  split; intros Hp.
  - by rewrite bool_decide_eq_true_2.
  - by rewrite bool_decide_eq_false_2.
Qed.

Lemma add_active_channel_again_witness :
  add_active_channel async_env demo_key_for "qc" None "B" sync_world
    = Done tt (with_channels (<[("qc", None) := ("B", 2%nat)]>) sync_world).
Proof.
  refine (proj1 (add_active_channel_again async_env demo_key_for "qc" None "B"
                   "B" 1 sync_world _ _) _).
  - reflexivity.
  - lia.
  - reflexivity.
Defined.

(** X14. A start event followed by the stop event for the same channel,
    path and neighbour leaves the whole link layer as it was, when the
    channel was not active and the timing mode is synchronous, and when
    the channel was active without path id for the same neighbour. *)
Theorem start_then_stop_restores
    (env : Env) (key_for : nat -> string) (qchannel : ChannelName)
    (path_id : option PathId) (neighbor : NodeName) (w : World) :
  (active_channels (ll w) !! (qchannel, path_id) = None ∧ is_async env = false) ∨
  (∃ n, active_channels (ll w) !! (qchannel, path_id) = Some (neighbor, S n) ∧
        path_id = None) ->
  start_then_stop env key_for qchannel path_id neighbor w = Done true w.
Proof.
  destruct w as [[ac pe fi et de] mem ep ev se].
  unfold start_then_stop, handle_manage_active_channels, add_active_channel,
    remove_active_channel. run.
  intros [[Hkey Hsync]|(n & Hkey & ->)]; rewrite Hkey; simpl.
  - rewrite Hsync. simpl. rewrite lookup_insert_eq. simpl.
    unfold with_ll; simpl.
    rewrite delete_insert_eq. by rewrite delete_id.
  - rewrite lookup_insert_eq. simpl. unfold with_ll; simpl.
    rewrite insert_insert_eq. by rewrite insert_id.
Qed.

Lemma start_then_stop_restores_witness :
  start_then_stop demo_env_sync demo_key_for "qc" None "B" demo_world
    = Done true demo_world.
Proof.
  apply start_then_stop_restores. left. split; reflexivity.
Defined.

End more_channels.

(** ** The life of a reservation *)

Section more_reservations.
Import Memory LinkLayer.

Ltac run :=
  unfold mbind, M_bind, bind, mret, M_ret, ret, modify, get_state, assert,
    raise, or_raise, add_event, send; simpl.

Lemma start_reservation_inv env key next_hop qchannel addr w w1 :
  start_reservation env key next_hop qchannel addr w = Done tt w1 ->
  ∃ q cchannel,
    qubit_at addr (memory w) = Some q ∧
    pending_init_reservation (ll w) !! key = None ∧
    get_cchannel env next_hop = Some cchannel ∧
    w1 = reserving env key next_hop qchannel addr cchannel q w.
Proof.
  intros Hrun.
  destruct (qubit_at addr (memory w)) as [q|] eqn:Hq.
  - rewrite (start_reservation_spec _ _ _ _ _ _ _ Hq) in Hrun.
    destruct (pending_init_reservation (ll w) !! key); [done|].
    destruct (get_cchannel env next_hop) as [cchannel|]; [|done].
    injection Hrun as <-. by exists q, cchannel.
  - exfalso. unfold start_reservation, the_qubit in Hrun.
    unfold mbind, M_bind, bind, mret, M_ret, ret, modify, get_state, assert,
      raise in Hrun; simpl in Hrun.
    destruct (bool_decide _); simpl in Hrun; [|done].
    by rewrite qubit_at_update_eq, Hq in Hrun.
Qed.

(** X15. [start_reservation] for an existing qubit and a reachable
    neighbour: with a key that is already pending it fails the assertion
    and changes nothing; with a fresh key it marks the qubit [ACTIVE] under
    the key, records the reservation under the key, sends
    [RESERVE_QUBIT(path_id, key)] with the qubit's path id, and leaves all
    other qubits alone; the same key can then not be started again. *)
Theorem start_reservation_registers_key
    (env : Env) (key : string) (next_hop : NodeName) (qchannel : ChannelName)
    (addr : nat) (cchannel : CChannelName) (q : MemoryQubit) (w : World) :
  qubit_at addr (memory w) = Some q ->
  get_cchannel env next_hop = Some cchannel ->
  (is_Some (pending_init_reservation (ll w) !! key) ->
     start_reservation env key next_hop qchannel addr w
       = Raised AssertionError w) ∧
  (pending_init_reservation (ll w) !! key = None ->
     ∃ w1, start_reservation env key next_hop qchannel addr w = Done tt w1 ∧
           qubit_at addr (memory w1)
             = Some (set_active (Some key) (set_state ACTIVE q)) ∧
           (∀ a, a ≠ addr -> qubit_at a (memory w1) = qubit_at a (memory w)) ∧
           pending_init_reservation (ll w1)
             = <[key := (qchannel, next_hop, addr)]>
                 (pending_init_reservation (ll w)) ∧
           sent w1 = sent w ++ [reserve_request env cchannel next_hop q key] ∧
           (∀ next_hop' qchannel' addr',
              start_reservation env key next_hop' qchannel' addr' w1
                = Raised AssertionError w1)).
Proof.
  intros Hq Hcc. rewrite (start_reservation_spec _ _ _ _ _ _ _ Hq). split.
  - by intros [p ->].
  - intros ->. rewrite Hcc. eexists. split; [reflexivity|].
    split; [simpl; by rewrite qubit_at_update_eq, Hq|].
    split; [intros a Ha; simpl; by rewrite qubit_at_update_ne|].
    split; [done|]. split; [done|].
    intros next_hop' qchannel' addr'.
    unfold start_reservation. run.
    rewrite lookup_insert_eq. by rewrite bool_decide_eq_false_2.
Qed.

Lemma start_reservation_registers_key_witness :
  ∃ w1, start_reservation async_env "r0" "B" "qc" 0 idle_world = Done tt w1 ∧
        qubit_at 0 (memory w1)
          = Some (mkQubit 0 ACTIVE (Some "qc") None (Some "r0")) ∧
        sent w1 = [reserve_request async_env "cc" "B"
                     (mkQubit 0 RAW (Some "qc") None None) "r0"].
Proof.
  destruct (proj2 (start_reservation_registers_key async_env "r0" "B" "qc" 0
                     "cc" (mkQubit 0 RAW (Some "qc") None None) idle_world
                     eq_refl eq_refl) eq_refl)
    as (w1 & Hrun & Hq & _ & _ & Hsent & _).
  exists w1. split; [exact Hrun|]. split; [exact Hq|exact Hsent].
Defined.

Lemma handle_reserve_res_unknown_key env k name msg w :
  pending_init_reservation (ll w) !! msg_key msg = None ->
  handle_reserve_res env k name msg w = Raised KeyError w.
Proof. intros Hp. unfold handle_reserve_res. run. by rewrite Hp. Qed.

(** X16. A started reservation is consumed by the first [RESERVE_QUBIT_OK]
    that carries its key, and only by that one: [handle_reserve_res]
    returns, the table of pending reservations is as it was before
    [start_reservation], the qubit is [RESERVED] under the key, and a
    second [RESERVE_QUBIT_OK] with the same key raises [KeyError] with
    nothing changed. *)
Theorem reserve_ok_consumes_reservation
    (env : Env) (key : string) (next_hop : NodeName) (qchannel : ChannelName)
    (addr : nat) (w w1 : World) (k : Z) (name : string)
    (path_id : option PathId) :
  start_reservation env key next_hop qchannel addr w = Done tt w1 ->
  ∃ w2, handle_reserve_res env k name (mkMsg RESERVE_QUBIT_OK path_id key) w1
          = Done tt w2 ∧
        pending_init_reservation (ll w2) = pending_init_reservation (ll w) ∧
        mq_state <$> qubit_at addr (memory w2) = Some RESERVED ∧
        mq_active <$> qubit_at addr (memory w2) = Some (Some key) ∧
        (∀ k' name' path_id',
           handle_reserve_res env k' name' (mkMsg RESERVE_QUBIT_OK path_id' key) w2
             = Raised KeyError w2).
Proof.
  intros Hstart.
  apply start_reservation_inv in Hstart as (q & cchannel & Hq & Hfresh & Hcc & ->).
  unfold handle_reserve_res, generate_entanglement, the_qubit, reserving.
  run. rewrite lookup_insert_eq. simpl.
  rewrite qubit_at_update_eq, Hq. simpl.
  rewrite bool_decide_eq_true_2 by done. simpl.
  rewrite !qubit_at_update_eq, Hq. simpl.
  destruct (link_delays env qchannel k) as [[d_c d_a] d_b].
  assert (Hpend : delete key (<[key := (qchannel, next_hop, addr)]>
                                (pending_init_reservation (ll w)))
                  = pending_init_reservation (ll w)).
  { rewrite delete_insert_eq. by apply delete_id. }
  destruct (negb (is_external env _)); simpl.
  all: eexists; split; [reflexivity|].
  all: match goal with
       | |- pending_init_reservation (ll ?W) = _ ∧ _ => set (w2 := W)
       end.
  all: assert (Hp2 : pending_init_reservation (ll w2)
                     = pending_init_reservation (ll w)) by exact Hpend.
  all: split; [exact Hp2|].
  all: split; [unfold w2; simpl; by rewrite !qubit_at_update_eq, Hq|].
  all: split; [unfold w2; simpl; by rewrite !qubit_at_update_eq, Hq|].
  all: intros k' name' path_id'.
  all: by rewrite Hp2, Hfresh.
Qed.

Lemma reserve_ok_consumes_reservation_witness :
  ∃ w2, handle_reserve_res async_env 4 "e" (mkMsg RESERVE_QUBIT_OK None "r0")
          (reserving async_env "r0" "B" "qc" 0 "cc"
             (mkQubit 0 RAW (Some "qc") None None) idle_world)
          = Done tt w2 ∧
        pending_init_reservation (ll w2) = ∅ ∧
        mq_state <$> qubit_at 0 (memory w2) = Some RESERVED.
Proof.
  destruct (reserve_ok_consumes_reservation async_env "r0" "B" "qc" 0 idle_world
              (reserving async_env "r0" "B" "qc" 0 "cc"
                 (mkQubit 0 RAW (Some "qc") None None) idle_world)
              4 "e" None)
    as (w2 & Hrun & Hpend & Hstate & _).
  - reflexivity.
  - exists w2. split; [exact Hrun|]. split; [exact Hpend|exact Hstate].
Defined.

End more_reservations.

(** ** Accepting and serving reservation requests *)

Section more_requests.
Import Memory LinkLayer.

Ltac run :=
  unfold mbind, M_bind, bind, mret, M_ret, ret, modify, get_state, assert,
    raise, or_raise, add_event, send; simpl.

Lemma truthy_nonempty key : key ≠ EmptyString -> truthy (Some key) = true.
Proof.
  intros Hne. unfold truthy. apply negb_true_iff.
  by apply String.eqb_neq.
Qed.

(** X17. No double booking: once a request with a non-empty key has been
    accepted on a slot, that slot satisfies the reservation test of no
    request, so that any later acceptance takes another slot; the memory
    stays well addressed. *)
Theorem accepted_slot_is_taken
    (env : Env) (req : ReservationRequest) (w : World) (i : nat)
    (q : MemoryQubit) (v : option EprRef) :
  well_addressed (memory w) ->
  first_reservable req (memory w) = Some (i, (q, v)) ->
  req_key req ≠ EmptyString ->
  ∃ w', try_accept_reservation env req w = Done true w' ∧
        well_addressed (memory w') ∧
        (∀ req' s, _storage (memory w') !! i = Some s ->
                   reservable req' (s.1) (s.2) = false) ∧
        (∀ req' j s, first_reservable req' (memory w') = Some (j, s) -> j ≠ i).
Proof.
  intros Hwa Hfind Hkey.
  pose proof (try_accept_reservation_spec env req w Hwa) as Hrun.
  rewrite Hfind in Hrun.
  unfold first_reservable in Hfind.
  apply list_find_Some in Hfind as (Hi & _ & _).
  pose proof (lookup_lt_Some _ _ _ Hi) as Hlt.
  exists (accepted env req i q w). split; [done|].
  assert (Hslot : _storage (memory (accepted env req i q w)) !! i
                  = Some (reserved_for req q, None)).
  { unfold accepted; simpl. by apply list_lookup_insert_eq. }
  assert (Hbusy : ∀ req' s,
            _storage (memory (accepted env req i q w)) !! i = Some s ->
            reservable req' (s.1) (s.2) = false).
  { intros req' s Hs. rewrite Hslot in Hs. injection Hs as <-.
    unfold reservable.
    replace (mq_active ((reserved_for req q, @None EprRef).1))
      with (Some (req_key req)) by reflexivity.
    rewrite (truthy_nonempty _ Hkey). simpl negb.
    by rewrite andb_false_r. }
  split; [|split; [done|]].
  - intros j s. unfold accepted; simpl.
    destruct (decide (i = j)) as [<-|Hne].
    + rewrite list_lookup_insert_eq by done. intros [= <-]. simpl.
      by apply (Hwa i (q, v)).
    + rewrite list_lookup_insert_ne by done. apply Hwa.
  - intros req' j s Hfind' ->.
    unfold first_reservable in Hfind'.
    apply list_find_Some in Hfind' as (Hs & Hp & _).
    rewrite (Hbusy req' s Hs) in Hp. done.
Qed.

Lemma accepted_slot_is_taken_witness :
  ∃ w', try_accept_reservation env_B (mkReq "k9" None "cc" "A" "qc") responder_world
          = Done true w' ∧
        well_addressed (memory w') ∧
        (∀ req' j s, first_reservable req' (memory w') = Some (j, s) -> j ≠ 1%nat).
Proof.
  destruct (accepted_slot_is_taken env_B (mkReq "k9" None "cc" "A" "qc")
              responder_world 1 (mkQubit 1 RAW (Some "qc") None None) None)
    as (w' & Hrun & Hwa & _ & Hother).
  - exact responder_world_well_addressed.
  - reflexivity.
  - done.
  - exists w'. split; [exact Hrun|]. split; [exact Hwa|exact Hother].
Defined.

(** X18. A queued request is served as soon as a qubit it can use is
    released: when a qubit on the responder side (its channel and path are
    not in the active-channel table) is released or decoheres with its
    slot empty, and the oldest queued request is for that qubit's channel
    and path id, the handler returns, that request leaves the queue, its
    [RESERVE_QUBIT_OK] is sent, and a slot not after the released one is
    [RESERVED] under the request's key. *)
Theorem release_serves_oldest_request
    (env : Env) (key : string) (is_decoh : bool) (addr : nat) (w : World)
    (q : MemoryQubit) (qchannel : ChannelName)
    (req : ReservationRequest) (rest : list ReservationRequest) :
  well_addressed (memory w) ->
  _storage (memory w) !! addr = Some (q, None) ->
  mq_qchannel q = Some qchannel ->
  active_channels (ll w) !! (qchannel, mq_path_id q) = None ->
  fifo_reservation_req (ll w) = req :: rest ->
  req_qchannel req = qchannel -> req_path_id req = mq_path_id q ->
  ∃ w' i q',
    handle_decoh_rel env key is_decoh addr w = Done true w' ∧
    fifo_reservation_req (ll w') = rest ∧
    sent w' = sent w ++ [reserve_ok_reply env req] ∧
    (i ≤ addr)%nat ∧
    _storage (memory w') !! i = Some (q', None) ∧
    mq_state q' = RESERVED ∧ mq_active q' = Some (req_key req).
Proof.
  intros Hwa Hslot Hch Hac Hfifo Hrq Hrp.
  assert (Hq : qubit_at addr (memory w) = Some q)
    by (unfold qubit_at; by rewrite Hslot).
  rewrite (handle_decoh_rel_unfold _ _ _ _ _ _ Hq). simpl.
  rewrite Hch, Hac, Hfifo.
  set (w0 := reset_qubit is_decoh addr w).
  pose proof (reset_qubit_well_addressed is_decoh addr w Hwa) as Hwa0.
  destruct (reset_qubit_fifo is_decoh addr w) as [Hfifo0 Hsent0].
  fold w0 in Hwa0, Hfifo0, Hsent0.
  assert (Hslot0 : _storage (memory w0) !! addr
                   = Some (set_active None (set_state RAW q), None)).
  { unfold w0, reset_qubit. destruct is_decoh; simpl;
      rewrite list_lookup_alter_eq; apply fmap_Some; exists (q, None);
      (split; [exact Hslot|reflexivity]). }
  assert (Hres : reservable req (set_active None (set_state RAW q)) None = true).
  { unfold reservable. simpl. rewrite Hch, Hrq, Hrp.
    by rewrite !bool_decide_eq_true_2. }
  pose proof (try_accept_reservation_spec env req w0 Hwa0) as Hacc.
  clearbody w0.
  destruct (first_reservable req (memory w0)) as [[i [q1 v]]|] eqn:Hfind.
  - unfold first_reservable in Hfind.
    apply list_find_Some in Hfind as (Hi & Hp & Hmin).
    exists (with_ll (set_fifo (drop 1)) (accepted env req i q1 w0)), i,
           (reserved_for req q1).
    split; [run; by rewrite Hacc|].
    split; [simpl; by rewrite Hfifo0, Hfifo|].
    split; [simpl; by rewrite Hsent0|].
    split.
    { destruct (decide (i ≤ addr)%nat) as [|Hgt]; [done|].
      exfalso. apply (Hmin addr _ Hslot0); [lia|]. exact Hres. }
    split; [|done].
    simpl. apply list_lookup_insert_eq. by eapply lookup_lt_Some.
  - exfalso. unfold first_reservable in Hfind.
    apply list_find_None in Hfind. rewrite Forall_forall in Hfind.
    apply (Hfind (set_active None (set_state RAW q), None)); [|exact Hres].
    by apply list_elem_of_lookup_2 in Hslot0.
Qed.

Lemma release_serves_oldest_request_witness :
  ∃ w', handle_decoh_rel env_B "k1" false 0 queued_world = Done true w' ∧
        fifo_reservation_req (ll w') = [] ∧
        sent w' = [reserve_ok_reply env_B (mkReq "k9" None "cc" "A" "qc")].
Proof.
  destruct (release_serves_oldest_request env_B "k1" false 0 queued_world
              (mkQubit 0 RELEASE (Some "qc") None (Some "k1")) "qc"
              (mkReq "k9" None "cc" "A" "qc") [])
    as (w' & i & q' & Hrun & Hfifo & Hsent & _).
  - intros i s. destruct i as [|i]; simpl; intros H; by simplify_eq.
  - reflexivity.
  - reflexivity.
  - reflexivity.
  - reflexivity.
  - reflexivity.
  - reflexivity.
  - exists w'. split; [exact Hrun|]. split; [exact Hfifo|exact Hsent].
Defined.

Lemma try_accept_reservation_ll env req w :
  ll (final_state (try_accept_reservation env req w)) = ll w.
Proof.
  unfold try_accept_reservation. run.
  by destruct (next _) as [[qubit d]|].
Qed.

Lemma start_reservation_counters env key next_hop qchannel addr w :
  let l' := ll (final_state (start_reservation env key next_hop qchannel addr w)) in
  etg_count l' = etg_count (ll w) ∧ decoh_count l' = decoh_count (ll w) ∧
  active_channels l' = active_channels (ll w).
Proof.
  unfold start_reservation, the_qubit. run.
  destruct (bool_decide _); simpl; [|done].
  destruct (qubit_at _ _); simpl; [|done].
  by destruct (get_cchannel env next_hop).
Qed.

(** X19. [handle_decoh_rel] on an existing qubit counts decoherences and
    nothing else: whether it returns or raises, [decoh_count] has grown by
    one for a [QubitDecoheredEvent] and not at all for a
    [QubitReleasedEvent], and [etg_count] and the active-channel table are
    as before. *)
Theorem handle_decoh_rel_counters
    (env : Env) (key : string) (is_decoh : bool) (addr : nat) (w : World)
    (q : MemoryQubit) :
  qubit_at addr (memory w) = Some q ->
  let l' := ll (final_state (handle_decoh_rel env key is_decoh addr w)) in
  decoh_count l' = (decoh_count (ll w) + if is_decoh then 1 else 0)%nat ∧
  etg_count l' = etg_count (ll w) ∧
  active_channels l' = active_channels (ll w).
Proof.
  intros Hq. rewrite (handle_decoh_rel_unfold _ _ _ _ _ _ Hq). simpl.
  set (w0 := reset_qubit is_decoh addr w).
  assert (H0 : decoh_count (ll w0)
               = (decoh_count (ll w) + if is_decoh then 1 else 0)%nat ∧
               etg_count (ll w0) = etg_count (ll w) ∧
               active_channels (ll w0) = active_channels (ll w)).
  { unfold w0, reset_qubit. destruct is_decoh; simpl; repeat split; lia. }
  destruct H0 as (Hd & He & Ha).
  destruct (mq_qchannel q) as [qc|]; simpl; [|done].
  destruct (active_channels (ll w) !! (qc, mq_path_id q)) as [[nh c]|].
  - run. destruct (is_async env).
    + destruct (start_reservation_counters env key nh qc addr w0)
        as (He1 & Hd1 & Ha1).
      destruct (start_reservation _ _ _ _ _ w0) as [[] w1|e w1]; simpl in *;
        rewrite He1, Hd1, Ha1; done.
    + by destruct is_decoh.
  - destruct (fifo_reservation_req (ll w)) as [|req rest]; simpl; [done|].
    run. pose proof (try_accept_reservation_ll env req w0) as Hll.
    destruct (try_accept_reservation env req w0) as [[] w1|e w1];
      simpl in *; rewrite Hll; done.
Qed.

Lemma handle_decoh_rel_counters_witness :
  decoh_count (ll (final_state (handle_decoh_rel demo_env_sync "k2" true 0 sync_world)))
    = 1%nat.
Proof.
  refine (proj1 (handle_decoh_rel_counters demo_env_sync "k2" true 0 sync_world
                   (mkQubit 0 ENTANGLED0 (Some "qc") None (Some "k1")) _)).
  reflexivity.
Defined.

End more_requests.

(** ** From the reservation to the stored pair *)

Section more_delivery.
Import Memory LinkLayer.

Ltac run :=
  unfold mbind, M_bind, bind, mret, M_ret, ret, modify, get_state, assert,
    raise, or_raise, add_event, send; simpl.

Lemma handle_success_entangle_run env w r epr neighbor i q :
  well_addressed (memory w) ->
  eprs w !! r = Some epr ->
  is_external env None = true ->
  neighbor_of env epr = Some neighbor ->
  epr_decoherence_time epr = None ->
  first_writable (epr_key epr) (memory w) = Some (i, (q, None)) ->
  handle_success_entangle env r w = Done tt (stored env r epr neighbor i q w).
Proof.
  intros Hwa Hr Hext Hnb Hdec Hfind.
  unfold first_writable in Hfind.
  pose proof Hfind as Hfind'.
  apply list_find_Some in Hfind' as (Hi & _ & _).
  pose proof (Hwa _ _ Hi) as Haddr. simpl in Haddr.
  assert (Hins : alter (fun s : Slot => (set_state ENTANGLED0 (s.1), s.2))
                   (mq_addr q) (<[i:=(q, Some r)]> (_storage (memory w)))
                 = <[i:=(set_state ENTANGLED0 q, Some r)]> (_storage (memory w))).
  { rewrite Haddr.
    rewrite (list_alter_lookup_insert _ _ i (q, Some r))
      by (rewrite list_lookup_insert_eq; [done|by eapply lookup_lt_Some]).
    by rewrite list_insert_insert_eq. }
  unfold handle_success_entangle, the_epr, memory_write, write, neighbor_of,
    stored, is_primary in *.
  run. rewrite Hext. simpl. rewrite Hr, Hdec.
  destruct (decide (epr_src epr = Some (own env))) as [Hsrc|Hsrc];
    rewrite Hnb; simpl; rewrite Hfind; simpl.
  - rewrite (bool_decide_eq_true_2 _ Hsrc).
    unfold modify, with_memory, with_ll, update_qubit; simpl. by rewrite Hins.
  - rewrite bool_decide_eq_false_2 by congruence.
    unfold modify, with_memory, with_ll, update_qubit; simpl. by rewrite Hins.
Qed.

(** What [handle_reserve_res] leaves of a reservation that
    [start_reservation] has just made. *)
Lemma handle_reserve_res_after_start env key next_hop qchannel addr
    cchannel q w k name path_id w2 :
  qubit_at addr (memory w) = Some q ->
  handle_reserve_res env k name (mkMsg RESERVE_QUBIT_OK path_id key)
    (reserving env key next_hop qchannel addr cchannel q w) = Done tt w2 ->
  memory w2
    = update_qubit addr (set_state RESERVED)
        (update_qubit addr
           (fun q => set_active (Some key) (set_state ACTIVE q)) (memory w)) ∧
  (∃ t, eprs w2 = <[fresh (dom (eprs w))
                      := new_epr env k name next_hop
                           (set_active (Some key) (set_state RESERVED q)) t]>
                    (eprs w)) ∧
  etg_count (ll w2) = etg_count (ll w) ∧
  (∃ evs, events w2 = events w ++ evs).
Proof.
  intros Hq Hrun.
  unfold handle_reserve_res, generate_entanglement, the_qubit, reserving in Hrun.
  unfold mbind, M_bind, bind, mret, M_ret, ret, modify, get_state, assert,
    raise, or_raise, add_event in Hrun; simpl in Hrun.
  rewrite lookup_insert_eq in Hrun. simpl in Hrun.
  rewrite qubit_at_update_eq, Hq in Hrun. simpl in Hrun.
  rewrite bool_decide_eq_true_2 in Hrun by done. simpl in Hrun.
  rewrite !qubit_at_update_eq, Hq in Hrun. simpl in Hrun.
  destruct (link_delays env qchannel k) as [[d_c d_a] d_b].
  destruct (negb (is_external env _)); simpl in Hrun; injection Hrun as <-;
    simpl; (split; [done|]); (split; [by eexists|]); (split; [done|]).
  - exists []. by rewrite app_nil_r.
  - eexists. by rewrite <- app_assoc.
Qed.

(** X20. The pair lands in the qubit that asked for it. When
    [start_reservation] has reserved a free slot under a key that no other
    slot carries, and [handle_reserve_res] has answered the
    [RESERVE_QUBIT_OK] for that key, then the delivery of the success event
    to the initiator, at any time of the external phase, returns, puts the
    new record into that very slot with the qubit [ENTANGLED0] under the
    key, changes no other slot, raises [etg_count] by one and announces the
    qubit with a [QubitEntangledEvent]. *)
Theorem pair_lands_in_initiating_qubit
    (env : Env) (key : string) (next_hop : NodeName) (qchannel : ChannelName)
    (addr : nat) (w w1 w2 : World) (q : MemoryQubit) (k : Z) (name : string)
    (path_id : option PathId) (t : Time) :
  well_addressed (memory w) ->
  _storage (memory w) !! addr = Some (q, None) ->
  key_only_at key addr (memory w) ->
  start_reservation env key next_hop qchannel addr w = Done tt w1 ->
  handle_reserve_res env k name (mkMsg RESERVE_QUBIT_OK path_id key) w1
    = Done tt w2 ->
  is_external env None = true ->
  let r := fresh (dom (eprs w)) in
  ∃ w3, handle_success_entangle (at_time t env) r w2 = Done tt w3 ∧
        _storage (memory w3) !! addr
          = Some (set_active (Some key) (set_state ENTANGLED0 q), Some r) ∧
        (∀ j, j ≠ addr -> _storage (memory w3) !! j = _storage (memory w) !! j) ∧
        etg_count (ll w3) = S (etg_count (ll w)) ∧
        events w3 = events w2 ++ [QubitEntangledEvent (own env) next_hop addr t].
Proof.
  intros Hwa Hslot Honly Hstart Hres Hext r.
  assert (Hq : qubit_at addr (memory w) = Some q)
    by (unfold qubit_at; by rewrite Hslot).
  apply start_reservation_inv in Hstart as (q' & cchannel & Hq' & _ & _ & ->).
  rewrite Hq in Hq'. injection Hq' as <-.
  destruct (handle_reserve_res_after_start _ _ _ _ _ _ _ _ _ _ _ _ Hq Hres)
    as (Hmem & (t0 & Heprs) & Hetg & _).
  set (q2 := set_active (Some key) (set_state RESERVED q)).
  set (epr := new_epr env k name next_hop q2 t0) in *.
  pose proof (lookup_lt_Some _ _ _ Hslot) as Hlt.
  assert (Haddr : mq_addr q = addr) by apply (Hwa _ _ Hslot).
  assert (Hst2 : _storage (memory w2)
                 = <[addr := (q2, None)]> (_storage (memory w))).
  { rewrite Hmem. unfold update_qubit; simpl.
    rewrite list_alter_alter_eq.
    by rewrite (list_alter_lookup_insert _ _ _ _ Hslot). }
  assert (Hwa2 : well_addressed (memory w2)).
  { rewrite Hmem.
    apply update_qubit_well_addressed; [done|].
    by apply update_qubit_well_addressed. }
  assert (Hfind : first_writable (epr_key epr) (memory w2)
                  = Some (addr, (q2, None))).
  { unfold first_writable. apply list_find_Some. rewrite Hst2.
    split; [by apply list_lookup_insert_eq|]. split.
    - unfold write_matches. simpl. by rewrite !bool_decide_eq_true_2.
    - intros j s Hj Hjlt Hm.
      rewrite list_lookup_insert_ne in Hj by lia.
      unfold write_matches in Hm. simpl in Hm.
      rewrite !andb_true_iff in Hm. destruct Hm as [_ Hk].
      apply bool_decide_eq_true in Hk.
      pose proof (Honly j s Hj Hk). lia. }
  assert (Hr : eprs w2 !! r = Some epr)
    by (rewrite Heprs; apply lookup_insert_eq).
  pose proof (handle_success_entangle_run (at_time t env) w2 r epr next_hop
                addr q2 Hwa2 Hr Hext) as Hrun.
  rewrite Hrun.
  - eexists. split; [reflexivity|]. unfold stored; simpl. rewrite Hst2.
    split; [rewrite list_insert_insert_eq; by apply list_lookup_insert_eq|].
    split; [intros j Hj; by rewrite list_insert_insert_eq, list_lookup_insert_ne|].
    unfold is_primary. simpl. rewrite bool_decide_eq_true_2 by done. simpl.
    split; [by rewrite Hetg|]. by rewrite Haddr.
  - unfold neighbor_of. simpl. by rewrite decide_True.
  - done.
  - exact Hfind.
Qed.

Lemma pair_lands_in_initiating_qubit_witness :
  ∃ w3, handle_success_entangle (at_time 7 async_env)
          (fresh (dom (eprs idle_world)))
          (final_state
             (handle_reserve_res async_env 4 "e" (mkMsg RESERVE_QUBIT_OK None "r0")
                (reserving async_env "r0" "B" "qc" 0 "cc"
                   (mkQubit 0 RAW (Some "qc") None None) idle_world)))
          = Done tt w3 ∧
        _storage (memory w3) !! 0%nat
          = Some (mkQubit 0 ENTANGLED0 (Some "qc") None (Some "r0"),
                  Some (fresh (dom (eprs idle_world)))) ∧
        etg_count (ll w3) = 1%nat.
Proof.
  destruct (pair_lands_in_initiating_qubit async_env "r0" "B" "qc" 0 idle_world
              (reserving async_env "r0" "B" "qc" 0 "cc"
                 (mkQubit 0 RAW (Some "qc") None None) idle_world)
              (final_state
                 (handle_reserve_res async_env 4 "e"
                    (mkMsg RESERVE_QUBIT_OK None "r0")
                    (reserving async_env "r0" "B" "qc" 0 "cc"
                       (mkQubit 0 RAW (Some "qc") None None) idle_world)))
              (mkQubit 0 RAW (Some "qc") None None) 4 "e" None 7)
    as (w3 & Hrun & Hslot & _ & Hcount & _).
  - intros i s. destruct i as [|[|[|i]]]; simpl; intros H; by simplify_eq.
  - reflexivity.
  - intros j s. destruct j as [|[|[|j]]]; simpl; intros H; by simplify_eq.
  - reflexivity.
  - vm_compute. reflexivity.
  - reflexivity.
  - exists w3. split; [exact Hrun|]. split; [exact Hslot|exact Hcount].
Defined.

End more_delivery.

(** ** Activating a channel *)

Section more_activation.
Import Memory LinkLayer.

Ltac run :=
  unfold mbind, M_bind, bind, mret, M_ret, ret, modify, get_state, assert,
    raise, or_raise, add_event, send; simpl.

Lemma run_active_channel_unfold env key_for qchannel path_id next_hop w :
  run_active_channel env key_for qchannel path_id next_hop w =
  match Mux.for_each (run_active_channel_body env key_for qchannel path_id next_hop)
          (get_channel_qubits qchannel (memory w)) w with
  | Done _ w' => Done tt w'
  | Raised e w' => Raised e w'
  end.
Proof. reflexivity. Qed.

Lemma well_addressed_NoDup m (ss : list Slot) :
  well_addressed m ->
  NoDup ss -> (∀ s, s ∈ ss -> s ∈ _storage m) ->
  NoDup (map (fun s : Slot => mq_addr (s.1)) ss).
Proof.
  intros Hwa Hnd Hin. apply NoDup_fmap_2_strong; [|done].
  intros s s' Hs Hs' Heq.
  apply Hin, list_elem_of_lookup in Hs as [i Hi].
  apply Hin, list_elem_of_lookup in Hs' as [i' Hi'].
  pose proof (Hwa _ _ Hi) as Ha. pose proof (Hwa _ _ Hi') as Ha'.
  assert (i = i') as <- by congruence. congruence.
Qed.

(** The loop of [run_active_channel] over a list of snapshots. *)
Lemma run_active_channel_loop env key_for qchannel path_id next_hop cchannel
    (ss : list Slot) :
  get_cchannel env next_hop = Some cchannel ->
  NoDup (map (fun s : Slot => mq_addr (s.1)) ss) ->
  ∀ w,
  (∀ s, s ∈ ss -> _storage (memory w) !! mq_addr (s.1) = Some s) ->
  (∀ s, s ∈ ss -> is_target path_id (s.1) = true ->
        mq_active (s.1) = None ∧ s.2 = None ∧
        pending_init_reservation (ll w) !! key_for (mq_addr (s.1)) = None) ->
  (∀ s s', s ∈ ss -> s' ∈ ss ->
        is_target path_id (s.1) = true -> is_target path_id (s'.1) = true ->
        key_for (mq_addr (s.1)) = key_for (mq_addr (s'.1)) ->
        mq_addr (s.1) = mq_addr (s'.1)) ->
  ∃ bs w',
    Mux.for_each (run_active_channel_body env key_for qchannel path_id next_hop)
      ss w = Done bs w' ∧
    sent w' = sent w ++
      map (request_for env cchannel next_hop key_for)
          (List.filter (fun s : Slot => is_target path_id (s.1)) ss) ∧
    (∀ s, s ∈ ss -> is_target path_id (s.1) = true ->
       _storage (memory w') !! mq_addr (s.1)
         = Some (set_active (Some (key_for (mq_addr (s.1))))
                            (set_state ACTIVE (s.1)), s.2) ∧
       pending_init_reservation (ll w') !! key_for (mq_addr (s.1))
         = Some (qchannel, next_hop, mq_addr (s.1))) ∧
    (∀ a, (∀ s, s ∈ ss -> is_target path_id (s.1) = true -> mq_addr (s.1) ≠ a) ->
       _storage (memory w') !! a = _storage (memory w) !! a) ∧
    (∀ key, (∀ s, s ∈ ss -> is_target path_id (s.1) = true ->
                  key_for (mq_addr (s.1)) ≠ key) ->
       pending_init_reservation (ll w') !! key
         = pending_init_reservation (ll w) !! key).
Proof.
  intros Hcc. induction ss as [|s ss IH]; intros Hnd w Hlive Hfree Hinj.
  { exists [], w. simpl. split; [done|]. split; [by rewrite app_nil_r|].
    split; [intros s Hs; by apply elem_of_nil in Hs|]. done. }
  apply NoDup_cons in Hnd as [Hnotin Hnd].
  assert (Hs : _storage (memory w) !! mq_addr (s.1) = Some s)
    by (apply Hlive; by left).
  assert (Hq : qubit_at (mq_addr (s.1)) (memory w) = Some (s.1))
    by (apply fmap_Some; exists s; by split).
  assert (Hother : ∀ s', s' ∈ ss -> mq_addr (s'.1) ≠ mq_addr (s.1)).
  { intros s' Hs' Heq. apply Hnotin. rewrite <- Heq.
    apply list_elem_of_fmap. by exists s'. }
  simpl. unfold mbind at 1, M_bind at 1, bind at 1.
  unfold run_active_channel_body at 1, the_qubit.
  unfold mbind at 1, M_bind at 1, bind at 1. rewrite Hq.
  fold (is_target path_id (s.1)).
  destruct (is_target path_id (s.1)) eqn:Htarget.
  - (* a reservation is started *)
    destruct (Hfree s (list_elem_of_here _ _) Htarget) as (Hact & Hdata & Hpend).
    replace (negb (bool_decide (mq_path_id (s.1) = path_id))
             || negb (bool_decide (mq_state (s.1) = RAW))) with false
      by (unfold is_target in Htarget; by rewrite <- negb_andb, Htarget).
    unfold assert. rewrite !bool_decide_eq_true_2 by done.
    unfold mbind at 1 2, M_bind at 1 2, bind at 1 2, ret.
    rewrite (start_reservation_spec _ _ _ _ _ _ _ Hq), Hpend, Hcc.
    set (key := key_for (mq_addr (s.1))) in *.
    set (w1 := reserving env key next_hop qchannel (mq_addr (s.1)) cchannel (s.1) w).
    assert (Hst1 : ∀ a, a ≠ mq_addr (s.1) ->
              _storage (memory w1) !! a = _storage (memory w) !! a).
    { intros a Ha. unfold w1, reserving, update_qubit; simpl.
      by rewrite list_lookup_alter_ne. }
    assert (Hhere1 : _storage (memory w1) !! mq_addr (s.1)
              = Some (set_active (Some key) (set_state ACTIVE (s.1)), s.2)).
    { unfold w1, reserving, update_qubit; simpl.
      rewrite list_lookup_alter_eq. apply fmap_Some. exists s. by split. }
    destruct (IH Hnd w1) as (bs & w' & Hrun & Hsent & Htargets & Hrest & Hkeys).
    + intros s' Hs'. rewrite Hst1 by (by apply Hother).
      apply Hlive. by right.
    + intros s' Hs' Ht'.
      destruct (Hfree s' (list_elem_of_further _ _ _ Hs') Ht') as (? & ? & Hp').
      split; [done|]. split; [done|].
      unfold w1, reserving; simpl. rewrite lookup_insert_ne; [done|].
      intros Hk. apply (Hother s' Hs'). symmetry.
      apply Hinj; [by left|by right|done..].
    + intros s1 s2 H1 H2. apply Hinj; by right.
    + exists (tt :: bs), w'. unfold mbind, M_bind, bind.
      rewrite Hrun. split; [done|].
      split.
      { rewrite Hsent. unfold w1, reserving; simpl.
        by rewrite <- app_assoc. }
      split; [|split].
      * intros s' Hs' Ht'. apply elem_of_cons in Hs' as [->|Hs'].
        -- split.
           ++ rewrite Hrest; [done|]. intros s2 H2 _. by apply Hother.
           ++ rewrite Hkeys.
              ** unfold w1, reserving; simpl. apply lookup_insert_eq.
              ** intros s2 H2 Ht2 Hk. apply (Hother s2 H2).
                 apply Hinj; [by right|by left|done..].
        -- by apply Htargets.
      * intros a Ha. rewrite Hrest.
        -- apply Hst1. intros ->. by apply (Ha s (list_elem_of_here _ _)).
        -- intros s' Hs'. apply Ha. by right.
      * intros key' Hk. rewrite Hkeys.
        -- unfold w1, reserving; simpl. rewrite lookup_insert_ne; [done|].
           by apply (Hk s (list_elem_of_here _ _)).
        -- intros s' Hs'. apply Hk. by right.
  - (* the qubit is skipped *)
    replace (negb (bool_decide (mq_path_id (s.1) = path_id))
             || negb (bool_decide (mq_state (s.1) = RAW))) with true
      by (unfold is_target in Htarget; by rewrite <- negb_andb, Htarget).
    unfold ret at 1.
    destruct (IH Hnd w) as (bs & w' & Hrun & Hsent & Htargets & Hrest & Hkeys).
    + intros s' Hs'. apply Hlive. by right.
    + intros s' Hs'. apply Hfree. by right.
    + intros s1 s2 H1 H2. apply Hinj; by right.
    + exists (tt :: bs), w'. unfold mbind, M_bind, bind.
      rewrite Hrun. split; [done|]. split; [done|].
      split; [|split].
      * intros s' Hs' Ht'. apply elem_of_cons in Hs' as [->|Hs'];
          [congruence|by apply Htargets].
      * intros a Ha. apply Hrest. intros s' Hs'. apply Ha. by right.
      * intros key' Hk. apply Hkeys. intros s' Hs'. apply Hk. by right.
Qed.

End more_activation.


Section activation.
Import Memory LinkLayer.

Lemma well_addressed_lookup m (s : Slot) :
  well_addressed m -> s ∈ _storage m ->
  _storage m !! mq_addr (s.1) = Some s.
Proof.
  intros Hwa Hs. apply list_elem_of_lookup in Hs as [i Hi].
  by rewrite (Hwa _ _ Hi).
Qed.

Lemma elem_of_get_channel_qubits qchannel m (s : Slot) :
  s ∈ get_channel_qubits qchannel m -> s ∈ _storage m.
Proof.
  unfold get_channel_qubits. rewrite !list_elem_of_In, filter_In. tauto.
Qed.

Lemma elem_of_channel_targets qchannel path_id m (s : Slot) :
  s ∈ channel_targets qchannel path_id m <->
  s ∈ get_channel_qubits qchannel m ∧ is_target path_id (s.1) = true.
Proof.
  unfold channel_targets. by rewrite !list_elem_of_In, filter_In.
Qed.

Lemma channel_qubits_NoDup qchannel m :
  well_addressed m ->
  NoDup (map (fun s : Slot => mq_addr (s.1)) (get_channel_qubits qchannel m)).
Proof.
  intros Hwa. apply well_addressed_NoDup with m; [done| |].
  - apply NoDup_ListNoDup, List.NoDup_filter, NoDup_ListNoDup.
    apply NoDup_alt. intros i j s Hi Hj.
    by rewrite <- (Hwa _ _ Hi), <- (Hwa _ _ Hj).
  - apply elem_of_get_channel_qubits.
Qed.

(** X21. [run_active_channel] on a memory whose qubits sit at their
    addresses, with a classic channel to the next hop: if the [RAW] qubits
    of the channel allocated to the path id are free (no key, no pair) and
    the keys drawn for them are new and pairwise distinct, the call returns;
    it sends one [RESERVE_QUBIT] request per such qubit, in slot order;
    each of these qubits is then [ACTIVE] under its key and registered in
    the pending reservations; every other slot is unchanged. *)
Theorem run_active_channel_reserves env key_for qchannel path_id next_hop
    cchannel w :
  well_addressed (memory w) ->
  get_cchannel env next_hop = Some cchannel ->
  (∀ s, s ∈ channel_targets qchannel path_id (memory w) ->
        mq_active (s.1) = None ∧ s.2 = None ∧
        pending_init_reservation (ll w) !! key_for (mq_addr (s.1)) = None) ->
  (∀ s s', s ∈ channel_targets qchannel path_id (memory w) ->
           s' ∈ channel_targets qchannel path_id (memory w) ->
           key_for (mq_addr (s.1)) = key_for (mq_addr (s'.1)) ->
           mq_addr (s.1) = mq_addr (s'.1)) ->
  ∃ w',
    run_active_channel env key_for qchannel path_id next_hop w = Done tt w' ∧
    sent w' = sent w ++ map (request_for env cchannel next_hop key_for)
                            (channel_targets qchannel path_id (memory w)) ∧
    (∀ s, s ∈ channel_targets qchannel path_id (memory w) ->
       _storage (memory w') !! mq_addr (s.1)
         = Some (set_active (Some (key_for (mq_addr (s.1))))
                            (set_state ACTIVE (s.1)), s.2) ∧
       pending_init_reservation (ll w') !! key_for (mq_addr (s.1))
         = Some (qchannel, next_hop, mq_addr (s.1))) ∧
    (∀ a, (∀ s, s ∈ channel_targets qchannel path_id (memory w) ->
                mq_addr (s.1) ≠ a) ->
       _storage (memory w') !! a = _storage (memory w) !! a).
Proof.
  intros Hwa Hcc Hfree Hinj.
  destruct (run_active_channel_loop env key_for qchannel path_id next_hop
              cchannel (get_channel_qubits qchannel (memory w)) Hcc
              (channel_qubits_NoDup qchannel _ Hwa) w)
    as (bs & w' & Hrun & Hsent & Htargets & Hrest & _).
  - intros s Hs. apply well_addressed_lookup; [done|].
    by apply elem_of_get_channel_qubits in Hs.
  - intros s Hs Ht. apply Hfree, elem_of_channel_targets. by split.
  - intros s s' Hs Hs' Ht Ht'. apply Hinj; apply elem_of_channel_targets; by split.
  - exists w'. rewrite run_active_channel_unfold, Hrun. split; [done|].
    split; [exact Hsent|]. split.
    + intros s Hs. apply elem_of_channel_targets in Hs as [Hs Ht].
      by apply Htargets.
    + intros a Ha. apply Hrest. intros s Hs Ht. apply Ha.
      apply elem_of_channel_targets. by split.
Qed.

Lemma run_active_channel_reserves_witness :
  ∃ w',
    run_active_channel async_env demo_key_for "qc" None "B" idle_world
      = Done tt w' ∧
    sent w' = map (request_for async_env "cc" "B" demo_key_for)
                  [(mkQubit 0 RAW (Some "qc") None None, None);
                   (mkQubit 2 RAW (Some "qc") None None, None)] ∧
    _storage (memory w') !! 1%nat
      = Some (mkQubit 1 RAW (Some "qd") None None, None).
Proof.
  destruct (run_active_channel_reserves async_env demo_key_for "qc" None "B"
              "cc" idle_world)
    as (w' & Hrun & Hsent & _ & Hrest).
  - intros i s Hi. destruct i as [|[|[|i]]]; simpl in Hi; by inversion Hi.
  - reflexivity.
  - intros s Hs. change (channel_targets "qc" None (memory idle_world))
      with [(mkQubit 0 RAW (Some "qc") None None, None : option EprRef);
            (mkQubit 2 RAW (Some "qc") None None, None)] in Hs.
    apply elem_of_cons in Hs as [-> | Hs];
      [|apply list_elem_of_singleton in Hs as ->]; done.
  - intros s s' Hs Hs'.
    change (channel_targets "qc" None (memory idle_world))
      with [(mkQubit 0 RAW (Some "qc") None None, None : option EprRef);
            (mkQubit 2 RAW (Some "qc") None None, None)] in Hs, Hs'.
    apply elem_of_cons in Hs as [-> | Hs];
      [|apply list_elem_of_singleton in Hs as ->];
    (apply elem_of_cons in Hs' as [-> | Hs'];
      [|apply list_elem_of_singleton in Hs' as ->]); done.
  - exists w'. split; [exact Hrun|]. split; [exact Hsent|].
    rewrite Hrest; [reflexivity|].
    intros s Hs.
    change (channel_targets "qc" None (memory idle_world))
      with [(mkQubit 0 RAW (Some "qc") None None, None : option EprRef);
            (mkQubit 2 RAW (Some "qc") None None, None)] in Hs.
    apply elem_of_cons in Hs as [-> | Hs];
      [|apply list_elem_of_singleton in Hs as ->]; done.
Defined.

End activation.

(** ** Selection strategies *)

Section selection.
Import Mux.

Lemma random_choice_nonempty {A} (rnd : nat) (l : list A) :
  l ≠ [] ->
  ∃ a, random_choice rnd l = inr a ∧ a ∈ l ∧
       ∀ d, nth (rnd `mod` length l)%nat l d = a.
Proof.
  intros Hl.
  assert (Hlt : (rnd `mod` length l < length l)%nat)
    by (apply Nat.mod_upper_bound; by destruct l).
  destruct (lookup_lt_is_Some_2 _ _ Hlt) as [a Ha].
  exists a. unfold random_choice. rewrite Ha. split; [done|]. split.
  - by apply list_elem_of_lookup_2 in Ha.
  - intros d. by rewrite nth_lookup, Ha.
Qed.

(** X22. The random strategies of [select.py] draw from what they are
    given. [select_swap_qubit] with [select_swap_qubit_random] returns
    [None] exactly when there is no candidate, so that the strategy never
    sees an empty list; on a non-empty list it returns the candidate that
    [random.choice] draws, which is one of the list. [select_path_random]
    raises [IndexError] on an empty list of FIB entries and returns one of
    the entries otherwise. *)
Theorem random_strategies_draw_from_candidates
    (rnd : nat) (qubit : MemoryQubit) (epr : EprRef)
    (fib_entry : option FibEntry) (l : list Candidate) (fibs : list FibEntry) :
  let selected :=
    select_swap_qubit (Some (select_swap_qubit_random rnd)) qubit epr fib_entry l in
  (selected = None ↔ l = []) ∧
  (l ≠ [] -> ∃ c, random_choice rnd l = inr c ∧ selected = Some c ∧ c ∈ l) ∧
  (select_path_random rnd fibs = inl IndexError ↔ fibs = []) ∧
  (∀ fe, select_path_random rnd fibs = inr fe -> fe ∈ fibs).
Proof.
  cbv zeta. split; [apply select_swap_qubit_None|]. split; [|split].
  - intros Hl. destruct (random_choice_nonempty rnd l Hl) as (c & Hc & Hin & Hnth).
    exists c. split; [done|]. split; [|done].
    unfold select_swap_qubit, select_swap_qubit_random.
    rewrite bool_decide_eq_false_2 by (by destruct l). by rewrite Hnth.
  - unfold select_path_random. split.
    + intros Hraise. destruct fibs as [|fe fibs]; [done|].
      destruct (random_choice_nonempty rnd (fe :: fibs)) as (a & Ha & _);
        [done|congruence].
    + by intros ->.
  - intros fe Hfe. by apply random_choice_elem_of in Hfe.
Qed.

Lemma random_strategies_draw_from_candidates_witness :
  select_swap_qubit (Some (select_swap_qubit_random 3)) qubit_AB 0%nat None
    [(qubit_AB, 0%nat); (qubit_BC, 1%nat)] = Some (qubit_BC, 1%nat).
Proof.
  destruct (proj1 (proj2 (random_strategies_draw_from_candidates 3 qubit_AB 0%nat
              None [(qubit_AB, 0%nat); (qubit_BC, 1%nat)] [])))
    as (c & Hc & Hsel & _).
  - done.
  - vm_compute in Hc. injection Hc as <-. exact Hsel.
Defined.

End selection.

(** ** The reservation handshake *)

Section handshake.
Import Memory LinkLayer.

Ltac run :=
  unfold mbind, M_bind, bind, mret, M_ret, ret, modify, get_state, assert,
    raise, or_raise, add_event, send; simpl.

Lemma handle_reserve_res_reserving env key next_hop qchannel addr cchannel q w
    k name path_id :
  qubit_at addr (memory w) = Some q ->
  pending_init_reservation (ll w) !! key = None ->
  ∃ w2, handle_reserve_res env k name (mkMsg RESERVE_QUBIT_OK path_id key)
          (reserving env key next_hop qchannel addr cchannel q w) = Done tt w2 ∧
        pending_init_reservation (ll w2) = pending_init_reservation (ll w) ∧
        qubit_at addr (memory w2)
          = Some (set_state RESERVED
                    (set_active (Some key) (set_state ACTIVE q))).
Proof.
  intros Hq Hfresh.
  unfold handle_reserve_res, generate_entanglement, the_qubit, reserving.
  run. rewrite lookup_insert_eq. simpl.
  rewrite qubit_at_update_eq, Hq. simpl.
  rewrite bool_decide_eq_true_2 by done. simpl.
  rewrite !qubit_at_update_eq, Hq. simpl.
  destruct (link_delays env qchannel k) as [[d_c d_a] d_b].
  assert (Hpend : delete key (<[key := (qchannel, next_hop, addr)]>
                                (pending_init_reservation (ll w)))
                  = pending_init_reservation (ll w)).
  { rewrite delete_insert_eq. by apply delete_id. }
  destruct (negb (is_external env _)); simpl.
  all: eexists; split; [reflexivity|].
  all: split; [exact Hpend|].
  all: simpl; by rewrite !qubit_at_update_eq, Hq.
Qed.

(** X23. The reservation handshake between two nodes. The initiator starts
    a reservation for one of its qubits under a fresh key; the packet it
    sends, given to the [RecvClassicPacketHandler] of a responder that has
    a free qubit for the request, is handled there: that qubit becomes
    [RESERVED] under the initiator's key and one reply is sent back to the
    peer of the channel; the reply, given to the initiator's
    [RecvClassicPacketHandler], is handled in turn: the pending reservation
    is consumed and the initiator's qubit is [RESERVED] under the same
    key. *)
Theorem reservation_handshake
    (env_i env_r : Env) (key : string) (next_hop : NodeName)
    (qchannel : ChannelName) (addr : nat) (cchannel : CChannelName)
    (q : MemoryQubit) (w_i w_r : World) (from_node : NodeName)
    (qchannel_r : ChannelName) (i : nat) (q_r : MemoryQubit)
    (v : option EprRef) (k k_r : Z) (name name_r : string) :
  qubit_at addr (memory w_i) = Some q ->
  get_cchannel env_i next_hop = Some cchannel ->
  pending_init_reservation (ll w_i) !! key = None ->
  well_addressed (memory w_r) ->
  find_peer env_r cchannel = Some from_node ->
  get_qchannel env_r from_node = Some qchannel_r ->
  first_reservable (mkReq key (mq_path_id q) cchannel from_node qchannel_r)
                   (memory w_r) = Some (i, (q_r, v)) ->
  ∃ w_i1 request w_r1 reply w_i2,
    start_reservation env_i key next_hop qchannel addr w_i = Done tt w_i1 ∧
    sent w_i1 = sent w_i ++ [request] ∧
    RecvClassicPacketHandler env_r k_r name_r (payload_of request) (via request) w_r
      = Done true w_r1 ∧
    sent w_r1 = sent w_r ++ [reply] ∧
    pkt_dest reply = from_node ∧
    held i RESERVED key (memory w_r1) ∧
    RecvClassicPacketHandler env_i k name (payload_of reply) (via reply) w_i1
      = Done true w_i2 ∧
    pending_init_reservation (ll w_i2) = pending_init_reservation (ll w_i) ∧
    held addr RESERVED key (memory w_i2).
Proof.
  intros Hq Hcc Hfresh Hwa Hpeer Hqc Hfree.
  set (req := mkReq key (mq_path_id q) cchannel from_node qchannel_r) in *.
  destruct (handle_reserve_res_reserving env_i key next_hop qchannel addr
              cchannel q w_i k name (mq_path_id q) Hq Hfresh)
    as (w_i2 & Hres & Hpend & Hq2).
  exists (reserving env_i key next_hop qchannel addr cchannel q w_i),
         (reserve_request env_i cchannel next_hop q key),
         (accepted env_r req i q_r w_r),
         (reserve_ok_reply env_r req), w_i2.
  split.
  { by rewrite (start_reservation_spec _ _ _ _ _ _ _ Hq), Hfresh, Hcc. }
  split; [done|]. split.
  { unfold RecvClassicPacketHandler, payload_of, handle_reserve_req. run.
    rewrite Hpeer. simpl. rewrite Hqc. simpl.
    pose proof (try_accept_reservation_spec env_r req w_r Hwa) as Hacc.
    fold req. rewrite Hfree in Hacc. by rewrite Hacc. }
  split; [done|]. split; [done|]. split.
  { exists (reserved_for req q_r). split; [|done].
    unfold qubit_at, accepted; simpl.
    apply list_find_Some in Hfree as (Hi & _).
    rewrite list_lookup_insert_eq; [done|]. by apply lookup_lt_Some in Hi. }
  split.
  { unfold RecvClassicPacketHandler, payload_of. simpl.
    unfold mbind, M_bind, bind. unfold req; simpl. by rewrite Hres. }
  split; [exact Hpend|].
  eexists. split; [exact Hq2|]. done.
Qed.

Lemma reservation_handshake_witness :
  ∃ w_i1 request w_r1 reply w_i2,
    start_reservation async_env "r0" "B" "qc" 0 idle_world = Done tt w_i1 ∧
    sent w_i1 = [request] ∧
    RecvClassicPacketHandler env_B 4 "f" (payload_of request) (via request)
      responder_world = Done true w_r1 ∧
    sent w_r1 = [reply] ∧
    held 1 RESERVED "r0" (memory w_r1) ∧
    RecvClassicPacketHandler async_env 4 "e" (payload_of reply) (via reply) w_i1
      = Done true w_i2 ∧
    held 0 RESERVED "r0" (memory w_i2).
Proof.
  destruct (reservation_handshake async_env env_B "r0" "B" "qc" 0 "cc"
              (mkQubit 0 RAW (Some "qc") None None) idle_world responder_world
              "A" "qc" 1 (mkQubit 1 RAW (Some "qc") None None) None
              4 4 "e" "f")
    as (w_i1 & request & w_r1 & reply & w_i2 & H1 & H2 & H3 & H4 & _ & H5 & H6
        & _ & H7).
  - reflexivity.
  - reflexivity.
  - reflexivity.
  - exact responder_world_well_addressed.
  - reflexivity.
  - reflexivity.
  - reflexivity.
  - by exists w_i1, request, w_r1, reply, w_i2.
Defined.

End handshake.
